(** * Ship-Maintenance assistant: the response-strategy decision engine

    A shallow embedding of [backend/rag_core.py], [backend/main.py],
    [backend/models.py] and [backend/config.py], and the properties of the
    engine stated over it.

    Conventions of the embedding.
    - Python [str] is [string]; a character is an [ascii].  Case folding,
      white space and the regex classes are the ASCII ones of CPython;
      characters above 127 are treated as caseless symbols.
    - Python [int] is [Z].
    - A Python [dict] that is iterated is an association list in insertion
      order ([odict]); a [dict] that is only looked up is a [gmap].
    - Calls to the retrieval chain, the search tool and the language model
      go through an oracle record; the engine runs in a small monad that
      threads the trace of calls and propagates exceptions. *)

From Stdlib Require Import ZArith Lia Ascii String List Bool.
From stdpp Require Import base strings gmap list pretty.
Import ListNotations.

Local Open Scope string_scope.
Local Open Scope Z_scope.
Local Open Scope list_scope.

(** ** Text primitives ([str.lower], [str.strip], [in], [len]) *)

Module Text.

Definition code (c : ascii) : nat := nat_of_ascii c.

Definition between (lo hi : nat) (c : ascii) : bool :=
  (Nat.leb lo (code c) && Nat.leb (code c) hi)%bool.

Definition is_upper (c : ascii) : bool := between 65 90 c.
Definition is_lower (c : ascii) : bool := between 97 122 c.
Definition is_digit (c : ascii) : bool := between 48 57 c.

(** [str.isspace] on the ASCII range: TAB, LF, VT, FF, CR, the four
    separators FS, GS, RS, US, and the blank. *)
Definition is_space (c : ascii) : bool :=
  (between 9 13 c || between 28 32 c)%bool.

(** A word character of [re]: letter, digit or underscore. *)
Definition is_word (c : ascii) : bool :=
  (is_upper c || is_lower c || is_digit c || Nat.eqb (code c) 95)%bool.

Definition lower_char (c : ascii) : ascii :=
  if is_upper c then ascii_of_nat (code c + 32) else c.

Definition chars (s : string) : list ascii := list_ascii_of_string s.
Definition text (l : list ascii) : string := string_of_list_ascii l.

(** [s.lower()] *)
Definition lower (s : string) : string := text (map lower_char (chars s)).

Fixpoint lstrip_chars (l : list ascii) : list ascii :=
  match l with
  | c :: t => if is_space c then lstrip_chars t else l
  | [] => []
  end.

Definition strip_chars (l : list ascii) : list ascii :=
  rev (lstrip_chars (rev (lstrip_chars l))).

(** [s.strip()] *)
Definition strip (s : string) : string := text (strip_chars (chars s)).

(** [len(s)] *)
Definition len (s : string) : Z := Z.of_nat (String.length s).

Fixpoint starts_with (p l : list ascii) : bool :=
  match p, l with
  | [], _ => true
  | a :: p', b :: l' => (Ascii.eqb a b && starts_with p' l')%bool
  | _ :: _, [] => false
  end.

Fixpoint contains_chars (p l : list ascii) : bool :=
  (starts_with p l ||
   match l with
   | [] => false
   | _ :: t => contains_chars p t
   end)%bool.

(** [sub in s] *)
Definition contains (sub s : string) : bool :=
  contains_chars (chars sub) (chars s).

(** [s[:n]] for [n >= 0] *)
Definition take_prefix (n : Z) (s : string) : string :=
  text (take (Z.to_nat n) (chars s)).

(** [not s] / [bool(s)] *)
Definition is_empty (s : string) : bool :=
  match s with EmptyString => true | String _ _ => false end.

Definition truthy (s : string) : bool := negb (is_empty s).

Definition nl : string := String (ascii_of_nat 10) EmptyString.
Definition dq : string := String (ascii_of_nat 34) EmptyString.
Definition tab : ascii := ascii_of_nat 9.

End Text.

(** ** The fragment of Python's [re] that the engine uses

    Patterns are kept as the source writes them and compiled by
    [compile]; [run] returns the cursors reachable from a cursor, in the
    order in which the backtracking matcher of CPython would find them
    (left alternative first, greedy repetition first). *)

Module Re.

Inductive regex : Type :=
| Eps
| Chr (c : ascii)
| Dot
| Space
| WordC
| Digit
| Bol
| WordB
| Seq (r1 r2 : regex)
| Alt (r1 r2 : regex)
| Star (r : regex).

(** A position in the subject: the character before it (if any) and the
    characters from it on. *)
Record cursor : Type := Cursor { prev : option ascii; rest : list ascii }.

Definition eat (p : ascii -> bool) (c : cursor) : list cursor :=
  match rest c with
  | x :: t => if p x then [Cursor (Some x) t] else []
  | [] => []
  end.

Definition word_at (o : option ascii) : bool :=
  match o with Some x => Text.is_word x | None => false end.

Definition progress (c c' : cursor) : bool :=
  Nat.ltb (length (rest c')) (length (rest c)).

(** Greedy repetition: the longer runs first, the empty run last.  A
    round that consumes nothing adds no new cursor and is dropped, which
    bounds the rounds by the characters left. *)
Fixpoint star (step : cursor -> list cursor) (fuel : nat) (c : cursor)
  : list cursor :=
  match fuel with
  | O => [c]
  | S f => flat_map (star step f) (List.filter (progress c) (step c)) ++ [c]
  end.

Fixpoint run (r : regex) (c : cursor) : list cursor :=
  match r with
  | Eps => [c]
  | Chr a => eat (Ascii.eqb a) c
  | Dot => eat (fun x => negb (Ascii.eqb x (ascii_of_nat 10))) c
  | Space => eat Text.is_space c
  | WordC => eat Text.is_word c
  | Digit => eat Text.is_digit c
  | Bol => match prev c with None => [c] | Some _ => [] end
  | WordB => if xorb (word_at (prev c)) (word_at (head (rest c)))
             then [c] else []
  | Seq r1 r2 => flat_map (run r2) (run r1 c)
  | Alt r1 r2 => run r1 c ++ run r2 c
  | Star r' => star (run r') (length (rest c)) c
  end.

(** *** Compiling the concrete syntax *)

Definition escape (x : ascii) : regex :=
  if Ascii.eqb x "b" then WordB
  else if Ascii.eqb x "s" then Space
  else if Ascii.eqb x "w" then WordC
  else if Ascii.eqb x "d" then Digit
  else if Ascii.eqb x "t" then Chr Text.tab
  else Chr x.

Fixpoint times (n : nat) (r : regex) : regex :=
  match n with
  | O => Eps
  | S n' => Seq r (times n' r)
  end.

Definition is_quantifier (x : ascii) : bool :=
  (Ascii.eqb x "?" || Ascii.eqb x "*" || Ascii.eqb x "+")%bool.

(** [{n,}] with a one-digit [n]; any other use of a brace is a literal. *)
Definition at_least (s : list ascii) : option (nat * list ascii) :=
  match s with
  | "{"%char :: d :: ","%char :: "}"%char :: s' =>
      if Text.is_digit d then Some ((Text.code d - 48)%nat, s') else None
  | _ => None
  end.

(** One optional quantifier after an atom; a second one (lazy or
    possessive forms) is outside the fragment. *)
Definition quantified (r : regex) (s : list ascii)
  : option (regex * list ascii) :=
  let single (q : regex) (s' : list ascii) :=
    match s' with
    | x :: _ => if is_quantifier x then None else Some (q, s')
    | [] => Some (q, s')
    end in
  match s with
  | "?"%char :: s' => single (Alt r Eps) s'
  | "*"%char :: s' => single (Star r) s'
  | "+"%char :: s' => single (Seq r (Star r)) s'
  | _ =>
      match at_least s with
      | Some (n, s') => single (Seq (times n r) (Star r)) s'
      | None => Some (r, s)
      end
  end.

Fixpoint p_alt (fuel : nat) (s : list ascii) {struct fuel}
  : option (regex * list ascii) :=
  match fuel with
  | O => None
  | S f =>
      match p_seq f s with
      | Some (r1, "|"%char :: s') =>
          match p_alt f s' with
          | Some (r2, s'') => Some (Alt r1 r2, s'')
          | None => None
          end
      | other => other
      end
  end
with p_seq (fuel : nat) (s : list ascii) {struct fuel}
  : option (regex * list ascii) :=
  match fuel with
  | O => None
  | S f =>
      match s with
      | [] => Some (Eps, s)
      | x :: _ =>
          if (Ascii.eqb x ")" || Ascii.eqb x "|")%bool then Some (Eps, s)
          else
            match p_atom f s with
            | Some (a, s1) =>
                match quantified a s1 with
                | Some (q, s2) =>
                    match p_seq f s2 with
                    | Some (Eps, s3) => Some (q, s3)
                    | Some (r2, s3) => Some (Seq q r2, s3)
                    | None => None
                    end
                | None => None
                end
            | None => None
            end
      end
  end
with p_atom (fuel : nat) (s : list ascii) {struct fuel}
  : option (regex * list ascii) :=
  match fuel with
  | O => None
  | S f =>
      match s with
      | [] => None
      | "("%char :: s' =>
          match p_alt f s' with
          | Some (r, ")"%char :: s'') => Some (r, s'')
          | _ => None
          end
      | "\"%char :: x :: s' => Some (escape x, s')
      | "."%char :: s' => Some (Dot, s')
      | "^"%char :: s' => Some (Bol, s')
      | x :: s' =>
          if (is_quantifier x || Ascii.eqb x "\" || Ascii.eqb x "$"
              || Ascii.eqb x "[")%bool
          then None else Some (Chr x, s')
      end
  end.

(** [re.compile(pattern)]; [None] when the pattern lies outside the
    modelled fragment. *)
Definition compile (pattern : string) : option regex :=
  let s := Text.chars pattern in
  match p_alt (3 * length s + 3) s with
  | Some (r, []) => Some r
  | _ => None
  end.

(** *** [re.search] *)

Fixpoint search_from (r : regex) (p : option ascii) (s : list ascii) : bool :=
  match run r (Cursor p s) with
  | _ :: _ => true
  | [] =>
      match s with
      | [] => false
      | x :: t => search_from r (Some x) t
      end
  end.

(** [bool(re.search(pattern, subject))] *)
Definition search (pattern subject : string) : bool :=
  match compile pattern with
  | Some r => search_from r None (Text.chars subject)
  | None => false
  end.

(** *** [re.findall] for a pattern without groups

    The first cursor of [run] is the match CPython reports; the scan
    resumes where that match ends.  [skip] counts the characters of the
    current match that are still to be stepped over. *)

Fixpoint findall_from (r : regex) (p : option ascii) (s : list ascii)
         (skip : nat) : list string :=
  match skip with
  | S k =>
      match s with
      | [] => []
      | x :: t => findall_from r (Some x) t k
      end
  | O =>
      match run r (Cursor p s) with
      | c' :: _ =>
          let n := (length s - length (rest c'))%nat in
          Text.text (take n s) ::
            match s with
            | [] => []
            | x :: t => findall_from r (Some x) t (Nat.pred n)
            end
      | [] =>
          match s with
          | [] => []
          | x :: t => findall_from r (Some x) t O
          end
      end
  end.

Definition findall (pattern subject : string) : list string :=
  match compile pattern with
  | Some r => findall_from r None (Text.chars subject) O
  | None => []
  end.

(** *** [re.search(pre (grp) post, subject).group(1)]

    The pattern is given in three parts around its only group. *)

Definition first_some {A B} (f : A -> option B) (l : list A) : option B :=
  head (omap f l).

Definition group_at (pre grp post : regex) (c0 : cursor) : option string :=
  first_some (fun c1 =>
    first_some (fun c2 =>
      match run post c2 with
      | _ :: _ =>
          Some (Text.text (take (length (rest c1) - length (rest c2))%nat
                                (rest c1)))
      | [] => None
      end) (run grp c1)) (run pre c0).

Fixpoint group_from (pre grp post : regex) (p : option ascii)
         (s : list ascii) : option string :=
  match group_at pre grp post (Cursor p s) with
  | Some g => Some g
  | None =>
      match s with
      | [] => None
      | x :: t => group_from pre grp post (Some x) t
      end
  end.

Definition search_group (pre grp post subject : string) : option string :=
  match compile pre, compile grp, compile post with
  | Some a, Some g, Some b => group_from a g b None (Text.chars subject)
  | _, _, _ => None
  end.

(** *** What a match is

    [matches r c c']: read from the cursor [c], the expression [r] can
    end at the cursor [c'].  This is the reading of the expression that
    does not depend on the order of the search. *)

Inductive matches : regex -> cursor -> cursor -> Prop :=
| M_eps c : matches Eps c c
| M_chr a p t : matches (Chr a) (Cursor p (a :: t)) (Cursor (Some a) t)
| M_dot p x t :
    x <> ascii_of_nat 10 -> matches Dot (Cursor p (x :: t)) (Cursor (Some x) t)
| M_space p x t :
    Text.is_space x = true ->
    matches Space (Cursor p (x :: t)) (Cursor (Some x) t)
| M_word p x t :
    Text.is_word x = true ->
    matches WordC (Cursor p (x :: t)) (Cursor (Some x) t)
| M_digit p x t :
    Text.is_digit x = true ->
    matches Digit (Cursor p (x :: t)) (Cursor (Some x) t)
| M_bol s : matches Bol (Cursor None s) (Cursor None s)
| M_wordb c :
    word_at (prev c) <> word_at (head (rest c)) -> matches WordB c c
| M_seq r1 r2 c c1 c2 :
    matches r1 c c1 -> matches r2 c1 c2 -> matches (Seq r1 r2) c c2
| M_alt_l r1 r2 c c' : matches r1 c c' -> matches (Alt r1 r2) c c'
| M_alt_r r1 r2 c c' : matches r2 c c' -> matches (Alt r1 r2) c c'
| M_star_stop r c : matches (Star r) c c
| M_star_more r c c1 c2 :
    matches r c c1 -> matches (Star r) c1 c2 -> matches (Star r) c c2.

(** The expression matches somewhere in the subject: after some prefix
    [pre], with the last character of [pre] before the cursor. *)
Definition found_in (r : regex) (subject : list ascii) : Prop :=
  exists pre post c',
    subject = pre ++ post /\ matches r (Cursor (last pre) post) c'.

(** The pattern is in the fragment and matches somewhere in the subject. *)
Definition occurs (pattern subject : string) : Prop :=
  exists r, compile pattern = Some r /\ found_in r (Text.chars subject).

End Re.

(** ** [config.py] *)

Definition MAX_SOLUTION_STEPS : Z := 3.
Definition WEB_SEARCH_RESULT_MAX_CHARS : Z := 3000.

(** ** Insertion-ordered dictionaries

    [rag_core.problem_dict] is iterated by [detect_problem], so the order
    of its keys is part of its value. *)

Module odict.

Definition t (V : Type) : Type := list (string * V).

(** [d.get(k)] *)
Fixpoint get {V} (d : t V) (k : string) : option V :=
  match d with
  | [] => None
  | (k', v) :: d' => if String.eqb k' k then Some v else get d' k
  end.

(** [d[k] = v]: an existing key keeps its place *)
Fixpoint set {V} (d : t V) (k : string) (v : V) : t V :=
  match d with
  | [] => [(k, v)]
  | (k', v') :: d' =>
      if String.eqb k' k then (k, v) :: d' else (k', v') :: set d' k v
  end.

(** [list(d)] *)
Definition keys {V} (d : t V) : list string := map fst d.

(** [not d] *)
Definition is_empty {V} (d : t V) : bool :=
  match d with [] => true | _ :: _ => false end.

End odict.

(** The problem dictionary, [Dict[str, Dict[str, str]]]: problem name to
    record, a record being the inner dictionary with the keys
    [possible_cause] and [solution_step_i]. *)
Abbreviation catalog := (odict.t (gmap string string)).

(** [d.get(k, default)] on the inner dictionaries *)
Definition get_or (d : gmap string string) (k default : string) : string :=
  match d !! k with Some v => v | None => default end.

(** [f'solution_step_{i}'] *)
Definition step_key (i : Z) : string := "solution_step_" +:+ pretty i.

(** ** [rag_core.py]: loading the problem dictionary *)

(** What [pd.read_csv] hands to the loader: the file may be absent, the
    read may raise, or there is a table of string cells. *)
Inductive csv_source : Type :=
| CsvMissing
| CsvUnreadable
| CsvTable (columns : list string) (rows : list (gmap string string)).

(** [str(row.get(col, '')).strip()] *)
Definition cell (row : gmap string string) (col : string) : string :=
  Text.strip (get_or row col "").

(** The inner [for i in range(1, MAX_SOLUTION_STEPS + 1)] loop. *)
Definition fill_steps (row : gmap string string) (e : gmap string string)
  : gmap string string * bool :=
  foldl (fun (acc : gmap string string * bool) (i : Z) =>
           let step_content := cell row (step_key i) in
           (<[step_key i := step_content]> (fst acc),
            (snd acc || Text.truthy step_content)%bool))
        (e, false) (seqZ 1 MAX_SOLUTION_STEPS).

(** One iteration of [for index, row in df.iterrows()]. *)
Definition load_row (problem_lookup : catalog) (row : gmap string string)
  : catalog :=
  let problem_key := cell row "problem" in
  if Text.truthy problem_key then
    let problem_entry : gmap string string :=
      {[ "possible_cause" := cell row "possible_cause" ]} in
    let '(problem_entry, has_at_least_one_step) := fill_steps row problem_entry in
    if has_at_least_one_step
    then odict.set problem_lookup problem_key problem_entry
    else problem_lookup
  else problem_lookup.

Definition load_problem_data_dict (src : csv_source) : catalog :=
  match src with
  | CsvMissing => []
  | CsvUnreadable => []
  | CsvTable columns rows =>
      if forallb (fun col => bool_decide (col ∈ columns))
                 ["problem"; "solution_step_1"]
      then foldl load_row [] rows
      else []
  end.

(** ** [rag_core.py]: intent detection helpers *)

(** [any(re.search(p, text) for p in patterns)] *)
Definition any_search (patterns : list string) (text : string) : bool :=
  existsb (fun p => Re.search p text) patterns.

(** [set(re.findall(r'\b\w{3,}\b', text))] *)
Definition keywords (text : string) : gset string :=
  list_to_set (Re.findall "\b\w{3,}\b" text).

(** Truthiness of an [Optional[str]]. *)
Definition truthy_opt (o : option string) : bool :=
  match o with Some s => Text.truthy s | None => false end.

(** First loop of [detect_problem]: the exact match. *)
Fixpoint exact_match (text_lower : string) (ks : list string) : option string :=
  match ks with
  | [] => None
  | problem_key :: ks' =>
      if String.eqb (Text.lower problem_key) text_lower
      then Some problem_key
      else exact_match text_lower ks'
  end.

(** Second loop: the longest key contained in the text.  The state is
    [(best_match, max_overlap)]. *)
Definition substring_pass (text_lower : string) (ks : list string)
           (st : option string * Z) : option string * Z :=
  foldl (fun (st : option string * Z) problem_key =>
           if Text.contains (Text.lower problem_key) text_lower then
             if Text.len problem_key >? snd st
             then (Some problem_key, Text.len problem_key)
             else st
           else st)
        st ks.

(** Third loop: the key sharing the most keywords with the text. *)
Definition keyword_pass (text_keywords : gset string) (ks : list string)
           (st : option string * Z) : option string * Z :=
  foldl (fun (st : option string * Z) problem_key =>
           let problem_keywords := keywords (Text.lower problem_key) in
           let common_keywords := text_keywords ∩ problem_keywords in
           let n := Z.of_nat (size common_keywords) in
           if ((n >=? 2) && (n >? snd st))%bool
           then (Some problem_key, n)
           else st)
        st ks.

Definition detect_problem (text : string) (problems : catalog) : option string :=
  if (odict.is_empty problems || Text.is_empty text)%bool then None
  else
    let text_lower := Text.strip (Text.lower text) in
    match exact_match text_lower (odict.keys problems) with
    | Some problem_key => Some problem_key
    | None =>
        let st := substring_pass text_lower (odict.keys problems) (None, 0) in
        if negb (truthy_opt (fst st)) then
          let text_keywords := keywords text_lower in
          if Z.of_nat (size text_keywords) <? 2 then None
          else fst (keyword_pass text_keywords (odict.keys problems) st)
        else fst st
    end.

Definition help_patterns : list string :=
  [ "how\s+(to|do\s+i)\s+(fix|solve|repair|troubleshoot)";
    "\b(fix|solve|repair|troubleshoot|diagnose)\b";
    "\b(issue|problem|error|fault|failure)\s+with\b";
    "is\s+(not\s+working|failing|broken|down|acting\s+up)";
    "\b(help|assist|advice|guidance)\s+(me\s+)?(with|on)?\b";
    "what\s+to\s+do\s+(about|if|when)";
    "can\s+you\s+help" ].

Definition is_asking_for_help (text : string) : bool :=
  let text_lower := Text.lower text in
  any_search help_patterns text_lower.

Definition solved_patterns : list string :=
  [ "\b(solved|fixed|resolved|ok|okay|worked|working)\b";
    "\bit\s+works\b"; "\bproblem\s+(is\s+)?gone\b"; "\tissue\s+fixed\b";
    "\bthat\s+(did|fixed)\s+(it|the\s+trick)\b";
    "^(yes|yeah|yep|affirmative)\b";
    "(great|perfect|excellent|awesome|thanks|thank\s+you).*\b(it|that)\s+worked";
    "all\s+good\s+now"; "running\s+smoothly" ].

Definition negation_patterns : list string :=
  [ "\b(no(t)?|didn\'?t|doesn\'?t|hasn\'?t|haven\'?t|isn\'?t|aren\'t|can\'?t|couldn\'?t|still|yet)\b" ].

Definition is_problem_solved (text : string) : bool :=
  let text_lower := Text.strip (Text.lower text) in
  let early : option bool :=
    if any_search negation_patterns text_lower then
      if (String.eqb text_lower "no" || String.eqb text_lower "nope")%bool
      then Some false
      else if negb (any_search solved_patterns text_lower)
           then Some false
           else None
    else None in
  match early with
  | Some b => b
  | None => if any_search solved_patterns text_lower then true else false
  end.

Definition not_solved_patterns : list string :=
  [ "\bnot\s+(solved|fixed|working|resolved|helping)\b";
    "\b(didn\'?t|doesn\'?t|did\s+not|does\s+not)\s+(work|help|fix|solve|change)\b";
    "\bno\s+(change|effect|luck|joy|difference)\b";
    "\bstill\s+(have|having|seeing)\s+(the\s+|an\s+)?(problem|issue|error)\b";
    "\b(same|persistent)\s+(problem|issue)\b";
    "^(no|nope|negative)\b";
    "didn\'?t\s+(do\s+)?(anything|it)";
    "that\s+wasn\'?t\s+it" ].

Definition is_problem_not_solved (text : string) : bool :=
  let text_lower := Text.strip (Text.lower text) in
  if is_problem_solved text_lower then false
  else any_search not_solved_patterns text_lower.

(** The [while next_step_index <= MAX_SOLUTION_STEPS] loop; [fuel] is the
    number of indices left to visit. *)
Fixpoint scan_steps (problem_data : gmap string string) (fuel : nat)
         (next_step_index : Z) : option (Z * string) :=
  match fuel with
  | O => None
  | S f =>
      let step_text := Text.strip (get_or problem_data (step_key next_step_index) "") in
      if Text.truthy step_text
      then Some (next_step_index, step_text)
      else scan_steps problem_data f (next_step_index + 1)
  end.

Definition get_next_solution_step (problem_dict : catalog)
           (problem_name : string) (current_step_index : Z)
  : option Z * option string * option string :=
  match odict.get problem_dict problem_name with
  | None => (None, None, None)
  | Some problem_data =>
      if bool_decide (problem_data = ∅) then (None, None, None)
      else
        let cause := get_or problem_data "possible_cause" "N/A" in
        let next_step_index := current_step_index + 1 in
        match scan_steps problem_data
                (Z.to_nat (MAX_SOLUTION_STEPS + 1 - next_step_index))
                next_step_index with
        | Some (i, step_text) => (Some i, Some step_text, Some cause)
        | None => (None, None, Some cause)
        end
  end.

(** ** [rag_core.py]: formatting web results under a character budget *)

(** [separator.join(formatted)] *)
Fixpoint join (sep : string) (l : list string) : string :=
  match l with
  | [] => ""
  | [x] => x
  | x :: t => x +:+ sep +:+ join sep t
  end.

Definition separator : string :=
  Text.nl +:+ Text.nl +:+ "---" +:+ Text.nl +:+ Text.nl.

(** [f"Result {i+1}:\nSource: {url}\nTitle: {title}"] *)
Definition short_entry_of (i : Z) (url title : string) : string :=
  "Result " +:+ pretty (i + 1) +:+ ":" +:+ Text.nl +:+
  "Source: " +:+ url +:+ Text.nl +:+ "Title: " +:+ title.

(** [f"Result {i+1}:\nSource: {url}\nTitle: {title}\nContent: "] *)
Definition header_of (i : Z) (url title : string) : string :=
  short_entry_of i url title +:+ Text.nl +:+ "Content: ".

(** The body of [for i, res in enumerate(search_results)]; the state is
    [(formatted, total_chars)] and a [break] ends the recursion. *)
Fixpoint format_loop (max_chars : Z) (search_results : list (gmap string string))
         (i : Z) (formatted : list string) (total_chars : Z) : list string :=
  match search_results with
  | [] => formatted
  | res :: more =>
      let title := get_or res "title" "N/A" in
      let url := get_or res "url" "N/A" in
      let content := Text.strip (get_or res "content" "") in
      let entry := header_of i url title +:+ content in
      let entry_len := Text.len entry in
      let sep_len := Text.len separator in
      if total_chars =? 0 then
        if entry_len <=? max_chars then
          format_loop max_chars more (i + 1) (formatted ++ [entry])
                      (total_chars + entry_len)
        else
          let available_chars := max_chars - Text.len (header_of i url title) in
          let truncated_content :=
            if available_chars >? 3
            then Text.take_prefix available_chars content +:+ "..."
            else "" in
          formatted ++ [header_of i url title +:+ truncated_content]
      else
        if total_chars + sep_len + entry_len <=? max_chars then
          format_loop max_chars more (i + 1) (formatted ++ [entry])
                      (total_chars + sep_len + entry_len)
        else
          let short_entry := short_entry_of i url title in
          let short_len := Text.len short_entry in
          if total_chars + sep_len + short_len <=? max_chars
          then formatted ++ [short_entry]
          else formatted
  end.

Definition format_web_results_for_llm (search_results : list (gmap string string))
           (max_chars : Z) : string :=
  match search_results with
  | [] => "No web search results found."
  | _ :: _ => join separator (format_loop max_chars search_results 0 [] 0)
  end.

(** ** [rag_core.py]: the sufficiency check of a RAG answer *)

Definition MIN_SUFFICIENT_LENGTH : Z := 50.

Definition insufficient_patterns : list string :=
  [ "couldn't find specific details"; "could not find information";
    "do not have specific information";
    "information is not available"; "based on the provided documents?.?.? i can't";
    "unable to provide specific steps"; "no mention of"; "documents? don't cover";
    "general information"; "i can only provide general advice";
    "it might be"; "possible causes could include";
    "recommend consulting the manual"; "refer to standard procedures";
    "i cannot answer"; "don't have enough information"; "therefore,? i don't know";
    "i am sorry,? but the provided documents?";
    "documents? provided do not contain information";
    "based on the information i have";
    "i don't have access to information about that";
    "my knowledge base doesn't include details on";
    "unable to find relevant information in the context";
    "the context provided does not answer";
    "the retrieved documents? seem unrelated";
    "i lack the specific data" ].

(** The [for pattern in insufficient_patterns] loop with its early
    [return False]. *)
Fixpoint first_insufficiency (patterns : list string) (text_lower : string)
  : option string :=
  match patterns with
  | [] => None
  | pattern :: more =>
      if Re.search pattern text_lower then Some pattern
      else first_insufficiency more text_lower
  end.

Definition is_rag_answer_sufficient (answer_text : string) : bool :=
  if Text.is_empty answer_text then false
  else
    (* the length test below only logs a warning *)
    let too_short := Text.len answer_text <? MIN_SUFFICIENT_LENGTH in
    let text_lower := Text.lower answer_text in
    match first_insufficiency insufficient_patterns text_lower with
    | Some _ => false
    | None => true
    end.

(** ** [models.py] *)

Record Message : Type := { role : string; content : string }.

Module TroubleshootingState.
Record t : Type := Make {
  is_active : bool;
  current_problem : option string;
  current_step : Z }.
(** [TroubleshootingState()] *)
Definition default : t := Make false None 0.
End TroubleshootingState.

Module ChatRequest.
Record t : Type := {
  prompt : string;
  history : list Message;
  troubleshooting_state : TroubleshootingState.t;
  force_web_search : bool }.
End ChatRequest.

Module ChatResponse.
Record t : Type := {
  answer : string;
  history : list Message;
  troubleshooting_state : TroubleshootingState.t;
  offer_web_search : bool;
  final_answer_source : string }.
End ChatResponse.

(** ** Exceptions, collaborators and the monad of the engine *)

(** The classes the handlers tell apart by [isinstance]. *)
Inductive exc_class : Type := ResourceExhausted | ImportError | AttributeError | OtherError.

(** An exception: its class, [type(e).__name__], [str(e)] and [e.__cause__].
    Only subclasses of [Exception] are modelled: every handler of the
    program is an [except Exception] (or narrower) clause, so a
    [BaseException] outside that hierarchy, such as
    [asyncio.CancelledError] or [KeyboardInterrupt], would pass through
    all of them; what the collaborators raise is taken to lie within
    [Exception]. *)
#[warnings="-register-all"]
Inductive exception : Type :=
| Exc (cls : exc_class) (type_name : string) (message : string)
      (cause : option exception).

Definition cls_of (e : exception) : exc_class := let 'Exc c _ _ _ := e in c.
Definition type_name_of (e : exception) : string := let 'Exc _ n _ _ := e in n.
Definition str_of (e : exception) : string := let 'Exc _ _ m _ := e in m.
Definition cause_of (e : exception) : option exception := let 'Exc _ _ _ c := e in c.

(** [isinstance(e, google.api_core.exceptions.ResourceExhausted)] *)
Definition is_resource_exhausted (e : exception) : bool :=
  match cls_of e with ResourceExhausted => true | _ => false end.

Definition is_import_error (e : exception) : bool :=
  match cls_of e with ImportError => true | _ => false end.

Inductive outcome (A : Type) : Type :=
| Return (a : A)
| Raised (e : exception).
Arguments Return {A} a.
Arguments Raised {A} e.

(** What the language model hands back: an object with a [content]
    attribute, a plain string, or something else, whose [str()] may fail. *)
Inductive llm_response : Type :=
| WithContent (content : string)
| PlainString (s : string)
| OtherObject (str_result : option string).

(** A call that left the engine. *)
Inductive event : Type :=
| RagAinvoke (question : string)
| RagInvoke (question : string)
| WebSearchAndSynthesis (query : string)
| TavilyInvoke (query : string)
| LlmAinvoke (synthesis_prompt : string).

(** The module-level handles of [rag_core] and the behaviour of what they
    point to.  [get_ready_state] rejects a request before [chat_endpoint]
    runs unless the chain is set, so the chain is always present here. *)
Record World : Type := {
  problem_dict : catalog;
  tavily_tool : option (string -> outcome (list (gmap string string)));
  llm : option (string -> outcome llm_response);
  chain_has_ainvoke : bool;
  chain_ainvoke : string -> list Message -> outcome (gmap string string);
  chain_invoke : string -> list Message -> outcome (gmap string string) }.

Definition M (A : Type) : Type := list event -> outcome A * list event.

Definition ret {A} (a : A) : M A := fun tr => (Return a, tr).

Definition raise {A} (e : exception) : M A := fun tr => (Raised e, tr).

Definition bind {A B} (m : M A) (k : A -> M B) : M B :=
  fun tr =>
    match m tr with
    | (Return a, tr') => k a tr'
    | (Raised e, tr') => (Raised e, tr')
    end.

(** [try: m  except Exception as e: handler(e)]: the clause catches every
    exception of the model, all of which derive from [Exception]. *)
Definition try_except {A} (m : M A) (handler : exception -> M A) : M A :=
  fun tr =>
    match m tr with
    | (Return a, tr') => (Return a, tr')
    | (Raised e, tr') => handler e tr'
    end.

(** A call to a collaborator: it is recorded, then it returns or raises. *)
Definition call {A} (ev : event) (o : outcome A) : M A :=
  fun tr => (o, tr ++ [ev]).

Notation "x <- c1 ;; c2" := (bind c1 (fun x => c2))
  (at level 100, c1 at next level, right associativity).

(** ** [rag_core.py]: calling the collaborators *)

(** The question [invoke_rag_chain] builds around the prompt. *)
Definition rag_question (prompt : string) : string :=
  "You are an expert Ship Maintenance AI Assistant." +:+
    Text.nl +:+
    "                Use the retrieved internal documents to answer the user's question accurately and concisely." +:+
    Text.nl +:+
    "                If the documents don't contain the answer, state that clearly." +:+
    Text.nl +:+
    "                Prioritize safety procedures and standard operating protocols mentioned in the documents." +:+
    Text.nl +:+
    Text.nl +:+
    "                User Question: " +:+
    prompt +:+
    Text.nl +:+
    "                ".

(** [ainvoke] first; on any exception the synchronous [invoke], whose
    exception is the caller's to handle. *)
Definition invoke_rag_chain (w : World) (prompt : string) (history : list Message)
  : M (gmap string string) :=
  let contextual_prompt := rag_question prompt in
  try_except
    (if chain_has_ainvoke w
     then call (RagAinvoke contextual_prompt)
               (chain_ainvoke w contextual_prompt history)
     else raise (Exc AttributeError "AttributeError"
                     "Chain does not have ainvoke" None))
    (fun e =>
       call (RagInvoke contextual_prompt)
            (chain_invoke w contextual_prompt history)).

Definition synthesis_prompt_of (query formatted_results : string) : string :=
  "You are an expert AI Assistant specializing **exclusively in Ship Maintenance and Troubleshooting**." +:+
    Text.nl +:+
    "        A user asked the following question related to a ship system:" +:+
    Text.nl +:+
    "        " +:+
    Text.dq +:+
    query +:+
    Text.dq +:+
    Text.nl +:+
    "        An initial search of the internal knowledge base did not provide a sufficiently specific or actionable answer." +:+
    Text.nl +:+
    "        Your task is to analyze the following web search results and synthesize a *concise, actionable, and relevant* answer **specifically for a maritime/ship context**." +:+
    Text.nl +:+
    "        **Instructions for Synthesis:**" +:+
    Text.nl +:+
    "        1.  **Filter Relevance:** Discard any information clearly not applicable to ships, marine environments, or industrial equipment typically found on vessels. Focus on results mentioning specific ship components, marine standards, or common maritime issues." +:+
    Text.nl +:+
    "        2.  **Extract Actions:** Identify potential diagnostic steps, repair procedures, or safety precautions relevant to the user's query. If steps are found, list them clearly (e.g., using numbered points). **Select the most credible and actionable solution path if multiple options exist.**" +:+
    Text.nl +:+
    "        3.  **Synthesize, Don't List:** Do not just list snippets from the search results. Combine the relevant information into a coherent response." +:+
    Text.nl +:+
    "        4.  **Prioritize Safety:** If the query involves potentially hazardous systems (electrical, hydraulic, fuel, high pressure), emphasize safety precautions mentioned in the results or add standard warnings (e.g., " +:+
    Text.dq +:+
    "Ensure the system is de-energized/depressurized before work," +:+
    Text.dq +:+
    " " +:+
    Text.dq +:+
    "Follow lock-out/tag-out procedures" +:+
    Text.dq +:+
    ")." +:+
    Text.nl +:+
    "        5.  **Acknowledge Source:** Begin your response by clearly stating that the information is based on external web search results (e.g., " +:+
    Text.dq +:+
    "Based on information gathered from web sources related to ship systems..." +:+
    Text.dq +:+
    ")." +:+
    Text.nl +:+
    "        6.  **Advise Caution:** Conclude by advising the user to consult the official ship/equipment manuals or a qualified marine engineer/technician, especially if the problem persists or the task is complex." +:+
    Text.nl +:+
    "        7.  **Be Concise:** Provide the necessary information without unnecessary jargon or lengthy explanations, unless explaining a critical concept." +:+
    Text.nl +:+
    "        --- WEB SEARCH RESULTS ---" +:+
    Text.nl +:+
    "        " +:+
    formatted_results +:+
    Text.nl +:+
    "        --- END WEB SEARCH RESULTS ---" +:+
    Text.nl +:+
    "        Synthesized Answer (following all instructions above) for the ship maintenance query " +:+
    Text.dq +:+
    query +:+
    Text.dq +:+
    ":" +:+
    Text.nl +:+
    "        ".

(** The text read off the model's response. *)
Definition final_answer_of (enhanced_answer_response : llm_response) : string :=
  match enhanced_answer_response with
  | WithContent content => Text.strip content
  | PlainString s => Text.strip s
  | OtherObject (Some s) => Text.strip s
  | OtherObject None => ""
  end.

(** The two [except] clauses that close [perform_web_search_and_synthesis]. *)
Definition web_search_failure (e : exception) : string * string :=
  if is_import_error e then
    ("An internal setup error occurred (ImportError).", "Error")
  else
    let error_msg :=
      if Text.contains "api key" (Text.lower (str_of e))
      then "There seems to be an issue with the API key required for web search or processing."
      else "Sorry, I encountered an error (" +:+ type_name_of e +:+
           ") while trying to search the web or process the results for ship information." in
    (error_msg, "Error").

Definition perform_web_search_and_synthesis (w : World) (query : string)
  : M (string * string) :=
  _ <- call (WebSearchAndSynthesis query) (Return tt) ;;
  match tavily_tool w with
  | None => ret ("Web search is currently disabled.", "Web Search Disabled")
  | Some tavily_invoke =>
      match llm w with
      | None =>
          ret ("Sorry, the AI model is not available to process web search results.",
               "Error")
      | Some llm_ainvoke =>
          try_except
            (search_results <- call (TavilyInvoke query) (tavily_invoke query) ;;
             match search_results with
             | [] =>
                 ret ("I searched the web, but couldn't find any relevant results for your query.",
                      "Web Search No Results")
             | _ :: _ =>
                 let formatted_results :=
                   format_web_results_for_llm search_results
                                              WEB_SEARCH_RESULT_MAX_CHARS in
                 let synthesis_prompt :=
                   synthesis_prompt_of query formatted_results in
                 enhanced_answer_response <-
                   call (LlmAinvoke synthesis_prompt) (llm_ainvoke synthesis_prompt) ;;
                 let final_answer := final_answer_of enhanced_answer_response in
                 if Text.is_empty final_answer then
                   ret ("I processed the web search results, but could not synthesize a specific answer based on them.",
                        "Web Search Synthesis Failed (Empty)")
                 else
                   ret (final_answer, "Web Search Synthesis (Ship Focused)")
             end)
            (fun e => ret (web_search_failure e))
      end
  end.

(** ** [main.py]: [chat_endpoint] *)

(** The values of [response_strategy]. *)
Inductive response_strategy : Type :=
| rag
| solved
| next_step
| rag_troubleshooting_context
| start_troubleshooting.

(** The variables the strategy selection leaves behind.  [problem_name],
    [current_step] and [detected_problem] are bound on some paths only and
    read on those paths only; elsewhere they hold a filler. *)
Record plan : Type := Plan {
  strategy : response_strategy;
  needs_rag_call : bool;
  contextual_prompt : string;
  problem_name : string;
  current_step : Z;
  detected_problem : option string }.

(** The variables of the endpoint that make up the response. *)
Record locals : Type := Locals {
  assistant_response_content : string;
  final_answer_source : string;
  offer_web_search : bool;
  ts_state : TroubleshootingState.t }.

Definition determine_strategy (w : World) (ts_state : TroubleshootingState.t)
           (prompt : string) : plan :=
  if (TroubleshootingState.is_active ts_state
      && truthy_opt (TroubleshootingState.current_problem ts_state))%bool then
    let problem_name := default "" (TroubleshootingState.current_problem ts_state) in
    let current_step := TroubleshootingState.current_step ts_state in
    if is_problem_solved prompt then
      Plan solved false prompt problem_name current_step None
    else if is_problem_not_solved prompt then
      Plan next_step false prompt problem_name current_step None
    else
      let contextual_prompt :=
        "Context: Currently troubleshooting ship problem '" +:+ problem_name +:+ "' " +:+
        "(last suggested step was " +:+ pretty current_step +:+ "). User asks: " +:+ prompt in
      Plan rag_troubleshooting_context true contextual_prompt
           problem_name current_step None
  else if (negb (TroubleshootingState.is_active ts_state)
           && negb (odict.is_empty (problem_dict w)))%bool then
    let detected_problem := detect_problem prompt (problem_dict w) in
    if (truthy_opt detected_problem && is_asking_for_help prompt)%bool then
      Plan start_troubleshooting false prompt "" 0 detected_problem
    else
      Plan rag true prompt "" 0 detected_problem
  else
    Plan rag true prompt "" 0 None.

(** Truthiness of an [Optional[int]]. *)
Definition truthy_num (o : option Z) : bool :=
  match o with Some n => negb (n =? 0) | None => false end.

Definition tool_available (w : World) : bool :=
  match tavily_tool w with Some _ => true | None => false end.

Definition solved_reply (problem_name : string) : locals :=
  Locals ("Excellent! Glad to hear the issue with **'" +:+ problem_name +:+
          "'** is resolved. How else can I help?")
         "Troubleshooting Solved" false TroubleshootingState.default.

Definition next_step_reply (w : World) (ts_state : TroubleshootingState.t)
           (problem_name : string) (current_step : Z) : locals :=
  let '(next_step_num, next_step_text, cause) :=
    get_next_solution_step (problem_dict w) problem_name current_step in
  if (truthy_num next_step_num && truthy_opt next_step_text)%bool then
    let n := default 0 next_step_num in
    Locals ("Okay, let's try the next step for **'" +:+ problem_name +:+ "'**:" +:+
            Text.nl +:+ Text.nl +:+ "**Step " +:+ pretty n +:+ ": " +:+
            default "" next_step_text +:+ "**" +:+ Text.nl +:+ Text.nl +:+
            "Please try this and let me know if it solved the problem.")
           "Troubleshooting Step" false
           (TroubleshootingState.Make
              (TroubleshootingState.is_active ts_state)
              (TroubleshootingState.current_problem ts_state) n)
  else
    let base :=
      "We've tried all the documented steps for **'" +:+ problem_name +:+ "'**." +:+
      Text.nl +:+ Text.nl +:+ "I couldn't resolve it with the internal guide." in
    if tool_available w then
      Locals (base +:+ Text.nl +:+ Text.nl +:+
              "Would you like me to search the web for additional insights?")
             "Troubleshooting End" true TroubleshootingState.default
    else
      Locals base "Troubleshooting End" false TroubleshootingState.default.

Definition start_troubleshooting_reply (w : World) (detected_problem : string)
  : locals :=
  match odict.get (problem_dict w) detected_problem with
  | Some problem_data =>
      if bool_decide (problem_data = ∅) then
        Locals "I recognized the problem, but encountered an internal error retrieving the steps."
               "Error" false TroubleshootingState.default
      else
        let '(first_step_num, first_step_text, cause) :=
          get_next_solution_step (problem_dict w) detected_problem 0 in
        if (truthy_num first_step_num && truthy_opt first_step_text)%bool then
          let n := default 0 first_step_num in
          let cause_text :=
            if (truthy_opt cause
                && negb (String.eqb (default "" cause) "N/A"))%bool
            then "(Possible Cause: *" +:+ default "" cause +:+ "*)"
            else "" in
          Locals ("Okay, let's start troubleshooting for **'" +:+ detected_problem +:+
                  "'**. " +:+ cause_text +:+ Text.nl +:+ Text.nl +:+
                  "**Step " +:+ pretty n +:+ ": " +:+ default "" first_step_text +:+
                  "**" +:+ Text.nl +:+ Text.nl +:+
                  "Please perform this step and tell me if it solved the problem.")
                 "Troubleshooting Start" false
                 (TroubleshootingState.Make true (Some detected_problem) n)
        else
          let base :=
            "I found **'" +:+ detected_problem +:+
            "'** in the guide, but there are no specific solution steps listed." in
          if tool_available w then
            Locals (base +:+ Text.nl +:+ Text.nl +:+
                    "Would you like me to search the web?")
                   "Troubleshooting No Steps" true TroubleshootingState.default
          else
            Locals base "Troubleshooting No Steps" false
                   TroubleshootingState.default
  | None =>
      Locals "I recognized the problem, but encountered an internal error retrieving the steps."
             "Error" false TroubleshootingState.default
  end.

(** [re.search(r"retry_delay {\s*seconds: (\d+)\s*}", str(exc))] and the
    sentence built from its group. *)
Definition delay_msg_of (e : exception) : string :=
  match Re.search_group "retry_delay {\s*seconds: " "\d+" "\s*}" (str_of e) with
  | Some seconds => " Please try again in about " +:+ seconds +:+ " seconds."
  | None => " Please try again later."
  end.

Definition rate_limited_content (e : exception) : string :=
  "The AI service is temporarily busy due to high demand." +:+ delay_msg_of e.

(** Is the exception, or its direct cause, a quota exhaustion? *)
Definition is_rate_limit_error (rag_exc : exception) : bool :=
  if is_resource_exhausted rag_exc then true
  else match cause_of rag_exc with
       | Some c => is_resource_exhausted c
       | None => false
       end.

(** The two [except] clauses around the RAG call.  They set
    [rate_limit_hit_during_rag] on every path, so the result is the
    content and the source label of the turn. *)
Definition rag_failure (rag_exc : exception) : string * string :=
  if is_resource_exhausted rag_exc then
    (rate_limited_content rag_exc, "Error (Rate Limited)")
  else
    match cause_of rag_exc with
    | Some c =>
        if is_resource_exhausted c then
          (rate_limited_content c, "Error (Rate Limited)")
        else
          ("Sorry, an error occurred while retrieving information from the knowledge base ("
             +:+ type_name_of rag_exc +:+ ").", "Error (RAG Failure)")
    | None =>
        ("Sorry, an error occurred while retrieving information from the knowledge base ("
           +:+ type_name_of rag_exc +:+ ").", "Error (RAG Failure)")
    end.

(** What the endpoint makes of the pair the fallback returned. *)
Definition fallback_reply (rag_answer web_search_answer web_search_source : string)
  : string * string :=
  if (String.eqb web_search_source "Web Search Synthesis (Ship Focused)"
      && Text.truthy web_search_answer)%bool then
    (web_search_answer, web_search_source)
  else if String.eqb web_search_source "Web Search No Results" then
    (if Text.truthy rag_answer
     then rag_answer +:+ Text.nl +:+ Text.nl +:+ web_search_answer
     else web_search_answer,
     web_search_source)
  else if (String.eqb web_search_source "Error"
           || String.eqb web_search_source "Error (Rate Limited)")%bool then
    if Text.truthy rag_answer
    then (rag_answer +:+ Text.nl +:+ Text.nl +:+ "_(" +:+ web_search_answer +:+ ")_",
          "Internal Knowledge (Limited)")
    else ("I couldn't find information internally. " +:+ web_search_answer, "Error")
  else
    (if Text.truthy rag_answer
     then rag_answer +:+ Text.nl +:+ Text.nl +:+
          "_(Internal knowledge was limited. Web search fallback did not produce a usable result [State: "
          +:+ web_search_source +:+ "])_"
     else "I couldn't find information internally, and the web search fallback did not produce a usable result [State: "
          +:+ web_search_source +:+ "].",
     "Internal Knowledge (Limited)").

Definition fallback_call_failed (rag_answer : string) (web_exc : exception)
  : string * string :=
  let error_msg :=
    "An error occurred while initiating the web search (" +:+
    type_name_of web_exc +:+ ")." in
  if Text.truthy rag_answer
  then (rag_answer +:+ Text.nl +:+ Text.nl +:+ "_(" +:+ error_msg +:+ ")_",
        "Internal Knowledge (Limited)")
  else ("I couldn't find information internally. " +:+ error_msg, "Error").

(** The RAG branch writes the content and the source label only. *)
Definition with_reply (init : locals) (r : string * string) : locals :=
  Locals (fst r) (snd r) (offer_web_search init) (ts_state init).

(** The branch [elif needs_rag_call]. *)
Definition rag_call_and_fallback (w : World) (prompt contextual_prompt : string)
           (history : list Message) (init : locals) : M locals :=
  attempt <-
    try_except
      (rag_response <- invoke_rag_chain w contextual_prompt history ;;
       ret (inl (Text.strip (get_or rag_response "answer" ""))))
      (fun rag_exc => ret (inr rag_exc)) ;;
  match attempt with
  | inr rag_exc => ret (with_reply init (rag_failure rag_exc))
  | inl rag_answer =>
      if (Text.truthy rag_answer && is_rag_answer_sufficient rag_answer)%bool then
        ret (with_reply init (rag_answer, "Internal Knowledge (RAG)"))
      else if tool_available w then
        try_except
          (r <- perform_web_search_and_synthesis w prompt ;;
           ret (with_reply init (fallback_reply rag_answer (fst r) (snd r))))
          (fun web_exc => ret (with_reply init (fallback_call_failed rag_answer web_exc)))
      else
        ret (with_reply init
               (if Text.truthy rag_answer
                then rag_answer +:+ Text.nl +:+ Text.nl +:+
                     "_(Internal knowledge was limited, and web search is currently unavailable.)_"
                else "I couldn't find specific information in the internal guide, and web search is currently unavailable.",
                "Internal Knowledge (Limited)"))
  end.

(** The body of the outer [try]. *)
Definition main_logic (w : World) (chat_request : ChatRequest.t) (init : locals)
  : M locals :=
  let prompt := ChatRequest.prompt chat_request in
  let history := ChatRequest.history chat_request in
  if ChatRequest.force_web_search chat_request then
    r <- match tavily_tool w with
         | None =>
             ret ("Web search was requested, but it is currently disabled (missing API key or initialization error).",
                  "Web Search Disabled")
         | Some _ => perform_web_search_and_synthesis w prompt
         end ;;
    ret (Locals (fst r) (snd r) (offer_web_search init) TroubleshootingState.default)
  else
    let p := determine_strategy w (ts_state init) prompt in
    match strategy p with
    | solved => ret (solved_reply (problem_name p))
    | next_step =>
        ret (next_step_reply w (ts_state init) (problem_name p) (current_step p))
    | start_troubleshooting =>
        ret (start_troubleshooting_reply w (default "" (detected_problem p)))
    | _ =>
        if needs_rag_call p then
          rag_call_and_fallback w prompt (contextual_prompt p) history init
        else
          if (Text.is_empty (assistant_response_content init)
              || String.eqb (final_answer_source init) "Error")%bool then
            ret (Locals
                   (if Text.truthy (assistant_response_content init)
                    then assistant_response_content init
                    else "I was unable to determine the next step or find information for your request.")
                   (if Text.truthy (final_answer_source init)
                    then final_answer_source init else "Error")
                   (offer_web_search init) (ts_state init))
          else ret init
    end.

(** The values the endpoint gives its variables before the [try]. *)
Definition initial_locals (chat_request : ChatRequest.t) : locals :=
  Locals "Sorry, something went wrong processing your request." "Error" false
         (ChatRequest.troubleshooting_state chat_request).

(** The handler of the outer [try]. *)
Definition server_error (e : exception) : locals :=
  Locals ("An unexpected server error occurred: " +:+ type_name_of e)
         "Server Error" false TroubleshootingState.default.

(** [if not assistant_response_content: ...] *)
Definition ensure_content (l : locals) : locals :=
  if Text.is_empty (assistant_response_content l)
  then Locals "Sorry, I encountered an issue and couldn't generate a response."
              "Error" (offer_web_search l) (ts_state l)
  else l.

(** The final response assembly. *)
Definition assemble (chat_request : ChatRequest.t) (l : locals) : ChatResponse.t :=
  let updated_history :=
    ChatRequest.history chat_request ++
      [ {| role := "user"; content := ChatRequest.prompt chat_request |} ] in
  {| ChatResponse.answer := assistant_response_content l;
     ChatResponse.history :=
       updated_history ++
         [ {| role := "assistant"; content := assistant_response_content l |} ];
     ChatResponse.troubleshooting_state := ts_state l;
     ChatResponse.offer_web_search := offer_web_search l;
     ChatResponse.final_answer_source := final_answer_source l |}.

Definition chat_endpoint (w : World) (chat_request : ChatRequest.t)
  : M ChatResponse.t :=
  l <- try_except (main_logic w chat_request (initial_locals chat_request))
         (fun e => ret (server_error e)) ;;
  ret (assemble chat_request (ensure_content l)).

(** One turn, from an empty trace: the response (or the exception that
    escaped) and the calls that were made. *)
Definition turn (w : World) (chat_request : ChatRequest.t)
  : outcome ChatResponse.t * list event :=
  chat_endpoint w chat_request [].

(** ** [rag_core.py]: the documents of the vector store *)

(** A value of a document's metadata: a string, or the row number. *)
Inductive meta_value : Type :=
| MStr (s : string)
| MInt (n : Z).

Record Document : Type := {
  page_content : string;
  metadata : gmap string meta_value }.

(** The state of the loop over [solution_cols]: the metadata, the content
    parts and [valid_steps_found]. *)
Definition document_steps (row : gmap string string)
           (st : gmap string meta_value * list string * bool)
  : gmap string meta_value * list string * bool :=
  foldl (fun (acc : gmap string meta_value * list string * bool) (i : Z) =>
           let '(metadata, content_parts, valid_steps_found) := acc in
           let step_content := cell row (step_key i) in
           (<[step_key i := MStr step_content]> metadata,
            if Text.truthy step_content
            then content_parts ++
                   ["Solution Step " +:+ pretty i +:+ ": " +:+ step_content]
            else content_parts,
            (valid_steps_found || Text.truthy step_content)%bool))
        st (seqZ 1 MAX_SOLUTION_STEPS).

(** One iteration of [for index, row in df.iterrows()]: the document of
    the row, or [None] when the row is skipped. *)
Definition document_of_row (csv_file_name : string) (index : Z)
           (row : gmap string string) : option Document :=
  let problem := cell row "problem" in
  let cause := cell row "possible_cause" in
  let step1 := cell row "solution_step_1" in
  if (negb (Text.truthy problem) || negb (Text.truthy step1))%bool then None
  else
    let metadata : gmap string meta_value :=
      <["problem" := MStr problem]>
        (<["row" := MInt (index + 2)]> {[ "source" := MStr csv_file_name ]}) in
    let content_parts := ["Problem: " +:+ problem] in
    let '(metadata, content_parts) :=
      if Text.truthy cause
      then (<["possible_cause" := MStr cause]> metadata,
            content_parts ++ ["Possible Cause: " +:+ cause])
      else (metadata, content_parts) in
    let '(metadata, content_parts, valid_steps_found) :=
      document_steps row (metadata, content_parts, false) in
    if negb valid_steps_found then None
    else Some {| page_content := join Text.nl content_parts;
                 metadata := metadata |}.

(** The loop over the rows, [index] being the index of the first one. *)
Fixpoint documents_from (csv_file_name : string) (index : Z)
         (rows : list (gmap string string)) : list Document :=
  match rows with
  | [] => []
  | row :: more =>
      match document_of_row csv_file_name index row with
      | Some doc => doc :: documents_from csv_file_name (index + 1) more
      | None => documents_from csv_file_name (index + 1) more
      end
  end.

Definition load_documents_from_csv (csv_file_name : string) (src : csv_source)
  : list Document :=
  match src with
  | CsvMissing => []
  | CsvUnreadable => []
  | CsvTable columns rows =>
      let missing_cols :=
        List.filter (fun col => negb (bool_decide (col ∈ columns)))
                    ["problem"; "solution_step_1"] in
      match missing_cols with
      | _ :: _ => []
      | [] => documents_from csv_file_name 0 rows
      end
  end.

(** [doc.metadata.get('problem', '').lower()]; [None] stands for the
    [AttributeError] raised when the value is not a string. *)
Definition doc_problem_of (doc : Document) : option string :=
  match metadata doc !! "problem" with
  | Some (MStr s) => Some (Text.lower s)
  | Some (MInt _) => None
  | None => Some ""
  end.

(** The loop of [check_rag_relevance]; the state is
    [relevant_docs_count]. *)
Fixpoint count_relevant (query_lower : string) (query_keywords : gset string)
         (source_documents : list Document) (relevant_docs_count : Z)
  : option Z :=
  match source_documents with
  | [] => Some relevant_docs_count
  | doc :: more =>
      let doc_text_lower := Text.lower (page_content doc) in
      let doc_keywords := keywords doc_text_lower in
      let overlap := Z.of_nat (size (query_keywords ∩ doc_keywords)) in
      if overlap >=? 2 then
        count_relevant query_lower query_keywords more (relevant_docs_count + 1)
      else
        match doc_problem_of doc with
        | None => None
        | Some doc_problem =>
            if (Text.truthy doc_problem
                && Text.contains doc_problem query_lower)%bool
            then count_relevant query_lower query_keywords more
                                (relevant_docs_count + 1)
            else count_relevant query_lower query_keywords more
                                relevant_docs_count
        end
  end.

(** [check_rag_relevance]; [None] when a metadata lookup raises. *)
Definition check_rag_relevance (source_documents : list Document)
           (query : string) : option bool :=
  match source_documents with
  | [] => Some false
  | _ :: _ =>
      let query_lower := Text.lower query in
      let query_keywords := keywords query_lower in
      if bool_decide (query_keywords = ∅) then Some true
      else
        match count_relevant query_lower query_keywords source_documents 0 with
        | Some relevant_docs_count => Some (relevant_docs_count >? 0)
        | None => None
        end
  end.

(** ** [main.py]: the handles of the application and its other routes *)

(** Which module-level handles of [rag_core] are set, and the problem
    dictionary.  What the handles point to plays no part in the routes
    below. *)
Record Handles : Type := {
  vectorstore_set : bool;
  llm_set : bool;
  rag_chain_set : bool;
  tavily_tool_set : bool;
  kb_problem_dict : catalog }.

(** The two keys read from the environment by [config.py]. *)
Record Config : Type := {
  GOOGLE_API_KEY : option string;
  TAVILY_API_KEY : option string }.

Inductive http (A : Type) : Type :=
| Ok200 (a : A)
| HTTPException (status_code : Z) (detail : string).
Arguments Ok200 {A} a.
Arguments HTTPException {A} status_code detail.

Record StatusResponse : Type := {
  status : string;
  kb_loaded : bool;
  web_search_enabled : bool;
  status_message : option string }.

Record SimpleResponse : Type := { success : bool; message : string }.

(** The dependency of the chat route. *)
Definition get_ready_state (h : Handles) : http bool :=
  if (negb (rag_chain_set h) || negb (llm_set h))%bool then
    HTTPException 503
      "AI Assistant is not ready. Knowledge Base might not be loaded or initialized correctly."
  else Ok200 true.

Definition get_status (cfg : Config) (h : Handles) : StatusResponse :=
  let kb_loaded := (vectorstore_set h && rag_chain_set h)%bool in
  let web_search_ok := tavily_tool_set h in
  let status_msg := if kb_loaded then "Ready" else "Initializing or Error" in
  let '(status_msg, kb_loaded) :=
    if negb (truthy_opt (GOOGLE_API_KEY cfg))
    then ("Error: GOOGLE_API_KEY missing", false)
    else if negb kb_loaded
         then ("Knowledge Base not loaded. Use /load_kb endpoint.", kb_loaded)
         else (status_msg, kb_loaded) in
  {| status := status_msg;
     kb_loaded := kb_loaded;
     web_search_enabled := web_search_ok;
     status_message :=
       if (truthy_opt (TAVILY_API_KEY cfg) && negb web_search_ok)%bool
       then Some "Tavily API Key missing or invalid."
       else None |}.

(** What [shutil.rmtree] does to the directory: it removes it, or raises
    one of the three classes the function tells apart; [str(e)] comes
    with the exception. *)
Inductive rmtree_outcome : Type :=
| Removed
| RaisedPermissionError (msg : string)
| RaisedOSError (msg : string)
| RaisedOther (msg : string).

(** The directory of the vector store: whether it exists, and what a
    removal would do. *)
Record Disk : Type := {
  dir_exists : bool;
  rmtree : rmtree_outcome }.

(** [delete_vectorstore_directory]: the pair it returns and the disk it
    leaves.  A directory that was removed no longer exists. *)
Definition delete_vectorstore_directory (persist_directory : string)
           (disk : Disk) : bool * string * Disk :=
  if Text.is_empty persist_directory then
    (false, "Internal configuration error: Invalid directory path provided.", disk)
  else if dir_exists disk then
    match rmtree disk with
    | Removed =>
        (true, "Knowledge base directory '" +:+ persist_directory +:+
               "' deleted successfully.",
         {| dir_exists := false; rmtree := rmtree disk |})
    | RaisedPermissionError pe =>
        (false, "Permission denied when trying to delete knowledge base: " +:+ pe,
         disk)
    | RaisedOSError oe =>
        (false, "OS error deleting knowledge base (perhaps directory is in use or path invalid?): "
                +:+ oe, disk)
    | RaisedOther e =>
        (false, "Unexpected error during knowledge base deletion: " +:+ e, disk)
    end
  else
    (false, "Knowledge base directory '" +:+ persist_directory +:+ "' not found.",
     disk).

(** The handles after the reset that follows a deletion. *)
Definition reset_handles (h : Handles) : Handles :=
  {| vectorstore_set := false;
     llm_set := false;
     rag_chain_set := false;
     tavily_tool_set := tavily_tool_set h;
     kb_problem_dict := [] |}.

(** [delete_knowledge_base_endpoint]: the answer of the route, the handles
    and the disk afterwards.  The assignments of the reset cannot fail, so
    the handler around them is left out. *)
Definition delete_knowledge_base_endpoint (vectorstore_dir : string)
           (h : Handles) (disk : Disk) : http SimpleResponse * Handles * Disk :=
  let '(success, message, disk') :=
    delete_vectorstore_directory vectorstore_dir disk in
  if success then
    (Ok200 {| success := true; message := message |}, reset_handles h, disk')
  else if Text.contains "not found" (Text.lower message) then
    (HTTPException 404 message, h, disk')
  else
    (HTTPException 500 ("Failed to delete knowledge base: " +:+ message), h, disk').

(** What the three steps of a load hand back: whether the vector store
    could be created or loaded from the documents, and whether the model
    and the chain could be set up. *)
Record LoadEnv : Type := {
  create_or_load_vectorstore : list Document -> bool;
  setup_llm : bool;
  setup_rag_chain : bool }.

(** [load_knowledge_base_logic]: the pair it returns and the handles it
    leaves.  [elapsed] is the text of the elapsed time. *)
Definition load_knowledge_base_logic (cfg : Config) (env : LoadEnv)
           (csv_file_name : string) (src : csv_source) (elapsed : string)
           (h : Handles) : bool * string * Handles :=
  if negb (truthy_opt (GOOGLE_API_KEY cfg)) then
    (false, "Cannot load Knowledge Base: GOOGLE_API_KEY is missing.", h)
  else
    let docs := load_documents_from_csv csv_file_name src in
    let vs := create_or_load_vectorstore env docs in
    if negb vs then
      (false, "Failed to create or load the vector store.",
       {| vectorstore_set := false; llm_set := false; rag_chain_set := false;
          tavily_tool_set := tavily_tool_set h; kb_problem_dict := [] |})
    else if (negb (setup_llm env) || negb (setup_rag_chain env))%bool then
      (false, "Failed to set up the LLM or RAG chain after loading vector store.",
       {| vectorstore_set := true; llm_set := setup_llm env;
          rag_chain_set := setup_rag_chain env;
          tavily_tool_set := tavily_tool_set h; kb_problem_dict := [] |})
    else
      (true, "Knowledge Base loaded successfully in " +:+ elapsed +:+ " seconds.",
       {| vectorstore_set := true; llm_set := true; rag_chain_set := true;
          tavily_tool_set := tavily_tool_set h;
          kb_problem_dict := load_problem_data_dict src |}).

(** [load_knowledge_base_endpoint] *)
Definition load_knowledge_base_endpoint (cfg : Config) (env : LoadEnv)
           (csv_file_name : string) (src : csv_source) (elapsed : string)
           (h : Handles) : http SimpleResponse * Handles :=
  let '(ok, msg, h') :=
    load_knowledge_base_logic cfg env csv_file_name src elapsed h in
  if ok then (Ok200 {| success := true; message := msg |}, h')
  else (HTTPException 500 msg, h').

(** * Vocabulary of the statements *)

(** A list that does not begin with white space. *)
Definition clean_front (l : list ascii) : Prop :=
  match l with
  | c :: _ => Text.is_space c = false
  | [] => True
  end.

(** The text the catalog stores for step [i] of a record. *)
Definition stored_step (e : gmap string string) (i : Z) : string :=
  get_or e (step_key i) "".

(** What the loader guarantees of every record it keeps: it has a key,
    its texts are stripped, and its step keys lie within [1..N]. *)
Definition entry_ok (e : gmap string string) : Prop :=
  e <> ∅ /\
  (forall k v, e !! k = Some v -> Text.strip v = v) /\
  (forall i, ~ (1 <= i <= MAX_SOLUTION_STEPS) -> e !! step_key i = None).

Definition catalog_ok (d : catalog) : Prop :=
  forall k e, (k, e) ∈ d -> k <> "" /\ entry_ok e.

(** A catalog read from a table of two problems; the second has no first
    step. *)
Definition demo_source : csv_source :=
  CsvTable ["problem"; "possible_cause"; "solution_step_1"; "solution_step_2"]
    [ {[ "problem" := "pump overheating"; "possible_cause" := "";
         "solution_step_1" := "Check coolant level";
         "solution_step_2" := "Inspect impeller" ]};
      {[ "problem" := "bilge alarm"; "possible_cause" := "Stuck float switch";
         "solution_step_1" := "";
         "solution_step_2" := "Free the float switch" ]} ].

Definition demo_pump_entry : gmap string string :=
  {[ "possible_cause" := "";
     "solution_step_1" := "Check coolant level";
     "solution_step_2" := "Inspect impeller";
     "solution_step_3" := "" ]}.

Definition demo_bilge_entry : gmap string string :=
  {[ "possible_cause" := "Stuck float switch";
     "solution_step_1" := "";
     "solution_step_2" := "Free the float switch";
     "solution_step_3" := "" ]}.

(** The pieces [format_web_results_for_llm] builds for the result at
    position [i]: the whole entry and the title-only form. *)
Definition entry_of (i : Z) (res : gmap string string) : string :=
  header_of i (get_or res "url" "N/A") (get_or res "title" "N/A")
  +:+ Text.strip (get_or res "content" "").

Definition short_of (i : Z) (res : gmap string string) : string :=
  short_entry_of i (get_or res "url" "N/A") (get_or res "title" "N/A").

Definition first_header (res : gmap string string) : string :=
  header_of 0 (get_or res "url" "N/A") (get_or res "title" "N/A").

(** The first entry with its content cut to the room the header leaves. *)
Definition truncated_of (max_chars : Z) (res : gmap string string) : string :=
  let available_chars := max_chars - Text.len (first_header res) in
  first_header res +:+
  (if available_chars >? 3
   then Text.take_prefix available_chars (Text.strip (get_or res "content" ""))
        +:+ "..."
   else "").

Fixpoint entries_from (i : Z) (results : list (gmap string string))
  : list string :=
  match results with
  | [] => []
  | res :: more => entry_of i res :: entries_from (i + 1) more
  end.

(** What joining [l] after a non-empty list adds to the length. *)
Fixpoint added (l : list string) : Z :=
  match l with
  | [] => 0
  | x :: t => Text.len separator + Text.len x + added t
  end.

(** The budget: the output fits [max_chars], or it is the first entry,
    too long on its own, in its truncated form. *)
Definition budget_respected (search_results : list (gmap string string))
           (max_chars : Z) : Prop :=
  let out := format_web_results_for_llm search_results max_chars in
  Text.len out <= max_chars \/
  exists res more,
    search_results = res :: more /\
    max_chars < Text.len (entry_of 0 res) /\
    out = truncated_of max_chars res.

(** The invariant of a troubleshooting state: a problem is set exactly
    when the state is active. *)
Definition ts_invariant (ts : TroubleshootingState.t) : Prop :=
  is_Some (TroubleshootingState.current_problem ts) <->
  TroubleshootingState.is_active ts = true.

(** An active state whose problem is a key of the catalog. *)
Definition active_on_catalog (w : World) (ts : TroubleshootingState.t) : Prop :=
  TroubleshootingState.is_active ts = true /\
  exists p, TroubleshootingState.current_problem ts = Some p /\
            p ∈ odict.keys (problem_dict w).

(** What a turn may do to the state: reset it, leave it as it came, or
    hand back an active state on a catalog key. *)
Definition ts_transition (w : World) (ts ts' : TroubleshootingState.t) : Prop :=
  ts' = TroubleshootingState.default \/ ts' = ts \/ active_on_catalog w ts'.

(** The calls that belong to the web-search path. *)
Definition is_web_event (ev : event) : bool :=
  match ev with
  | WebSearchAndSynthesis _ | TavilyInvoke _ | LlmAinvoke _ => true
  | RagAinvoke _ | RagInvoke _ => false
  end.

(** The turn is a RAG turn: not forced to the web, and the strategy calls
    the retrieval chain. *)
Definition rag_turn (w : World) (chat_request : ChatRequest.t) : Prop :=
  ChatRequest.force_web_search chat_request = false /\
  needs_rag_call
    (determine_strategy w (ChatRequest.troubleshooting_state chat_request)
                        (ChatRequest.prompt chat_request)) = true.

(** What the retrieval collaborator does on this turn. *)
Definition retrieval_outcome (w : World) (chat_request : ChatRequest.t)
  : outcome (gmap string string) :=
  fst (invoke_rag_chain w
         (contextual_prompt
            (determine_strategy w (ChatRequest.troubleshooting_state chat_request)
                                (ChatRequest.prompt chat_request)))
         (ChatRequest.history chat_request) []).

Definition quota_exhausted : exception :=
  Exc ResourceExhausted "ResourceExhausted"
      "429 Quota exceeded. retry_delay { seconds: 17 }" None.

(** A world for the examples: the catalog of [demo_source], no search
    tool, and a retrieval chain that fails on a quota error wrapped by the
    chain library. *)
Definition demo_world : World :=
  {| problem_dict := load_problem_data_dict demo_source;
     tavily_tool := None;
     llm := Some (fun _ => Return (PlainString ""));
     chain_has_ainvoke := true;
     chain_ainvoke := fun _ _ =>
       Raised (Exc OtherError "RuntimeError" "chain failed" (Some quota_exhausted));
     chain_invoke := fun _ _ =>
       Raised (Exc OtherError "RuntimeError" "chain failed" (Some quota_exhausted)) |}.

Definition demo_request (prompt : string) (ts : TroubleshootingState.t)
           (force : bool) : ChatRequest.t :=
  {| ChatRequest.prompt := prompt;
     ChatRequest.history := [];
     ChatRequest.troubleshooting_state := ts;
     ChatRequest.force_web_search := force |}.

Definition demo_result (title url content : string) : gmap string string :=
  {[ "title" := title; "url" := url; "content" := content ]}.

(** The labels a turn can end on. *)
Definition source_labels : list string :=
  [ "Web Search Disabled"; "Error"; "Web Search No Results";
    "Web Search Synthesis Failed (Empty)"; "Web Search Synthesis (Ship Focused)";
    "Troubleshooting Solved"; "Troubleshooting Step"; "Troubleshooting End";
    "Troubleshooting Start"; "Troubleshooting No Steps";
    "Error (Rate Limited)"; "Error (RAG Failure)";
    "Internal Knowledge (RAG)"; "Internal Knowledge (Limited)";
    "Server Error" ].

(** The labels [perform_web_search_and_synthesis] can return. *)
Definition web_labels : list string :=
  [ "Web Search Disabled"; "Error"; "Web Search No Results";
    "Web Search Synthesis Failed (Empty)"; "Web Search Synthesis (Ship Focused)" ].

(** [s] begins with [prefix]. *)
Definition begins_with (prefix s : string) : Prop :=
  exists more, s = prefix +:+ more.

(** The strategies that are answered from the catalog alone. *)
Definition guided (s : response_strategy) : bool :=
  match s with
  | solved | next_step | start_troubleshooting => true
  | rag | rag_troubleshooting_context => false
  end.

(** The strategy chosen for a request. *)
Definition plan_of (w : World) (req : ChatRequest.t) : plan :=
  determine_strategy w (ChatRequest.troubleshooting_state req)
                     (ChatRequest.prompt req).

(** The stripped answer read off a retrieval response. *)
Definition rag_answer_of (rag_response : gmap string string) : string :=
  Text.strip (get_or rag_response "answer" "").

(** A record has a step to offer. *)
Definition has_step (e : gmap string string) : Prop :=
  exists i, 1 <= i <= MAX_SOLUTION_STEPS /\ stored_step e i <> "".

(** The record the loader builds from a row. *)
Definition record_of_row (row : gmap string string) : gmap string string :=
  fst (fill_steps row {[ "possible_cause" := cell row "possible_cause" ]}).

(** The row is kept by the loader of the problem dictionary: it names a
    problem and one of its steps is not empty. *)
Definition row_kept (row : gmap string string) : bool :=
  (Text.truthy (cell row "problem")
   && existsb (fun i => Text.truthy (cell row (step_key i)))
              (seqZ 1 MAX_SOLUTION_STEPS))%bool.

(** The last row of the table that is kept under the name [k]. *)
Fixpoint last_row_for (k : string) (rows : list (gmap string string))
  : option (gmap string string) :=
  match rows with
  | [] => None
  | row :: more =>
      match last_row_for k more with
      | Some later => Some later
      | None =>
          if (row_kept row && String.eqb (cell row "problem") k)%bool
          then Some row else None
      end
  end.

(** The table has the two columns the loaders require. *)
Definition required_columns (columns : list string) : bool :=
  forallb (fun col => bool_decide (col ∈ columns))
          ["problem"; "solution_step_1"].

(** The keys of a record of the problem dictionary. *)
Definition record_keys : list string :=
  "possible_cause" :: (step_key <$> seqZ 1 MAX_SOLUTION_STEPS).

(** The text [detect_problem] compares the keys with. *)
Definition normalised (text : string) : string := Text.strip (Text.lower text).

(** The key occurs in the text, up to its case. *)
Definition contained_in (t k : string) : bool :=
  Text.contains (Text.lower k) t.

(** The number of keywords the key shares with the text. *)
Definition shared_keywords (t k : string) : Z :=
  Z.of_nat (size (keywords t ∩ keywords (Text.lower k))).

(** [k] is the first of the keys [ks] with the highest [score] among
    those that are [good]. *)
Definition first_best (good : string -> bool) (score : string -> Z)
           (ks : list string) (k : string) : Prop :=
  exists before after,
    ks = before ++ k :: after /\
    good k = true /\
    (forall x, x ∈ before -> good x = true -> score x < score k) /\
    (forall x, x ∈ after -> good x = true -> score x <= score k).

(** The row qualifies for the vector store: it names a problem and its
    first step is not empty. *)
Definition row_documented (row : gmap string string) : bool :=
  (Text.truthy (cell row "problem")
   && Text.truthy (cell row "solution_step_1"))%bool.

(** The positions (from [index] on) of the rows that are documented. *)
Fixpoint documented_rows (index : Z) (rows : list (gmap string string))
  : list Z :=
  match rows with
  | [] => []
  | row :: more =>
      if row_documented row
      then index + 2 :: documented_rows (index + 1) more
      else documented_rows (index + 1) more
  end.

(** A document speaks to the query: two shared keywords, or its problem
    named in the query. *)
Definition doc_relevant (query : string) (doc : Document) : Prop :=
  2 <= Z.of_nat (size (keywords (Text.lower query)
                        ∩ keywords (Text.lower (page_content doc)))) \/
  exists problem,
    metadata doc !! "problem" = Some (MStr problem) /\
    problem <> "" /\
    Text.contains (Text.lower problem) (Text.lower query) = true.

(** The metadata of the document names its problem as a string, or not
    at all. *)
Definition problem_is_text (doc : Document) : Prop :=
  forall n, metadata doc !! "problem" <> Some (MInt n).

(** The handles as the module leaves them on import. *)
Definition initial_handles : Handles :=
  {| vectorstore_set := false; llm_set := false; rag_chain_set := false;
     tavily_tool_set := false; kb_problem_dict := [] |}.

(** The model and the chain are set together, and never without the
    vector store. *)
Definition handles_consistent (h : Handles) : Prop :=
  llm_set h = rag_chain_set h /\
  (rag_chain_set h = true -> vectorstore_set h = true).

(** [str(e)] of the exception a removal raised. *)
Definition failure_message (o : rmtree_outcome) : option string :=
  match o with
  | Removed => None
  | RaisedPermissionError msg | RaisedOSError msg | RaisedOther msg => Some msg
  end.

(** The [row] entries of the metadata of the documents. *)
Definition row_numbers (docs : list Document) : list (option meta_value) :=
  (fun doc => metadata doc !! "row") <$> docs.

(** A document about one problem of the demonstration table. *)
Definition demo_document : Document :=
  {| page_content := "Problem: pump overheating";
     metadata := {[ "problem" := MStr "pump overheating" ]} |}.

Definition demo_handles : Handles :=
  {| vectorstore_set := true; llm_set := true; rag_chain_set := true;
     tavily_tool_set := false;
     kb_problem_dict := load_problem_data_dict demo_source |}.

Definition demo_config : Config :=
  {| GOOGLE_API_KEY := Some "key"; TAVILY_API_KEY := None |}.

Definition demo_disk : Disk := {| dir_exists := true; rmtree := Removed |}.

Definition demo_load_env : LoadEnv :=
  {| create_or_load_vectorstore := fun docs => negb (bool_decide (docs = []));
     setup_llm := true;
     setup_rag_chain := true |}.

(** A world whose retrieval answers vaguely and whose search tool and
    model work. *)
Definition demo_web_world : World :=
  {| problem_dict := load_problem_data_dict demo_source;
     tavily_tool :=
       Some (fun _ => Return [demo_result "Bilge pumps" "https://example.org/bilge"
                                           "Check the strainer first."]);
     llm := Some (fun _ => Return (WithContent " Clean the strainer. "));
     chain_has_ainvoke := true;
     chain_ainvoke := fun _ _ =>
       Return {[ "answer" := "It might be the strainer." ]};
     chain_invoke := fun _ _ => Return ∅ |}.

(** A world whose retrieval answers well. *)
Definition demo_rag_world : World :=
  {| problem_dict := load_problem_data_dict demo_source;
     tavily_tool := None;
     llm := None;
     chain_has_ainvoke := false;
     chain_ainvoke := fun _ _ => Return ∅;
     chain_invoke := fun _ _ =>
       Return {[ "answer" := " Open the sea cock and prime the pump. " ]} |}.

(** The reply of the strategies that are answered from the catalog. *)
Definition guided_reply (w : World) (req : ChatRequest.t) : locals :=
  let p := plan_of w req in
  match strategy p with
  | solved => solved_reply (problem_name p)
  | next_step =>
      next_step_reply w (ChatRequest.troubleshooting_state req)
                      (problem_name p) (current_step p)
  | _ => start_troubleshooting_reply w (default "" (detected_problem p))
  end.

(** * Properties *)

(** ** Text primitives *)

Section TextFacts.
Import Text.

Lemma chars_text l : chars (text l) = l.
Proof. apply list_ascii_of_string_of_list_ascii. Qed.

Lemma text_chars s : text (chars s) = s.
Proof. apply string_of_list_ascii_of_string. Qed.

Lemma lower_char_idem c : lower_char (lower_char c) = lower_char c.
Proof. destruct c as [[] [] [] [] [] [] [] []]; reflexivity. Qed.

Lemma is_space_lower_char c : is_space (lower_char c) = is_space c.
Proof. destruct c as [[] [] [] [] [] [] [] []]; reflexivity. Qed.

Lemma lstrip_chars_idem l : lstrip_chars (lstrip_chars l) = lstrip_chars l.
Proof.
  induction l as [|c t IH]; simpl; [reflexivity|].
  destruct (is_space c) eqn:E; [exact IH|].
  simpl. now rewrite E.
Qed.

Lemma lstrip_chars_map_lower l :
  lstrip_chars (map lower_char l) = map lower_char (lstrip_chars l).
Proof.
  induction l as [|c t IH]; simpl; [reflexivity|].
  rewrite is_space_lower_char. now destruct (is_space c).
Qed.

Lemma lstrip_chars_clean l : clean_front (lstrip_chars l).
Proof.
  induction l as [|c t IH]; simpl; [exact I|].
  destruct (is_space c) eqn:E; [exact IH | exact E].
Qed.

Lemma lstrip_chars_of_clean l : clean_front l -> lstrip_chars l = l.
Proof. destruct l as [|c t]; simpl; [reflexivity|]. now intros ->. Qed.

Lemma lstrip_chars_snoc l c :
  is_space c = false -> lstrip_chars (l ++ [c]) = lstrip_chars l ++ [c].
Proof.
  intros Hc. induction l as [|x t IH]; simpl.
  - now rewrite Hc.
  - now destruct (is_space x).
Qed.

Lemma rstrip_keeps_clean l :
  clean_front l -> clean_front (rev (lstrip_chars (rev l))).
Proof.
  destruct l as [|c t]; simpl; [intros _; exact I|].
  intros Hc. rewrite lstrip_chars_snoc by exact Hc.
  rewrite rev_app_distr. simpl. exact Hc.
Qed.

Lemma strip_chars_idem l : strip_chars (strip_chars l) = strip_chars l.
Proof.
  unfold strip_chars.
  rewrite (lstrip_chars_of_clean (rev (lstrip_chars (rev (lstrip_chars l))))).
  - now rewrite rev_involutive, lstrip_chars_idem.
  - apply rstrip_keeps_clean, lstrip_chars_clean.
Qed.

Lemma strip_chars_map_lower l :
  strip_chars (map lower_char l) = map lower_char (strip_chars l).
Proof.
  unfold strip_chars.
  now rewrite lstrip_chars_map_lower, <- map_rev, lstrip_chars_map_lower,
    map_rev.
Qed.

Lemma strip_idem s : strip (strip s) = strip s.
Proof. unfold strip. now rewrite chars_text, strip_chars_idem. Qed.

Lemma lower_idem s : lower (lower s) = lower s.
Proof.
  unfold lower. rewrite chars_text, map_map. f_equal.
  apply map_ext. intros c. apply lower_char_idem.
Qed.

Lemma strip_lower_comm s : strip (lower s) = lower (strip s).
Proof.
  unfold strip, lower. now rewrite !chars_text, strip_chars_map_lower.
Qed.

(** The normal form the classifiers work on is stable. *)
Lemma normalise_idem s :
  strip (lower (strip (lower s))) = strip (lower s).
Proof.
  rewrite (strip_lower_comm (strip (lower s))), strip_idem.
  now rewrite (strip_lower_comm s), lower_idem.
Qed.

Lemma is_empty_true s : is_empty s = true <-> s = "".
Proof. destruct s; split; intros H; (reflexivity || discriminate H). Qed.

Lemma truthy_true s : truthy s = true <-> s <> "".
Proof.
  destruct s; split; intros H; try reflexivity; try discriminate.
  now contradiction H.
Qed.

Lemma len_append s1 s2 : len (s1 +:+ s2) = len s1 + len s2.
Proof.
  unfold len. induction s1 as [|c s1 IH].
  - change ("" +:+ s2) with s2. simpl. lia.
  - change (String c s1 +:+ s2) with (String c (s1 +:+ s2)).
    cbn [String.length]. lia.
Qed.

Lemma len_nonneg s : 0 <= len s.
Proof. unfold len. lia. Qed.

End TextFacts.

(** ** The matcher against the meaning of the expressions *)

Section RegexFacts.
Import Re.

Lemma eat_spec (p : ascii -> bool) c c' :
  In c' (eat p c) <->
  exists x t, rest c = x :: t /\ p x = true /\ c' = Cursor (Some x) t.
Proof.
  unfold eat. destruct (rest c) as [|x t].
  - split; [intros [] | intros (x & t & H & _); discriminate H].
  - destruct (p x) eqn:E.
    + split.
      * intros [<-|[]]. now exists x, t.
      * intros (x' & t' & [= <- <-] & _ & ->). now left.
    + split; [intros [] | intros (x' & t' & [= <- <-] & H & _)].
      rewrite H in E. discriminate E.
Qed.

(** A match ends where it began or strictly further. *)
Lemma matches_progress r c c' :
  matches r c c' -> c' = c \/ (length (rest c') < length (rest c))%nat.
Proof.
  induction 1; try (now left); try (right; simpl; lia).
  - destruct IHmatches1 as [->|H1], IHmatches2 as [->|H2];
      [now left | now right | now right | right; lia].
  - exact IHmatches.
  - exact IHmatches.
  - destruct IHmatches1 as [->|H1], IHmatches2 as [->|H2];
      [now left | now right | now right | right; lia].
Qed.

Lemma star_sound (step : cursor -> list cursor) r :
  (forall c c', In c' (step c) -> matches r c c') ->
  forall fuel c c', In c' (star step fuel c) -> matches (Star r) c c'.
Proof.
  intros Hstep. induction fuel as [|f IH]; intros c c'; simpl.
  - intros [<-|[]]. constructor.
  - intros H. apply in_app_or in H as [H|[<-|[]]]; [|constructor].
    apply in_flat_map in H as (c1 & H1 & H2).
    apply filter_In in H1 as [H1 _].
    eapply M_star_more; [apply Hstep, H1 | apply IH, H2].
Qed.

Lemma star_complete (step : cursor -> list cursor) r :
  (forall c c', matches r c c' -> In c' (step c)) ->
  forall c c',
    matches (Star r) c c' ->
    forall fuel, (length (rest c) <= fuel)%nat -> In c' (star step fuel c).
Proof.
  intros Hstep c c' H. remember (Star r) as sr eqn:Hsr.
  induction H as [| | | | | | | | | | | r0 c | r0 c c1 c2 H1 _ H2 IH2];
    try discriminate Hsr.
  - intros [|f] _; simpl; [now left|]. apply in_or_app. right. now left.
  - injection Hsr as ->. specialize (IH2 eq_refl).
    destruct (matches_progress _ _ _ H1) as [->|Hlt]; [exact IH2|].
    intros [|f] Hf; [lia|]. simpl. apply in_or_app. left.
    apply in_flat_map. exists c1. split.
    + apply filter_In. split; [now apply Hstep|].
      unfold progress. now apply Nat.ltb_lt.
    + apply IH2. lia.
Qed.

Lemma run_sound r : forall c c', In c' (run r c) -> matches r c c'.
Proof.
  induction r as [| a | | | | | | | r1 IH1 r2 IH2 | r1 IH1 r2 IH2 | r IH];
    intros c c'; cbn [run].
  - intros [<-|[]]. constructor.
  - intros H. apply eat_spec in H as (x & t & Hr & Hx & ->).
    apply Ascii.eqb_eq in Hx. subst x. destruct c as [p s]. simpl in Hr.
    subst s. constructor.
  - intros H. apply eat_spec in H as (x & t & Hr & Hx & ->).
    destruct c as [p s]. simpl in Hr. subst s. constructor.
    intros ->. now rewrite Ascii.eqb_refl in Hx.
  - intros H. apply eat_spec in H as (x & t & Hr & Hx & ->).
    destruct c as [p s]. simpl in Hr. subst s. now constructor.
  - intros H. apply eat_spec in H as (x & t & Hr & Hx & ->).
    destruct c as [p s]. simpl in Hr. subst s. now constructor.
  - intros H. apply eat_spec in H as (x & t & Hr & Hx & ->).
    destruct c as [p s]. simpl in Hr. subst s. now constructor.
  - destruct c as [[x|] s]; simpl; [intros [] | intros [<-|[]]]. constructor.
  - destruct (xorb (word_at (prev c)) (word_at (head (rest c)))) eqn:E;
      [|intros []].
    intros [<-|[]]. constructor. intros Heq. rewrite Heq, xorb_nilpotent in E.
    discriminate E.
  - intros H. apply in_flat_map in H as (c1 & H1 & H2).
    econstructor; [apply IH1, H1 | apply IH2, H2].
  - intros H. apply in_app_or in H as [H|H];
      [apply M_alt_l, IH1, H | apply M_alt_r, IH2, H].
  - apply star_sound, IH.
Qed.

Lemma run_complete r : forall c c', matches r c c' -> In c' (run r c).
Proof.
  induction r as [| a | | | | | | | r1 IH1 r2 IH2 | r1 IH1 r2 IH2 | r IH];
    intros c c' H; cbn [run].
  - inversion H; subst. now left.
  - inversion H; subst. apply eat_spec. eexists _, _.
    split; [reflexivity|]. split; [apply Ascii.eqb_refl | reflexivity].
  - inversion H as [| |p x t Hx| | | | | | | | | |]; subst.
    apply eat_spec. eexists _, _. split; [reflexivity|].
    split; [|reflexivity]. apply negb_true_iff, Ascii.eqb_neq, Hx.
  - inversion H; subst. apply eat_spec. now eexists _, _.
  - inversion H; subst. apply eat_spec. now eexists _, _.
  - inversion H; subst. apply eat_spec. now eexists _, _.
  - inversion H; subst. now left.
  - inversion H as [| | | | | | |c0 Hb| | | | |]; subst.
    destruct (word_at (prev c')), (word_at (head (rest c')));
      first [now left | now contradiction Hb].
  - inversion H as [| | | | | | | |? ? ? c1 ? H1 H2| | | |]; subst.
    apply in_flat_map. exists c1. split; [apply IH1, H1 | apply IH2, H2].
  - inversion H; subst; apply in_or_app;
      [left; now apply IH1 | right; now apply IH2].
  - eapply star_complete; [exact IH | exact H | reflexivity].
Qed.

(** [run] finds exactly the matches. *)
Lemma run_spec r c c' : In c' (run r c) <-> matches r c c'.
Proof. split; [apply run_sound | apply run_complete]. Qed.

Lemma search_from_spec r s :
  forall p,
    search_from r p s = true <->
    exists pre post c',
      s = pre ++ post /\
      matches r (Cursor (match last pre with Some x => Some x | None => p end)
                        post) c'.
Proof.
  induction s as [|x t IH]; intros p; cbn [search_from].
  - destruct (run r (Cursor p [])) as [|c' l] eqn:E.
    + split; [discriminate|]. intros (pre & post & c' & Heq & Hm).
      symmetry in Heq. apply app_eq_nil in Heq as [-> ->]. simpl in Hm.
      apply run_complete in Hm. rewrite E in Hm. destruct Hm.
    + split; [intros _ | reflexivity]. exists [], [], c'.
      split; [reflexivity|]. apply run_sound.
      change (In c' (run r (Cursor p []))). rewrite E. now left.
  - destruct (run r (Cursor p (x :: t))) as [|c' l] eqn:E.
    + rewrite IH. split.
      * intros (pre & post & c' & -> & Hm). exists (x :: pre), post, c'.
        split; [reflexivity|].
        destruct pre as [|y pre]; [exact Hm|].
        rewrite last_cons_cons.
        destruct (last (y :: pre)) eqn:L; [exact Hm|].
        apply last_None in L. discriminate L.
      * intros ([|y pre] & post & c' & Heq & Hm).
        -- simpl in Heq, Hm. subst post. apply run_complete in Hm.
           rewrite E in Hm. destruct Hm.
        -- injection Heq as <- ->. exists pre, post, c'.
           split; [reflexivity|].
           destruct pre as [|z pre]; [exact Hm|].
           rewrite last_cons_cons in Hm.
           destruct (last (z :: pre)) eqn:L; [exact Hm|].
           apply last_None in L. discriminate L.
    + split; [intros _ | reflexivity]. exists [], (x :: t), c'.
      split; [reflexivity|]. apply run_sound.
      change (In c' (run r (Cursor p (x :: t)))). rewrite E. now left.
Qed.

(** [re.search] answers whether the pattern occurs in the subject. *)
Lemma search_occurs pattern subject :
  Re.search pattern subject = true <-> Re.occurs pattern subject.
Proof.
  unfold Re.search, Re.occurs, Re.found_in.
  destruct (Re.compile pattern) as [r|].
  - rewrite search_from_spec. split.
    + intros (pre & post & c' & Heq & Hm). exists r. split; [reflexivity|].
      exists pre, post, c'. split; [exact Heq|]. now destruct (last pre).
    + intros (r' & [= <-] & pre & post & c' & Heq & Hm).
      exists pre, post, c'. split; [exact Heq|]. now destruct (last pre).
  - split; [discriminate | intros (r & H & _); discriminate H].
Qed.

(** Every pattern of the engine lies in the fragment that [compile]
    reads. *)
Lemma patterns_compile :
  forallb (fun p => bool_decide (is_Some (Re.compile p)))
          (help_patterns ++ solved_patterns ++ negation_patterns ++
           not_solved_patterns ++ insufficient_patterns ++
           ["\b\w{3,}\b"; "retry_delay {\s*seconds: "; "\d+"; "\s*}"]) = true.
Proof. vm_compute. reflexivity. Qed.

(** The matcher on a few subjects, as CPython answers on them: [now]
    holds no negation token, a word boundary splits at an apostrophe, and
    [findall] keeps the words of three characters and more. *)
Example regex_samples :
  any_search negation_patterns "it is fixed now" = false /\
  any_search negation_patterns "it's not fixed yet" = true /\
  any_search solved_patterns "the issue fixed itself" = true /\
  Re.search "^(no|nope|negative)\b" "nope, same as before" = true /\
  Re.search "^(no|nope|negative)\b" "nothing changed" = false /\
  Re.findall "\b\w{3,}\b" "how do i fix pump_overheating?"
  = ["how"; "fix"; "pump_overheating"] /\
  Re.search_group "retry_delay {\s*seconds: " "\d+" "\s*}"
                  "quota exceeded retry_delay { seconds: 42 }" = Some "42".
Proof. repeat split; vm_compute; reflexivity. Qed.

End RegexFacts.

(** ** The solved / not-solved classifiers *)

(** The negation test of [is_problem_solved] never changes its answer: the
    function is true exactly when a solved pattern is found. *)
Lemma is_problem_solved_unfold text :
  is_problem_solved text =
  any_search solved_patterns (Text.strip (Text.lower text)).
Proof.
  unfold is_problem_solved.
  set (t := Text.strip (Text.lower text)).
  destruct (any_search negation_patterns t) eqn:Hneg.
  - destruct (String.eqb t "no") eqn:Hno.
    + apply String.eqb_eq in Hno. rewrite Hno. vm_compute. reflexivity.
    + destruct (String.eqb t "nope") eqn:Hnope.
      * apply String.eqb_eq in Hnope. rewrite Hnope. vm_compute. reflexivity.
      * destruct (any_search solved_patterns t); reflexivity.
  - destruct (any_search solved_patterns t); reflexivity.
Qed.

Lemma is_problem_solved_normalised text :
  is_problem_solved (Text.strip (Text.lower text)) = is_problem_solved text.
Proof. now rewrite !is_problem_solved_unfold, normalise_idem. Qed.

(** C3: [is_problem_solved] on the three inputs of the specification.  The
    first two agree with it; on the third the code answers [True], where
    the specification (and the comment in the code on negated solved
    words) expects [False]. *)
Theorem is_problem_solved_examples :
  is_problem_solved "no" = false /\
  is_problem_solved "it is fixed now" = true /\
  is_problem_solved "it's not fixed yet" = true.
Proof. repeat split; vm_compute; reflexivity. Qed.

(** C4: [is_problem_solved] and [is_problem_not_solved] are never both true:
    when the first holds of a text, the second is false of it. *)
Theorem solved_excludes_not_solved text :
  is_problem_solved text = true -> is_problem_not_solved text = false.
Proof.
  intros H. unfold is_problem_not_solved.
  now rewrite is_problem_solved_normalised, H.
Qed.

Lemma solved_excludes_not_solved_witness :
  is_problem_solved "it is fixed now" = true /\
  is_problem_not_solved "it is fixed now" = false.
Proof.
  split; [vm_compute; reflexivity|].
  apply (solved_excludes_not_solved "it is fixed now"). vm_compute; reflexivity.
Defined.

(** ** The catalog and [detect_problem] *)

Section CatalogFacts.

Lemma odict_get_keys {V} (d : odict.t V) k :
  k ∈ odict.keys d -> is_Some (odict.get d k).
Proof.
  induction d as [|[k' v] d IH]; simpl.
  - intros H. now apply elem_of_nil in H.
  - intros H. destruct (String.eqb k' k) eqn:E; [now eexists|].
    apply elem_of_cons in H as [->|H]; [|now apply IH].
    now rewrite String.eqb_refl in E.
Qed.

Lemma odict_get_elem {V} (d : odict.t V) k v :
  odict.get d k = Some v -> (k, v) ∈ d.
Proof.
  induction d as [|[k' v'] d IH]; simpl; [discriminate|].
  destruct (String.eqb k' k) eqn:E.
  - apply String.eqb_eq in E. subst k'.
    intros [= ->]. apply elem_of_cons. now left.
  - intros H. apply elem_of_cons. right. now apply IH.
Qed.

Lemma odict_get_in_keys {V} (d : odict.t V) k v :
  odict.get d k = Some v -> k ∈ odict.keys d.
Proof.
  intros H. apply odict_get_elem in H.
  unfold odict.keys. apply list_elem_of_fmap. now exists (k, v).
Qed.

Lemma odict_set_elem {V} (d : odict.t V) k v x :
  x ∈ odict.set d k v -> x = (k, v) \/ x ∈ d.
Proof.
  induction d as [|[k' v'] d IH]; simpl.
  - intros H. apply elem_of_cons in H as [->|H]; [now left | now right].
  - destruct (String.eqb k' k); simpl; intros H;
      apply elem_of_cons in H as [->|H].
    + now left.
    + right. apply elem_of_cons. now right.
    + right. apply elem_of_cons. now left.
    + destruct (IH H) as [->|H']; [now left|].
      right. apply elem_of_cons. now right.
Qed.

Lemma exact_match_in text_lower ks k :
  exact_match text_lower ks = Some k -> k ∈ ks.
Proof.
  induction ks as [|x ks IH]; simpl; [discriminate|].
  destruct (String.eqb (Text.lower x) text_lower).
  - intros [= ->]. apply elem_of_cons. now left.
  - intros H. apply elem_of_cons. right. now apply IH.
Qed.

(** A pass that only ever replaces the best match by the key at hand
    ends on its initial match or on one of the keys. *)
Lemma best_match_pass (f : option string * Z -> string -> option string * Z)
      (ks : list string) :
  (forall st k, fst (f st k) = fst st \/ fst (f st k) = Some k) ->
  forall st,
    fst (foldl f st ks) = fst st \/
    exists k, k ∈ ks /\ fst (foldl f st ks) = Some k.
Proof.
  intros Hf. induction ks as [|x ks IH]; intros st; simpl; [now left|].
  destruct (IH (f st x)) as [E|(k & Hk & E)].
  - rewrite E. destruct (Hf st x) as [E'|E']; [now left|].
    right. exists x. split; [apply elem_of_cons; now left | exact E'].
  - right. exists k. split; [apply elem_of_cons; now right | exact E].
Qed.

Lemma substring_pass_in text_lower ks st :
  fst (substring_pass text_lower ks st) = fst st \/
  exists k, k ∈ ks /\ fst (substring_pass text_lower ks st) = Some k.
Proof.
  apply best_match_pass. intros s k.
  destruct (Text.contains (Text.lower k) text_lower); [|now left].
  destruct (Text.len k >? snd s); [now right | now left].
Qed.

Lemma keyword_pass_in text_keywords ks st :
  fst (keyword_pass text_keywords ks st) = fst st \/
  exists k, k ∈ ks /\ fst (keyword_pass text_keywords ks st) = Some k.
Proof.
  apply best_match_pass. intros s k. cbv zeta.
  match goal with |- context [if ?c then _ else _] => destruct c end;
    [now right | now left].
Qed.

Lemma detect_problem_in_keys text problems k :
  detect_problem text problems = Some k -> k ∈ odict.keys problems.
Proof.
  unfold detect_problem.
  destruct (odict.is_empty problems || Text.is_empty text)%bool;
    [discriminate|].
  set (t := Text.strip (Text.lower text)).
  destruct (exact_match t (odict.keys problems)) as [k'|] eqn:Hex.
  - intros [= <-]. eapply exact_match_in, Hex.
  - destruct (substring_pass_in t (odict.keys problems) (None, 0))
      as [E|(k1 & Hk1 & E)].
    + rewrite E. simpl.
      destruct (Z.of_nat (size (keywords t)) <? 2); [discriminate|].
      destruct (keyword_pass_in (keywords t) (odict.keys problems)
                  (substring_pass t (odict.keys problems) (None, 0)))
        as [E2|(k2 & Hk2 & E2)].
      * rewrite E2, E. discriminate.
      * rewrite E2. now intros [= <-].
    + rewrite E.
      destruct (negb (truthy_opt (Some k1))); [|now intros [= <-]].
      destruct (Z.of_nat (size (keywords t)) <? 2); [discriminate|].
      destruct (keyword_pass_in (keywords t) (odict.keys problems)
                  (substring_pass t (odict.keys problems) (None, 0)))
        as [E2|(k2 & Hk2 & E2)].
      * rewrite E2, E. now intros [= <-].
      * rewrite E2. now intros [= <-].
Qed.

End CatalogFacts.

(** The three passes at work on the catalog of [demo_source]: an exact
    match up to case, a key contained in the text, two shared keywords,
    and a single shared word, which is not enough. *)
Example detect_problem_passes :
  let d := load_problem_data_dict demo_source in
  detect_problem " Pump Overheating " d = Some "pump overheating" /\
  detect_problem "how do I fix pump overheating" d = Some "pump overheating" /\
  detect_problem "the pump keeps overheating badly" d = Some "pump overheating" /\
  detect_problem "the bilge pump" d = None.
Proof. repeat split; vm_compute; reflexivity. Qed.

(** C10: whatever the text and the catalog, [detect_problem] answers [None]
    or a key of the catalog, which [get] then finds; an empty text or an
    empty catalog gives [None]. *)
Theorem detect_problem_sound (text : string) (problems : catalog) :
  match detect_problem text problems with
  | Some k => k ∈ odict.keys problems /\ is_Some (odict.get problems k)
  | None => True
  end /\
  detect_problem "" problems = None /\
  detect_problem text [] = None.
Proof.
  split; [|split].
  - destruct (detect_problem text problems) as [k|] eqn:E; [|exact I].
    apply detect_problem_in_keys in E.
    split; [exact E | now apply odict_get_keys].
  - unfold detect_problem. now rewrite orb_true_r.
  - reflexivity.
Qed.

(** ** The loaded catalog and [get_next_solution_step] *)

Section LoaderFacts.

Lemma step_key_inj i j : step_key i = step_key j -> i = j.
Proof.
  unfold step_key. intros H.
  apply (inj (String.append "solution_step_")) in H.
  now apply (inj pretty) in H.
Qed.

Lemma step_key_not_cause i : step_key i <> "possible_cause".
Proof. unfold step_key. discriminate. Qed.

Lemma fill_steps_ok row (idxs : list Z) e b :
  (forall i, i ∈ idxs -> 1 <= i <= MAX_SOLUTION_STEPS) ->
  entry_ok e ->
  entry_ok
    (fst (foldl (fun (acc : gmap string string * bool) (i : Z) =>
                   let step_content := cell row (step_key i) in
                   (<[step_key i := step_content]> (fst acc),
                    (snd acc || Text.truthy step_content)%bool))
                (e, b) idxs)).
Proof.
  revert e b. induction idxs as [|i idxs IH]; intros e b Hin He; [exact He|].
  simpl. apply IH.
  - intros j Hj. apply Hin, elem_of_cons. now right.
  - destruct He as (Hne & Hstr & Hkeys). split; [|split].
    + apply insert_non_empty.
    + intros k v. rewrite lookup_insert. case_decide.
      * intros [= <-]. apply strip_idem.
      * apply Hstr.
    + intros j Hj. rewrite lookup_insert_ne; [now apply Hkeys|].
      intros Heq. apply step_key_inj in Heq. subst j.
      apply Hj, Hin, elem_of_cons. now left.
Qed.

Lemma load_row_ok d row : catalog_ok d -> catalog_ok (load_row d row).
Proof.
  intros Hd. unfold load_row.
  destruct (Text.truthy (cell row "problem")) eqn:Hkey; [|exact Hd].
  destruct (fill_steps row {["possible_cause" := cell row "possible_cause"]})
    as [e has] eqn:Hfill.
  destruct has; [|exact Hd].
  intros k x Hx. apply odict_set_elem in Hx as [[= -> ->]|Hx]; [|now apply Hd].
  split; [now apply truthy_true|].
  change e with
    (fst (e, true)). rewrite <- Hfill. unfold fill_steps.
  apply fill_steps_ok.
  - intros i Hi. apply elem_of_seqZ in Hi. lia.
  - split; [|split].
    + apply insert_non_empty.
    + intros k v Hkv. apply lookup_singleton_Some in Hkv as [_ <-].
      apply strip_idem.
    + intros i _. apply lookup_singleton_ne.
      intros Heq. symmetry in Heq. now apply step_key_not_cause in Heq.
Qed.

Lemma load_rows_ok rows d : catalog_ok d -> catalog_ok (foldl load_row d rows).
Proof.
  revert d. induction rows as [|row rows IH]; intros d Hd; [exact Hd|].
  simpl. apply IH, load_row_ok, Hd.
Qed.

Lemma load_problem_data_dict_ok src : catalog_ok (load_problem_data_dict src).
Proof.
  assert (Hnil : catalog_ok []).
  { intros k e He. now apply elem_of_nil in He. }
  destruct src as [| |columns rows]; simpl; try exact Hnil.
  match goal with |- context [if ?c then _ else _] => destruct c end;
    [apply load_rows_ok, Hnil | exact Hnil].
Qed.

(** On a kept record the text a step is tested on is the stored text. *)
Lemma strip_stored_step e i :
  entry_ok e -> Text.strip (get_or e (step_key i) "") = stored_step e i.
Proof.
  intros (_ & Hstr & _). unfold stored_step, get_or.
  destruct (e !! step_key i) as [v|] eqn:E; [now apply (Hstr _ _ E)|].
  reflexivity.
Qed.

Lemma stored_step_out_of_range e i :
  entry_ok e -> ~ (1 <= i <= MAX_SOLUTION_STEPS) -> stored_step e i = "".
Proof.
  intros (_ & _ & Hkeys) Hi. unfold stored_step, get_or.
  now rewrite (Hkeys i Hi).
Qed.

Lemma scan_steps_some e fuel i n t :
  entry_ok e ->
  scan_steps e fuel i = Some (n, t) ->
  i <= n < i + Z.of_nat fuel /\ t = stored_step e n /\ t <> "" /\
  forall j, i <= j < n -> stored_step e j = "".
Proof.
  intros He. revert i. induction fuel as [|f IH]; intros i; [discriminate|].
  cbn [scan_steps]. rewrite (strip_stored_step e i He).
  destruct (Text.truthy (stored_step e i)) eqn:Ht.
  - intros [= <- <-]. repeat split; try lia.
    now apply truthy_true.
  - intros H. apply IH in H as (Hr & -> & Hne & Hmin).
    repeat split; try lia; [exact Hne|].
    intros j Hj. destruct (Z.eq_dec j i) as [->|Hji]; [|apply Hmin; lia].
    destruct (stored_step e i); [reflexivity | discriminate Ht].
Qed.

Lemma scan_steps_none e fuel i :
  entry_ok e ->
  scan_steps e fuel i = None ->
  forall j, i <= j < i + Z.of_nat fuel -> stored_step e j = "".
Proof.
  intros He. revert i. induction fuel as [|f IH]; intros i; [intros _ j; lia|].
  cbn [scan_steps]. rewrite (strip_stored_step e i He).
  destruct (Text.truthy (stored_step e i)) eqn:Ht; [discriminate|].
  intros H j Hj. destruct (Z.eq_dec j i) as [->|Hji].
  - destruct (stored_step e i); [reflexivity | discriminate Ht].
  - apply (IH (i + 1) H). lia.
Qed.

(** The answer of [get_next_solution_step] on a kept record, read off
    the scan. *)
Lemma get_next_solution_step_scan d p e cur :
  catalog_ok d ->
  odict.get d p = Some e ->
  get_next_solution_step d p cur =
  match scan_steps e (Z.to_nat (MAX_SOLUTION_STEPS - cur)) (cur + 1) with
  | Some (i, t) => (Some i, Some t, Some (get_or e "possible_cause" "N/A"))
  | None => (None, None, Some (get_or e "possible_cause" "N/A"))
  end.
Proof.
  intros Hd Hget. unfold get_next_solution_step. rewrite Hget.
  destruct (Hd p e (odict_get_elem _ _ _ Hget)) as (_ & Hne & _).
  rewrite bool_decide_eq_false_2 by exact Hne.
  now replace (MAX_SOLUTION_STEPS + 1 - (cur + 1))
    with (MAX_SOLUTION_STEPS - cur) by lia.
Qed.

Lemma get_next_solution_step_first d p e cur n :
  catalog_ok d ->
  odict.get d p = Some e ->
  cur < n ->
  stored_step e n <> "" ->
  (forall j, cur < j < n -> stored_step e j = "") ->
  get_next_solution_step d p cur =
  (Some n, Some (stored_step e n), Some (get_or e "possible_cause" "N/A")).
Proof.
  intros Hd Hget Hlt Hn Hmin.
  destruct (Hd p e (odict_get_elem _ _ _ Hget)) as (_ & He).
  rewrite (get_next_solution_step_scan d p e cur Hd Hget).
  assert (Hmax : 1 <= n <= MAX_SOLUTION_STEPS).
  { destruct (decide (1 <= n <= MAX_SOLUTION_STEPS)) as [H|H]; [exact H|].
    now apply (stored_step_out_of_range e n He) in H. }
  destruct (scan_steps e (Z.to_nat (MAX_SOLUTION_STEPS - cur)) (cur + 1))
    as [[i t]|] eqn:Hscan.
  - apply (scan_steps_some e _ _ _ _ He) in Hscan as (Hr & -> & Hne & Hfirst).
    assert (i = n) as ->; [|reflexivity].
    destruct (Z.lt_trichotomy i n) as [Hin|[Heq|Hin]]; [|exact Heq|].
    + exfalso. apply Hne, Hmin. lia.
    + exfalso. apply Hn, Hfirst. lia.
  - exfalso. apply Hn.
    apply (scan_steps_none e _ _ He Hscan). lia.
Qed.

Lemma get_next_solution_step_last d p e cur :
  catalog_ok d ->
  odict.get d p = Some e ->
  (forall j, cur < j -> stored_step e j = "") <->
  get_next_solution_step d p cur =
  (None, None, Some (get_or e "possible_cause" "N/A")).
Proof.
  intros Hd Hget.
  destruct (Hd p e (odict_get_elem _ _ _ Hget)) as (_ & He).
  rewrite (get_next_solution_step_scan d p e cur Hd Hget).
  destruct (scan_steps e (Z.to_nat (MAX_SOLUTION_STEPS - cur)) (cur + 1))
    as [[i t]|] eqn:Hscan.
  - apply (scan_steps_some e _ _ _ _ He) in Hscan as (Hr & -> & Hne & Hfirst).
    split; [|discriminate].
    intros Hall. exfalso. apply Hne, Hall. lia.
  - split; [reflexivity|]. intros _ j Hj.
    destruct (decide (j <= MAX_SOLUTION_STEPS)) as [Hle|Hgt].
    + apply (scan_steps_none e _ _ He Hscan). lia.
    + apply (stored_step_out_of_range e j He). lia.
Qed.

End LoaderFacts.

(** C5: on a record [e] of the loaded catalog, [get_next_solution_step]
    returns the smallest index above [cur] whose stored step is not empty,
    with that text and the cause (empty steps in between are skipped); it
    returns [(None, None, cause)] exactly when no index above [cur] has a
    non-empty step; and from 0 it returns step 2 when step 1 is empty and
    step 2 is not. *)
Theorem get_next_solution_step_spec (src : csv_source) (p : string)
        (e : gmap string string) (cur : Z) :
  odict.get (load_problem_data_dict src) p = Some e ->
  let d := load_problem_data_dict src in
  let cause := get_or e "possible_cause" "N/A" in
  (forall n,
      cur < n -> stored_step e n <> "" ->
      (forall j, cur < j < n -> stored_step e j = "") ->
      get_next_solution_step d p cur =
      (Some n, Some (stored_step e n), Some cause)) /\
  ((forall j, cur < j -> stored_step e j = "") <->
   get_next_solution_step d p cur = (None, None, Some cause)) /\
  (stored_step e 1 = "" -> stored_step e 2 <> "" ->
   get_next_solution_step d p 0 = (Some 2, Some (stored_step e 2), Some cause)).
Proof.
  intros Hget d cause.
  pose proof (load_problem_data_dict_ok src) as Hd.
  split; [|split].
  - intros n. now apply get_next_solution_step_first.
  - now apply get_next_solution_step_last.
  - intros H1 H2. apply get_next_solution_step_first; try assumption; [lia|].
    intros j Hj. now replace j with 1 by lia.
Qed.

Lemma get_next_solution_step_spec_witness :
  odict.get (load_problem_data_dict demo_source) "bilge alarm"
  = Some demo_bilge_entry /\
  get_next_solution_step (load_problem_data_dict demo_source) "bilge alarm" 0
  = (Some 2, Some "Free the float switch", Some "Stuck float switch").
Proof.
  assert (H : odict.get (load_problem_data_dict demo_source) "bilge alarm"
              = Some demo_bilge_entry) by (vm_compute; reflexivity).
  split; [exact H|].
  apply (proj1 (get_next_solution_step_spec demo_source "bilge alarm"
                  demo_bilge_entry 0 H) 2).
  - lia.
  - vm_compute. discriminate.
  - intros j Hj. replace j with 1 by lia. vm_compute. reflexivity.
Defined.

(** ** The sufficiency check *)

Lemma first_insufficiency_none patterns t :
  first_insufficiency patterns t = None <->
  forall p, p ∈ patterns -> Re.search p t = false.
Proof.
  induction patterns as [|x patterns IH]; simpl.
  - split; [|reflexivity]. intros _ p Hp. now apply elem_of_nil in Hp.
  - destruct (Re.search x t) eqn:E.
    + split; [discriminate|]. intros H.
      rewrite (H x) in E; [discriminate | apply elem_of_cons; now left].
    + rewrite IH. split.
      * intros H p Hp. apply elem_of_cons in Hp as [->|Hp]; [exact E | now apply H].
      * intros H p Hp. apply H, elem_of_cons. now right.
Qed.

(** C7: [is_rag_answer_sufficient] is false on the empty text, false as
    soon as one insufficiency pattern occurs anywhere in the lower-cased
    text, and true on every other non-empty text, whatever its length. *)
Theorem is_rag_answer_sufficient_spec (answer_text : string) :
  is_rag_answer_sufficient "" = false /\
  (forall pattern,
      pattern ∈ insufficient_patterns ->
      Re.occurs pattern (Text.lower answer_text) ->
      is_rag_answer_sufficient answer_text = false) /\
  (answer_text <> "" ->
   (forall pattern,
       pattern ∈ insufficient_patterns ->
       ~ Re.occurs pattern (Text.lower answer_text)) ->
   is_rag_answer_sufficient answer_text = true).
Proof.
  split; [reflexivity|]. unfold is_rag_answer_sufficient. split.
  - intros pattern Hin Hs. apply search_occurs in Hs.
    destruct (Text.is_empty answer_text); [reflexivity|].
    destruct (first_insufficiency insufficient_patterns (Text.lower answer_text))
      eqn:E; [reflexivity|].
    rewrite (proj1 (first_insufficiency_none _ _) E pattern Hin) in Hs.
    discriminate.
  - intros Hne Hall.
    destruct (Text.is_empty answer_text) eqn:Hemp.
    + now apply is_empty_true in Hemp.
    + rewrite (proj2 (first_insufficiency_none _ _)); [reflexivity|].
      intros p Hp. specialize (Hall p Hp). rewrite <- search_occurs in Hall.
      now destruct (Re.search p (Text.lower answer_text)).
Qed.

Lemma is_rag_answer_sufficient_spec_witness :
  is_rag_answer_sufficient
    "I don't have enough information about that system." = false /\
  Text.len "Bleed the line." < MIN_SUFFICIENT_LENGTH /\
  is_rag_answer_sufficient "Bleed the line." = true.
Proof.
  split; [|split].
  - apply (proj1 (proj2 (is_rag_answer_sufficient_spec
                           "I don't have enough information about that system."))
             "don't have enough information").
    + vm_compute. repeat (first [left; reflexivity | right]).
    + apply search_occurs. vm_compute. reflexivity.
  - reflexivity.
  - apply (proj2 (proj2 (is_rag_answer_sufficient_spec "Bleed the line."))).
    + discriminate.
    + intros p Hp Hocc. apply search_occurs in Hocc.
      assert (Hnone : first_insufficiency insufficient_patterns
                        (Text.lower "Bleed the line.") = None)
        by (vm_compute; reflexivity).
      rewrite (proj1 (first_insufficiency_none _ _) Hnone p Hp) in Hocc.
      discriminate Hocc.
Defined.

(** ** Formatting web results under the budget *)

Section FormatFacts.

Lemma len_short_pos i url title : 0 < Text.len (short_entry_of i url title).
Proof.
  unfold short_entry_of. rewrite len_append.
  pose proof (len_nonneg (pretty (i + 1) +:+ ":" +:+ Text.nl +:+ "Source: "
                          +:+ url +:+ Text.nl +:+ "Title: " +:+ title)).
  change (Text.len "Result ") with 7. lia.
Qed.

Lemma len_entry_pos i res : 0 < Text.len (entry_of i res).
Proof.
  unfold entry_of, header_of. rewrite !len_append.
  pose proof (len_short_pos i (get_or res "url" "N/A") (get_or res "title" "N/A")).
  pose proof (len_nonneg (Text.strip (get_or res "content" ""))).
  pose proof (len_nonneg Text.nl). pose proof (len_nonneg "Content: ").
  lia.
Qed.

Lemma added_nonneg l : 0 <= added l.
Proof.
  induction l as [|x t IH]; simpl; [lia|].
  pose proof (len_nonneg separator). pose proof (len_nonneg x). lia.
Qed.

Lemma added_app l1 l2 : added (l1 ++ l2) = added l1 + added l2.
Proof. induction l1 as [|x t IH]; simpl; lia. Qed.

Lemma len_join_cons x t :
  Text.len (join separator (x :: t)) = Text.len x + added t.
Proof.
  revert x. induction t as [|y t IH]; intros x.
  - simpl. lia.
  - change (join separator (x :: y :: t))
      with (x +:+ separator +:+ join separator (y :: t)).
    rewrite !len_append, IH. simpl. lia.
Qed.

Lemma format_loop_cons max_chars res more i formatted total_chars :
  format_loop max_chars (res :: more) i formatted total_chars =
  if total_chars =? 0 then
    if Text.len (entry_of i res) <=? max_chars then
      format_loop max_chars more (i + 1) (formatted ++ [entry_of i res])
                  (total_chars + Text.len (entry_of i res))
    else
      formatted ++
        [header_of i (get_or res "url" "N/A") (get_or res "title" "N/A") +:+
         (if max_chars - Text.len (header_of i (get_or res "url" "N/A")
                                              (get_or res "title" "N/A")) >? 3
          then Text.take_prefix
                 (max_chars - Text.len (header_of i (get_or res "url" "N/A")
                                                    (get_or res "title" "N/A")))
                 (Text.strip (get_or res "content" "")) +:+ "..."
          else "")]
  else
    if total_chars + Text.len separator + Text.len (entry_of i res) <=? max_chars
    then
      format_loop max_chars more (i + 1) (formatted ++ [entry_of i res])
                  (total_chars + Text.len separator + Text.len (entry_of i res))
    else
      if total_chars + Text.len separator + Text.len (short_of i res) <=? max_chars
      then formatted ++ [short_of i res]
      else formatted.
Proof. reflexivity. Qed.

(** After the first entry: whole entries while they fit, then at most
    one title-only entry, then nothing. *)
Lemma format_loop_rest max_chars results :
  forall i formatted total_chars,
    0 < total_chars ->
    exists (k : nat) (tail : list string),
      (k <= length results)%nat /\
      format_loop max_chars results i formatted total_chars =
      formatted ++ take k (entries_from i results) ++ tail /\
      (total_chars <= max_chars ->
       total_chars + added (take k (entries_from i results) ++ tail)
       <= max_chars) /\
      ((k = length results /\ tail = []) \/
       exists res,
         results !! k = Some res /\
         max_chars < total_chars + added (take k (entries_from i results))
                     + Text.len separator
                     + Text.len (entry_of (i + Z.of_nat k) res) /\
         (tail = [short_of (i + Z.of_nat k) res] \/
          (tail = [] /\
           max_chars < total_chars + added (take k (entries_from i results))
                       + Text.len separator
                       + Text.len (short_of (i + Z.of_nat k) res)))).
Proof.
  induction results as [|res more IH]; intros i formatted total_chars Hpos.
  - exists 0%nat, []. cbn [entries_from firstn added app length]. rewrite app_nil_r.
    repeat split; [lia | | now left]. intros; lia.
  - rewrite format_loop_cons.
    replace (total_chars =? 0) with false by (symmetry; apply Z.eqb_neq; lia).
    destruct (total_chars + Text.len separator + Text.len (entry_of i res)
              <=? max_chars) eqn:Hfit.
    + apply Z.leb_le in Hfit.
      pose proof (len_entry_pos i res) as He.
      pose proof (len_nonneg separator) as Hs.
      destruct (IH (i + 1) (formatted ++ [entry_of i res])
                   (total_chars + Text.len separator + Text.len (entry_of i res)))
        as (k & tail & Hk & Heq & Hbound & Hstop); [lia|].
      exists (S k), tail. split; [cbn [entries_from firstn added app length]; lia|]. split; [|split].
      * rewrite Heq. cbn [entries_from firstn added app length]. now rewrite <- app_assoc.
      * intros _. specialize (Hbound Hfit). cbn [entries_from firstn added app length]. cbn [entries_from firstn added app length] in Hbound. lia.
      * destruct Hstop as [[-> ->]|(r & Hr & Hover & Htail)]; [now left|].
        right. exists r. split; [exact Hr|].
        replace (i + Z.of_nat (S k)) with (i + 1 + Z.of_nat k) by lia.
        cbn [entries_from firstn added app length]. split; [lia|].
        destruct Htail as [->|[-> Hshort]]; [now left|].
        right. split; [reflexivity | lia].
    + apply Z.leb_gt in Hfit.
      destruct (total_chars + Text.len separator + Text.len (short_of i res)
                <=? max_chars) eqn:Hshort.
      * apply Z.leb_le in Hshort.
        exists 0%nat, [short_of i res]. cbn [entries_from firstn added app length].
        split; [lia|]. split; [reflexivity|]. split; [intros _; lia|].
        right. exists res. replace (i + Z.of_nat 0) with i by lia.
        split; [reflexivity|]. split; [lia | now left].
      * apply Z.leb_gt in Hshort.
        exists 0%nat, []. cbn [entries_from firstn added app length]. rewrite app_nil_r.
        split; [lia|]. split; [reflexivity|]. split; [intros; lia|].
        right. exists res. replace (i + Z.of_nat 0) with i by lia.
        split; [reflexivity|]. split; [lia|]. right. split; [reflexivity | lia].
Qed.

Lemma len_text l : Text.len (Text.text l) = Z.of_nat (length l).
Proof.
  unfold Text.len, Text.text. f_equal.
  induction l as [|c l IH]; simpl; [reflexivity | now rewrite IH].
Qed.

Lemma length_chars s : length (Text.chars s) = String.length s.
Proof.
  unfold Text.chars. induction s as [|c s IH]; simpl; [reflexivity | now rewrite IH].
Qed.

Lemma len_take_prefix n s :
  0 <= n <= Text.len s -> Text.len (Text.take_prefix n s) = n.
Proof.
  intros Hn. unfold Text.take_prefix. rewrite len_text, length_take, length_chars.
  unfold Text.len in Hn. lia.
Qed.

(** The first entry alone is over the budget: the output is its
    truncated form, three characters over the budget when some content
    is kept, and the bare header otherwise. *)
Lemma format_first_too_long res more max_chars :
  max_chars < Text.len (entry_of 0 res) ->
  format_web_results_for_llm (res :: more) max_chars = truncated_of max_chars res /\
  Text.len (truncated_of max_chars res) =
  if max_chars - Text.len (first_header res) >? 3
  then max_chars + 3
  else Text.len (first_header res).
Proof.
  intros Hlong. split.
  - unfold format_web_results_for_llm. rewrite format_loop_cons.
    change (0 =? 0) with true. cbv iota.
    replace (Text.len (entry_of 0 res) <=? max_chars) with false
      by (symmetry; apply Z.leb_gt; exact Hlong).
    reflexivity.
  - unfold truncated_of. cbv zeta.
    destruct (max_chars - Text.len (first_header res) >? 3) eqn:Hav.
    + rewrite !len_append, len_take_prefix.
      * change (Text.len "...") with 3. lia.
      * unfold entry_of in Hlong. rewrite len_append in Hlong.
        fold (first_header res) in Hlong.
        apply Z.gtb_lt in Hav. lia.
    + rewrite len_append. change (Text.len "") with 0. lia.
Qed.

End FormatFacts.

(** C8, as it stands, fails on the empty list: the fixed sentence returned
    for it is 28 characters long whatever the budget, 10 included. *)
Lemma format_empty_over_budget : ~ budget_respected [] 10.
Proof.
  unfold budget_respected. intros [H|(res & more & H & _)].
  - vm_compute in H. now apply H.
  - discriminate H.
Qed.

(** A non-empty list: the budget is respected up to the overflow of a
    truncated first entry, and the entries are taken greedily. *)
Lemma format_nonempty_budget (res : gmap string string)
        (more : list (gmap string string)) (max_chars : Z) :
  let results := res :: more in
  let out := format_web_results_for_llm results max_chars in
  budget_respected results max_chars /\
  (max_chars < Text.len (entry_of 0 res) ->
   out = truncated_of max_chars res /\
   Text.len out = if max_chars - Text.len (first_header res) >? 3
                  then max_chars + 3
                  else Text.len (first_header res)) /\
  (Text.len (entry_of 0 res) <= max_chars ->
   Text.len out <= max_chars /\
   exists (k : nat) (tail : list string),
     (1 <= k <= length results)%nat /\
     out = join separator (take k (entries_from 0 results) ++ tail) /\
     ((k = length results /\ tail = []) \/
      exists r,
        results !! k = Some r /\
        max_chars <
          Text.len (join separator (take k (entries_from 0 results)
                                      ++ [entry_of (Z.of_nat k) r])) /\
        (tail = [short_of (Z.of_nat k) r] \/
         (tail = [] /\
          max_chars <
            Text.len (join separator (take k (entries_from 0 results)
                                        ++ [short_of (Z.of_nat k) r])))))).
Proof.
  intros results out.
  assert (Hlong :
    max_chars < Text.len (entry_of 0 res) ->
    out = truncated_of max_chars res /\
    Text.len out = if max_chars - Text.len (first_header res) >? 3
                   then max_chars + 3
                   else Text.len (first_header res)).
  { intros H. destruct (format_first_too_long res more max_chars H) as [E L].
    subst out results. now rewrite E. }
  assert (Hfits :
    Text.len (entry_of 0 res) <= max_chars ->
    Text.len out <= max_chars /\
    exists (k : nat) (tail : list string),
      (1 <= k <= length results)%nat /\
      out = join separator (take k (entries_from 0 results) ++ tail) /\
      ((k = length results /\ tail = []) \/
       exists r,
         results !! k = Some r /\
         max_chars <
           Text.len (join separator (take k (entries_from 0 results)
                                       ++ [entry_of (Z.of_nat k) r])) /\
         (tail = [short_of (Z.of_nat k) r] \/
          (tail = [] /\
           max_chars <
             Text.len (join separator (take k (entries_from 0 results)
                                         ++ [short_of (Z.of_nat k) r])))))).
  { intros Hfit. pose proof (len_entry_pos 0 res) as Hpos.
    destruct (format_loop_rest max_chars more 1 [entry_of 0 res]
                (Text.len (entry_of 0 res)) Hpos)
      as (k & tail & Hk & Heq & Hbound & Hstop).
    assert (Hout : out = join separator
                           (entry_of 0 res :: take k (entries_from 1 more) ++ tail)).
    { subst out results. unfold format_web_results_for_llm.
      rewrite format_loop_cons. change (0 =? 0) with true. cbv iota.
      replace (Text.len (entry_of 0 res) <=? max_chars) with true
        by (symmetry; apply Z.leb_le; exact Hfit).
      change (0 + 1) with 1. change ([] ++ [entry_of 0 res]) with [entry_of 0 res].
      rewrite Z.add_0_l, Heq. reflexivity. }
    split.
    - rewrite Hout, len_join_cons. now apply Hbound.
    - exists (S k), tail. split; [simpl; lia|]. split; [exact Hout|].
      destruct Hstop as [[-> ->]|(r & Hr & Hover & Htail)]; [now left|].
      right. exists r. split; [exact Hr|].
      replace (Z.of_nat (S k)) with (1 + Z.of_nat k) by lia.
      change (take (S k) (entries_from 0 results))
        with (entry_of 0 res :: take k (entries_from 1 more)).
      rewrite <- !app_comm_cons, !len_join_cons, !added_app. simpl.
      split; [lia|].
      destruct Htail as [->|[-> Hshort]]; [now left|].
      right. split; [reflexivity | lia]. }
  split; [|split; assumption].
  unfold budget_respected. fold results. fold out.
  destruct (Z_lt_le_dec max_chars (Text.len (entry_of 0 res))) as [H|H].
  - right. exists res, more. split; [reflexivity|]. split; [exact H|].
    now apply Hlong.
  - left. now apply Hfits.
Qed.

(** C8 (amended): for every non-empty list of results and every budget
    the output exceeds the budget by no more than the overflow of a single
    truncated first entry: when the first entry alone exceeds the budget,
    it is returned alone with its content truncated (three characters
    over the budget when some content is kept, the bare header
    otherwise); when it fits, the output fits the budget and joins the
    first [k] whole entries, in input order, and at most one title-only
    entry, stopping at the first entry that would overflow, which it
    retries in title-only form.  For the empty list the output is the
    fixed sentence [No web search results found.], 28 characters long,
    whatever the budget. *)
Theorem format_web_results_budget
        (search_results : list (gmap string string)) (max_chars : Z) :
  let out := format_web_results_for_llm search_results max_chars in
  (search_results = [] ->
   out = "No web search results found." /\ Text.len out = 28) /\
  (forall res more,
      search_results = res :: more ->
      budget_respected search_results max_chars /\
      (max_chars < Text.len (entry_of 0 res) ->
       out = truncated_of max_chars res /\
       Text.len out = if max_chars - Text.len (first_header res) >? 3
                      then max_chars + 3
                      else Text.len (first_header res)) /\
      (Text.len (entry_of 0 res) <= max_chars ->
       Text.len out <= max_chars /\
       exists (k : nat) (tail : list string),
         (1 <= k <= length search_results)%nat /\
         out = join separator (take k (entries_from 0 search_results) ++ tail) /\
         ((k = length search_results /\ tail = []) \/
          exists r,
            search_results !! k = Some r /\
            max_chars <
              Text.len (join separator (take k (entries_from 0 search_results)
                                          ++ [entry_of (Z.of_nat k) r])) /\
            (tail = [short_of (Z.of_nat k) r] \/
             (tail = [] /\
              max_chars <
                Text.len (join separator
                            (take k (entries_from 0 search_results)
                               ++ [short_of (Z.of_nat k) r]))))))).
Proof.
  intros out. subst out. split.
  - intros ->. split; [reflexivity | vm_compute; reflexivity].
  - intros res more ->. apply format_nonempty_budget.
Qed.

Lemma format_web_results_budget_witness :
  Text.len (format_web_results_for_llm [] 10) = 28 /\
  Text.len (entry_of 0 (demo_result "T" "u" "abc")) <= 100 /\
  Text.len (format_web_results_for_llm
              [demo_result "T" "u" "abc";
               demo_result "T2" "u2" "0123456789abcdefghij0123456789abcdefghij";
               demo_result "T3" "u3" "abc"] 100) <= 100 /\
  40 < Text.len (entry_of 0 (demo_result "T" "u" "0123456789abcdefghij")) /\
  format_web_results_for_llm [demo_result "T" "u" "0123456789abcdefghij"] 40
  = truncated_of 40 (demo_result "T" "u" "0123456789abcdefghij").
Proof.
  assert (H1 : Text.len (entry_of 0 (demo_result "T" "u" "abc")) <= 100)
    by (vm_compute; discriminate).
  assert (H2 : 40 < Text.len (entry_of 0 (demo_result "T" "u" "0123456789abcdefghij")))
    by (vm_compute; reflexivity).
  split; [|split; [exact H1|]; split; [|split; [exact H2|]]].
  - apply (proj2 (proj1 (format_web_results_budget [] 10) eq_refl)).
  - apply (proj1 (proj2 (proj2 (proj2 (format_web_results_budget
                                         [demo_result "T" "u" "abc";
                                          demo_result "T2" "u2"
                                            "0123456789abcdefghij0123456789abcdefghij";
                                          demo_result "T3" "u3" "abc"] 100)
                                  _ _ eq_refl)) H1)).
  - apply (proj1 (proj1 (proj2 (proj2 (format_web_results_budget
                                         [demo_result "T" "u" "0123456789abcdefghij"]
                                         40)
                                  _ _ eq_refl)) H2)).
Defined.

(** ** The turn controller *)

Section EngineFacts.

Variable w : World.

Lemma turn_unfold req :
  turn w req =
  match main_logic w req (initial_locals req) [] with
  | (Return l, tr) => (Return (assemble req (ensure_content l)), tr)
  | (Raised e, tr) =>
      (Return (assemble req (ensure_content (server_error e))), tr)
  end.
Proof.
  unfold turn, chat_endpoint, bind, try_except, ret.
  now destruct (main_logic w req (initial_locals req) []) as [[l|e] tr].
Qed.

Lemma ts_state_ensure_content l : ts_state (ensure_content l) = ts_state l.
Proof.
  unfold ensure_content.
  now destruct (Text.is_empty (assistant_response_content l)).
Qed.

Lemma ensure_content_id l :
  Text.is_empty (assistant_response_content l) = false -> ensure_content l = l.
Proof. unfold ensure_content. now intros ->. Qed.

(** Every path of the RAG branch hands the state back as it came. *)
Lemma rag_call_and_fallback_state prompt cp h init tr l tr' :
  rag_call_and_fallback w prompt cp h init tr = (Return l, tr') ->
  ts_state l = ts_state init.
Proof.
  unfold rag_call_and_fallback, bind, try_except, ret.
  destruct (invoke_rag_chain w cp h tr) as [[resp|e] tr1].
  - destruct (Text.truthy (Text.strip (get_or resp "answer" ""))
              && is_rag_answer_sufficient (Text.strip (get_or resp "answer" "")))%bool.
    + now intros [= <- <-].
    + destruct (tool_available w).
      * destruct (perform_web_search_and_synthesis w prompt tr1) as [[r|e] tr2];
          now intros [= <- <-].
      * now intros [= <- <-].
  - now intros [= <- <-].
Qed.

(** What each strategy tells about the turn it was chosen for. *)
Ltac plan_step :=
  cbn [andb negb orb strategy needs_rag_call contextual_prompt problem_name
       current_step detected_problem truthy_opt].

Lemma determine_strategy_solved ts prompt :
  strategy (determine_strategy w ts prompt) = solved ->
  TroubleshootingState.is_active ts = true.
Proof.
  unfold determine_strategy.
  destruct (TroubleshootingState.is_active ts); [reflexivity|]. plan_step.
  destruct (odict.is_empty (problem_dict w)); plan_step; [discriminate|].
  now destruct (truthy_opt (detect_problem prompt (problem_dict w))
                && is_asking_for_help prompt)%bool.
Qed.

Lemma determine_strategy_next_step ts prompt :
  strategy (determine_strategy w ts prompt) = next_step ->
  TroubleshootingState.is_active ts = true /\
  TroubleshootingState.current_problem ts
  = Some (problem_name (determine_strategy w ts prompt)).
Proof.
  unfold determine_strategy.
  destruct (TroubleshootingState.is_active ts); plan_step.
  - destruct (TroubleshootingState.current_problem ts) as [p|]; plan_step.
    + destruct (Text.truthy p); plan_step.
      * destruct (is_problem_solved prompt); plan_step; [discriminate|].
        now destruct (is_problem_not_solved prompt).
      * discriminate.
    + discriminate.
  - destruct (odict.is_empty (problem_dict w)); plan_step; [discriminate|].
    now destruct (truthy_opt (detect_problem prompt (problem_dict w))
                  && is_asking_for_help prompt)%bool.
Qed.

Lemma determine_strategy_start ts prompt :
  strategy (determine_strategy w ts prompt) = start_troubleshooting <->
  TroubleshootingState.is_active ts = false /\
  odict.is_empty (problem_dict w) = false /\
  truthy_opt (detect_problem prompt (problem_dict w)) = true /\
  is_asking_for_help prompt = true.
Proof.
  unfold determine_strategy.
  destruct (TroubleshootingState.is_active ts); plan_step.
  - split; [|now intros [? _]].
    destruct (truthy_opt (TroubleshootingState.current_problem ts));
      plan_step; [|discriminate].
    destruct (is_problem_solved prompt); [discriminate|].
    now destruct (is_problem_not_solved prompt).
  - destruct (odict.is_empty (problem_dict w)); plan_step.
    + split; [discriminate | now intros (_ & ? & _)].
    + destruct (detect_problem prompt (problem_dict w)) as [k|]; plan_step.
      * destruct (Text.truthy k); plan_step.
        -- destruct (is_asking_for_help prompt); plan_step; [now split|].
           split; [discriminate | now intros (_ & _ & _ & ?)].
        -- split; [discriminate | now intros (_ & _ & ? & _)].
      * split; [discriminate | now intros (_ & _ & ? & _)].
Qed.

Lemma determine_strategy_detected ts prompt :
  strategy (determine_strategy w ts prompt) = start_troubleshooting ->
  detected_problem (determine_strategy w ts prompt)
  = detect_problem prompt (problem_dict w).
Proof.
  unfold determine_strategy.
  destruct (TroubleshootingState.is_active ts
            && truthy_opt (TroubleshootingState.current_problem ts))%bool.
  - destruct (is_problem_solved prompt); [discriminate|].
    now destruct (is_problem_not_solved prompt).
  - destruct (negb (TroubleshootingState.is_active ts)
              && negb (odict.is_empty (problem_dict w)))%bool; [|discriminate].
    now destruct (truthy_opt (detect_problem prompt (problem_dict w))
                  && is_asking_for_help prompt)%bool.
Qed.

Lemma get_next_solution_step_known name cur n t c :
  get_next_solution_step (problem_dict w) name cur = (Some n, t, c) ->
  name ∈ odict.keys (problem_dict w).
Proof.
  unfold get_next_solution_step.
  destruct (odict.get (problem_dict w) name) as [e|] eqn:E; [|discriminate].
  intros _. eapply odict_get_in_keys, E.
Qed.

Lemma next_step_reply_state ts name cur :
  TroubleshootingState.is_active ts = true ->
  TroubleshootingState.current_problem ts = Some name ->
  let ts' := ts_state (next_step_reply w ts name cur) in
  ts' = TroubleshootingState.default \/ active_on_catalog w ts'.
Proof.
  intros Hact Hpb. unfold next_step_reply.
  destruct (get_next_solution_step (problem_dict w) name cur)
    as [[num txt] cause] eqn:E.
  destruct (truthy_num num && truthy_opt txt)%bool eqn:Ht.
  - right. destruct num as [n|]; [|discriminate Ht].
    split; [exact Hact|]. exists name. split; [exact Hpb|].
    eapply get_next_solution_step_known, E.
  - left. now destruct (tool_available w).
Qed.

Lemma start_troubleshooting_reply_state p :
  p ∈ odict.keys (problem_dict w) ->
  let ts' := ts_state (start_troubleshooting_reply w p) in
  ts' = TroubleshootingState.default \/ active_on_catalog w ts'.
Proof.
  intros Hp. unfold start_troubleshooting_reply.
  destruct (odict.get (problem_dict w) p) as [e|]; [|now left].
  destruct (bool_decide (e = ∅)); [now left|].
  destruct (get_next_solution_step (problem_dict w) p 0)
    as [[num txt] cause].
  destruct (truthy_num num && truthy_opt txt)%bool.
  - right. split; [reflexivity|]. now exists p.
  - left. now destruct (tool_available w).
Qed.

(** The state after the body of the outer [try]. *)
Lemma main_logic_state req l tr :
  main_logic w req (initial_locals req) [] = (Return l, tr) ->
  ts_transition w (ChatRequest.troubleshooting_state req) (ts_state l).
Proof.
  unfold main_logic.
  destruct (ChatRequest.force_web_search req).
  - unfold bind, ret.
    destruct (match tavily_tool w with
              | Some _ => perform_web_search_and_synthesis w (ChatRequest.prompt req)
              | None => _
              end []) as [[r|e] tr1]; [|discriminate].
    intros [= <- <-]. now left.
  - set (ts := ChatRequest.troubleshooting_state req).
    change (ts_state (initial_locals req)) with ts.
    set (p := determine_strategy w ts (ChatRequest.prompt req)).
    destruct (strategy p) eqn:Hs.
    + destruct (needs_rag_call p).
      * intros H. apply rag_call_and_fallback_state in H. right; now left.
      * simpl. intros [= <- <-]. right; now left.
    + intros [= <- <-]. now left.
    + intros [= <- <-].
      destruct (determine_strategy_next_step ts _ Hs) as [Hact Hpb].
      destruct (next_step_reply_state ts (problem_name p) (current_step p)
                  Hact Hpb) as [H|H]; [now left | right; now right].
    + destruct (needs_rag_call p).
      * intros H. apply rag_call_and_fallback_state in H. right; now left.
      * simpl. intros [= <- <-]. right; now left.
    + intros [= <- <-].
      pose proof (determine_strategy_detected ts _ Hs) as Hdet.
      apply determine_strategy_start in Hs as (_ & _ & Htr & _).
      fold p in Hdet. rewrite Hdet.
      destruct (detect_problem (ChatRequest.prompt req) (problem_dict w))
        as [k|] eqn:Hk; [|discriminate Htr].
      apply detect_problem_in_keys in Hk.
      destruct (start_troubleshooting_reply_state k Hk) as [H|H];
        [now left | right; now right].
Qed.

Lemma ts_transition_invariant ts ts' :
  ts_invariant ts -> ts_transition w ts ts' -> ts_invariant ts'.
Proof.
  intros Hinv [->|[->|(Hact & p & Hp & _)]]; [|exact Hinv|].
  - split; [intros [x Hx]; discriminate Hx | discriminate].
  - unfold ts_invariant. rewrite Hp, Hact. split; [reflexivity | now eexists].
Qed.

(** A turn always answers, and its state is a transition of the state
    it was given. *)
Lemma turn_state req :
  exists resp tr,
    turn w req = (Return resp, tr) /\
    ts_transition w (ChatRequest.troubleshooting_state req)
                  (ChatResponse.troubleshooting_state resp).
Proof.
  rewrite turn_unfold.
  destruct (main_logic w req (initial_locals req) []) as [[l|e] tr] eqn:E.
  - eexists _, _. split; [reflexivity|]. simpl.
    rewrite ts_state_ensure_content. eapply main_logic_state, E.
  - eexists _, _. split; [reflexivity|]. simpl. now left.
Qed.

Lemma main_logic_forced req l tr :
  ChatRequest.force_web_search req = true ->
  main_logic w req (initial_locals req) [] = (Return l, tr) ->
  ts_state l = TroubleshootingState.default.
Proof.
  intros Hf. unfold main_logic. rewrite Hf. unfold bind, ret.
  destruct (match tavily_tool w with
            | Some _ => perform_web_search_and_synthesis w (ChatRequest.prompt req)
            | None => _
            end []) as [[r|e] tr1]; [|discriminate].
  now intros [= <- <-].
Qed.

Lemma main_logic_solved req l tr :
  ChatRequest.force_web_search req = false ->
  strategy (determine_strategy w (ChatRequest.troubleshooting_state req)
                               (ChatRequest.prompt req)) = solved ->
  main_logic w req (initial_locals req) [] = (Return l, tr) ->
  ts_state l = TroubleshootingState.default.
Proof.
  intros Hf Hs. unfold main_logic. rewrite Hf.
  change (ts_state (initial_locals req))
    with (ChatRequest.troubleshooting_state req).
  rewrite Hs. now intros [= <- <-].
Qed.

Lemma main_logic_no_more_steps req l tr :
  ChatRequest.force_web_search req = false ->
  let p := determine_strategy w (ChatRequest.troubleshooting_state req)
                              (ChatRequest.prompt req) in
  strategy p = next_step ->
  fst (fst (get_next_solution_step (problem_dict w) (problem_name p)
                                   (current_step p))) = None ->
  main_logic w req (initial_locals req) [] = (Return l, tr) ->
  ts_state l = TroubleshootingState.default.
Proof.
  intros Hf p Hs Hnone. unfold main_logic. rewrite Hf.
  change (ts_state (initial_locals req))
    with (ChatRequest.troubleshooting_state req).
  fold p. rewrite Hs. intros [= <- <-]. unfold next_step_reply.
  destruct (get_next_solution_step (problem_dict w) (problem_name p)
                                   (current_step p)) as [[num txt] cause].
  simpl in Hnone. subst num. cbn [truthy_num andb].
  now destruct (tool_available w).
Qed.

(** The retrieval chain is called on the two RAG strategies only. *)
Lemma needs_rag_call_strategy ts prompt :
  needs_rag_call (determine_strategy w ts prompt) = true ->
  strategy (determine_strategy w ts prompt) = rag \/
  strategy (determine_strategy w ts prompt) = rag_troubleshooting_context.
Proof.
  unfold determine_strategy.
  destruct (TroubleshootingState.is_active ts
            && truthy_opt (TroubleshootingState.current_problem ts))%bool.
  - destruct (is_problem_solved prompt); [discriminate|].
    destruct (is_problem_not_solved prompt); [discriminate | now right].
  - destruct (negb (TroubleshootingState.is_active ts)
              && negb (odict.is_empty (problem_dict w)))%bool; [|now left].
    destruct (truthy_opt (detect_problem prompt (problem_dict w))
              && is_asking_for_help prompt)%bool; [discriminate | now left].
Qed.

Lemma main_logic_rag req :
  rag_turn w req ->
  main_logic w req (initial_locals req) [] =
  rag_call_and_fallback w (ChatRequest.prompt req)
    (contextual_prompt
       (determine_strategy w (ChatRequest.troubleshooting_state req)
                           (ChatRequest.prompt req)))
    (ChatRequest.history req) (initial_locals req) [].
Proof.
  intros [Hf Hn]. unfold main_logic. rewrite Hf.
  change (ts_state (initial_locals req))
    with (ChatRequest.troubleshooting_state req).
  rewrite Hn. now destruct (needs_rag_call_strategy _ _ Hn) as [-> | ->].
Qed.

(** The retrieval call leaves no web event behind. *)
Lemma invoke_rag_chain_events q h o tr :
  invoke_rag_chain w q h [] = (o, tr) ->
  Forall (fun ev => is_web_event ev = false) tr.
Proof.
  unfold invoke_rag_chain, try_except, call, raise.
  destruct (chain_has_ainvoke w).
  - destruct (chain_ainvoke w (rag_question q) h); intros [= <- <-];
      repeat constructor.
  - intros [= <- <-]. repeat constructor.
Qed.

Lemma no_web_event tr :
  Forall (fun ev => is_web_event ev = false) tr ->
  ~ Exists (fun ev => is_web_event ev = true) tr.
Proof.
  intros Hall Hex. apply Exists_exists in Hex as (ev & Hin & Hev).
  rewrite Forall_forall in Hall. rewrite (Hall ev Hin) in Hev. discriminate.
Qed.

Lemma rag_failure_source e :
  snd (rag_failure e) =
  if is_rate_limit_error e then "Error (Rate Limited)" else "Error (RAG Failure)".
Proof.
  unfold rag_failure, is_rate_limit_error.
  destruct (is_resource_exhausted e); [reflexivity|].
  destruct (cause_of e) as [c|]; [|reflexivity].
  now destruct (is_resource_exhausted c).
Qed.

Lemma rag_failure_content e :
  Text.is_empty (fst (rag_failure e)) = false.
Proof.
  unfold rag_failure.
  destruct (is_resource_exhausted e); [reflexivity|].
  destruct (cause_of e) as [c|]; [|reflexivity].
  now destruct (is_resource_exhausted c).
Qed.

End EngineFacts.

(** C1: on a RAG turn, when the retrieval call raises, the turn ends on
    the label of the failure class ([Error (Rate Limited)] for a quota
    exhaustion, direct or as the cause; [Error (RAG Failure)] otherwise)
    and no call of the web-search path is made; such a call is made only
    after a retrieval that returned an empty or insufficient answer. *)
Theorem rag_failure_skips_fallback (w : World) (req : ChatRequest.t) :
  rag_turn w req ->
  exists resp tr,
    turn w req = (Return resp, tr) /\
    (forall e,
        retrieval_outcome w req = Raised e ->
        ChatResponse.final_answer_source resp =
        (if is_rate_limit_error e
         then "Error (Rate Limited)" else "Error (RAG Failure)") /\
        Forall (fun ev => is_web_event ev = false) tr) /\
    (Exists (fun ev => is_web_event ev = true) tr ->
     exists rag_response,
       retrieval_outcome w req = Return rag_response /\
       let rag_answer := Text.strip (get_or rag_response "answer" "") in
       rag_answer = "" \/ is_rag_answer_sufficient rag_answer = false).
Proof.
  intros Hrag. rewrite turn_unfold, (main_logic_rag w req Hrag).
  unfold retrieval_outcome.
  set (cp := contextual_prompt _).
  unfold rag_call_and_fallback, bind, try_except, ret.
  destruct (invoke_rag_chain w cp (ChatRequest.history req) []) as [[resp|e] tr1]
    eqn:Hcall.
  - cbn [fst].
    set (a := Text.strip (get_or resp "answer" "")).
    destruct (Text.truthy a && is_rag_answer_sufficient a)%bool eqn:Hok.
    + eexists _, _. split; [reflexivity|]. split; [discriminate|].
      intros Hex. exfalso.
      eapply no_web_event; [eapply invoke_rag_chain_events, Hcall | exact Hex].
    + assert (Hweak : a = "" \/ is_rag_answer_sufficient a = false).
      { apply andb_false_iff in Hok as [Ht|Hs]; [left | now right].
        destruct a; [reflexivity | discriminate Ht]. }
      destruct (tool_available w).
      * destruct (perform_web_search_and_synthesis w (ChatRequest.prompt req) tr1)
          as [[r|e] tr2];
          (eexists _, _; split; [reflexivity|]; split; [discriminate|];
           intros _; now exists resp).
      * eexists _, _. split; [reflexivity|]. split; [discriminate|].
        intros _. now exists resp.
  - cbn [fst]. eexists _, _. split; [reflexivity|]. split.
    + intros e' [= <-]. split.
      * rewrite ensure_content_id by apply rag_failure_content.
        apply rag_failure_source.
      * eapply invoke_rag_chain_events, Hcall.
    + intros Hex. exfalso.
      eapply no_web_event; [eapply invoke_rag_chain_events, Hcall | exact Hex].
Qed.

Lemma rag_failure_skips_fallback_witness :
  rag_turn demo_world
    (demo_request "what is a ship" TroubleshootingState.default false) /\
  exists resp tr,
    turn demo_world
      (demo_request "what is a ship" TroubleshootingState.default false)
    = (Return resp, tr) /\
    ChatResponse.final_answer_source resp = "Error (Rate Limited)" /\
    Forall (fun ev => is_web_event ev = false) tr.
Proof.
  assert (H : rag_turn demo_world
                (demo_request "what is a ship" TroubleshootingState.default false))
    by (split; vm_compute; reflexivity).
  split; [exact H|].
  destruct (rag_failure_skips_fallback demo_world _ H)
    as (resp & tr & Hturn & Hfail & _).
  exists resp, tr. split; [exact Hturn|].
  apply (Hfail (Exc OtherError "RuntimeError" "chain failed" (Some quota_exhausted))).
  vm_compute. reflexivity.
Defined.

(** C6: a turn given a state that satisfies the invariant hands back a
    state that satisfies it.  The state handed back is the empty state (a
    reset: inactive, no problem), the state as it came, or an active state
    whose problem is a key of the catalog (an activation or a step
    advance); a forced web search, the solved strategy and a next-step
    turn with no step left all reset it. *)
Theorem troubleshooting_invariant_preserved (w : World) (req : ChatRequest.t) :
  ts_invariant (ChatRequest.troubleshooting_state req) ->
  exists resp tr,
    turn w req = (Return resp, tr) /\
    let ts := ChatRequest.troubleshooting_state req in
    let ts' := ChatResponse.troubleshooting_state resp in
    let p := determine_strategy w ts (ChatRequest.prompt req) in
    ts_invariant ts' /\
    ts_transition w ts ts' /\
    (ts' = TroubleshootingState.default ->
     TroubleshootingState.is_active ts' = false /\
     TroubleshootingState.current_problem ts' = None) /\
    (ts' <> TroubleshootingState.default -> ts' <> ts -> active_on_catalog w ts') /\
    (ChatRequest.force_web_search req = true -> ts' = TroubleshootingState.default) /\
    (ChatRequest.force_web_search req = false ->
     strategy p = solved -> ts' = TroubleshootingState.default) /\
    (ChatRequest.force_web_search req = false ->
     strategy p = next_step ->
     fst (fst (get_next_solution_step (problem_dict w) (problem_name p)
                                      (current_step p))) = None ->
     ts' = TroubleshootingState.default).
Proof.
  intros Hinv.
  destruct (turn_state w req) as (resp & tr & Hturn & Htrans).
  exists resp, tr. split; [exact Hturn|].
  rewrite turn_unfold in Hturn.
  destruct (main_logic w req (initial_locals req) []) as [[l|e] tr1] eqn:Hmain;
    injection Hturn as <- <-; cbn [ChatResponse.troubleshooting_state assemble].
  - rewrite ts_state_ensure_content.
    cbn [ChatResponse.troubleshooting_state assemble] in Htrans.
    rewrite ts_state_ensure_content in Htrans.
    split; [apply (ts_transition_invariant w _ _ Hinv Htrans)|].
    split; [exact Htrans|]. split; [now intros ->|]. split.
    { intros H1 H2. destruct Htrans as [H|[H|H]]; [contradiction..|exact H]. }
    split; [intros Hf; eapply main_logic_forced; eassumption|].
    split; [intros Hf Hs; eapply main_logic_solved; eassumption|].
    intros Hf Hs Hnone.
    eapply (main_logic_no_more_steps w req l tr1 Hf Hs Hnone), Hmain.
  - change (ts_state (ensure_content (server_error e)))
      with (ts_state (server_error e)).
    cbn [ts_state server_error].
    split; [apply (ts_transition_invariant w _ _ Hinv); now left|].
    split; [now left|]. split; [now intros _|]. split; [now intros H|].
    repeat split; reflexivity.
Qed.

Lemma troubleshooting_invariant_preserved_witness :
  ts_invariant (TroubleshootingState.Make true (Some "pump overheating") 1) /\
  exists resp tr,
    turn demo_world
      (demo_request "nope"
         (TroubleshootingState.Make true (Some "pump overheating") 1) false)
    = (Return resp, tr) /\
    ts_invariant (ChatResponse.troubleshooting_state resp).
Proof.
  assert (H : ts_invariant
                (TroubleshootingState.Make true (Some "pump overheating") 1))
    by (split; [reflexivity | intros _; now eexists]).
  split; [exact H|].
  destruct (troubleshooting_invariant_preserved demo_world
              (demo_request "nope"
                 (TroubleshootingState.Make true (Some "pump overheating") 1)
                 false) H)
    as (resp & tr & Hturn & Hinv & _).
  exists resp, tr. split; [exact Hturn | exact Hinv].
Defined.

(** C9: a turn with [force_web_search] set hands back the empty state
    whatever state it was given; when no search tool is configured it
    answers with the disabled message under the label
    [Web Search Disabled] and calls no collaborator. *)
Theorem forced_web_search_resets (w : World) (req : ChatRequest.t) :
  ChatRequest.force_web_search req = true ->
  exists resp tr,
    turn w req = (Return resp, tr) /\
    ChatResponse.troubleshooting_state resp = TroubleshootingState.default /\
    (tavily_tool w = None ->
     ChatResponse.answer resp =
       "Web search was requested, but it is currently disabled (missing API key or initialization error)." /\
     ChatResponse.final_answer_source resp = "Web Search Disabled" /\
     tr = []).
Proof.
  intros Hf. rewrite turn_unfold.
  destruct (main_logic w req (initial_locals req) []) as [[l|e] tr] eqn:Hmain.
  - eexists _, _. split; [reflexivity|].
    cbn [ChatResponse.troubleshooting_state ChatResponse.answer
         ChatResponse.final_answer_source assemble].
    rewrite ts_state_ensure_content.
    split; [eapply main_logic_forced; eassumption|].
    intros Hnone. unfold main_logic in Hmain. rewrite Hf, Hnone in Hmain.
    injection Hmain as <- <-. repeat split; reflexivity.
  - eexists _, _. split; [reflexivity|]. split; [reflexivity|].
    intros Hnone. unfold main_logic in Hmain. rewrite Hf, Hnone in Hmain.
    discriminate Hmain.
Qed.

Lemma forced_web_search_resets_witness :
  exists resp,
    turn demo_world
      (demo_request "nope"
         (TroubleshootingState.Make true (Some "pump overheating") 2) true)
    = (Return resp, []) /\
    ChatResponse.troubleshooting_state resp = TroubleshootingState.default /\
    ChatResponse.final_answer_source resp = "Web Search Disabled".
Proof.
  destruct (forced_web_search_resets demo_world
              (demo_request "nope"
                 (TroubleshootingState.Make true (Some "pump overheating") 2) true)
              eq_refl)
    as (resp & tr & Hturn & Hts & Hoff).
  destruct (Hoff eq_refl) as (_ & Hsrc & ->).
  exists resp. split; [exact Hturn|]. split; [exact Hts | exact Hsrc].
Defined.

Section StartFacts.

Variable w : World.

Lemma rag_call_and_fallback_returns prompt cp h init tr :
  exists l tr', rag_call_and_fallback w prompt cp h init tr = (Return l, tr').
Proof.
  unfold rag_call_and_fallback, bind, try_except, ret.
  destruct (invoke_rag_chain w cp h tr) as [[resp|e] tr1].
  - destruct (Text.truthy (Text.strip (get_or resp "answer" ""))
              && is_rag_answer_sufficient (Text.strip (get_or resp "answer" "")))%bool.
    + now eexists _, _.
    + destruct (tool_available w).
      * destruct (perform_web_search_and_synthesis w prompt tr1) as [[r|e] tr2];
          now eexists _, _.
      * now eexists _, _.
  - now eexists _, _.
Qed.

Lemma determine_strategy_no_help ts prompt :
  TroubleshootingState.is_active ts = false ->
  is_asking_for_help prompt = false ->
  needs_rag_call (determine_strategy w ts prompt) = true.
Proof.
  intros Hact Hhelp. unfold determine_strategy. rewrite Hact, Hhelp.
  cbn [andb negb].
  destruct (odict.is_empty (problem_dict w)); cbn [negb]; [reflexivity|].
  now rewrite andb_false_r.
Qed.

Lemma determine_strategy_started ts prompt p :
  TroubleshootingState.is_active ts = false ->
  detect_problem prompt (problem_dict w) = Some p ->
  p <> "" ->
  is_asking_for_help prompt = true ->
  determine_strategy w ts prompt
  = Plan start_troubleshooting false prompt "" 0 (Some p).
Proof.
  intros Hact Hdet Hp Hhelp. unfold determine_strategy.
  rewrite Hact, Hdet, Hhelp. cbn [andb negb truthy_opt].
  destruct (odict.is_empty (problem_dict w)) eqn:Hemp.
  - unfold detect_problem in Hdet. rewrite Hemp in Hdet. discriminate Hdet.
  - cbn [negb]. apply truthy_true in Hp. now rewrite Hp.
Qed.

Lemma odict_is_empty_false {V} (d : odict.t V) :
  odict.is_empty d = false <-> d <> [].
Proof. destruct d; simpl; split; congruence. Qed.

End StartFacts.

(** C2: the start-troubleshooting strategy is chosen exactly when the
    state is inactive, the catalog is not empty, [detect_problem] finds a
    problem and [is_asking_for_help] holds of the prompt.  When, moreover,
    the problem found has a first non-empty step, the turn hands back the
    active state on that problem at the index of that step, under the
    label [Troubleshooting Start].  Without a help-seeking phrasing an
    inactive state is handed back as it came. *)
Theorem start_troubleshooting_spec (w : World) (src : csv_source)
        (req : ChatRequest.t) :
  problem_dict w = load_problem_data_dict src ->
  ChatRequest.force_web_search req = false ->
  let ts := ChatRequest.troubleshooting_state req in
  let prompt := ChatRequest.prompt req in
  let d := problem_dict w in
  (strategy (determine_strategy w ts prompt) = start_troubleshooting <->
   TroubleshootingState.is_active ts = false /\
   d <> [] /\
   is_Some (detect_problem prompt d) /\
   is_asking_for_help prompt = true) /\
  (forall p e n,
      TroubleshootingState.is_active ts = false ->
      detect_problem prompt d = Some p ->
      is_asking_for_help prompt = true ->
      odict.get d p = Some e ->
      0 < n ->
      stored_step e n <> "" ->
      (forall j, 0 < j < n -> stored_step e j = "") ->
      exists resp,
        turn w req = (Return resp, []) /\
        ChatResponse.troubleshooting_state resp
        = TroubleshootingState.Make true (Some p) n /\
        ChatResponse.final_answer_source resp = "Troubleshooting Start") /\
  (TroubleshootingState.is_active ts = false ->
   is_asking_for_help prompt = false ->
   exists resp tr,
     turn w req = (Return resp, tr) /\
     ChatResponse.troubleshooting_state resp = ts).
Proof.
  intros Hload Hf ts prompt d.
  assert (Hok : catalog_ok d).
  { subst d. rewrite Hload. apply load_problem_data_dict_ok. }
  assert (Hkey : forall k, detect_problem prompt d = Some k -> k <> "").
  { intros k Hk. apply detect_problem_in_keys in Hk.
    apply odict_get_keys in Hk as [e He].
    apply odict_get_elem in He. now apply (Hok k e). }
  split; [|split].
  - rewrite determine_strategy_start. fold d. rewrite odict_is_empty_false.
    split; intros (Hact & Hne & Hdet & Hhelp); repeat split; try assumption.
    + destruct (detect_problem prompt d); [now eexists | discriminate Hdet].
    + destruct Hdet as [k Hk]. rewrite Hk. cbn [truthy_opt].
      apply truthy_true. now apply Hkey.
  - intros p e n Hact Hdet Hhelp Hget Hn Hstep Hmin. unfold d in *.
    rewrite turn_unfold. unfold main_logic. rewrite Hf.
    change (ts_state (initial_locals req)) with ts.
    rewrite (determine_strategy_started w ts (ChatRequest.prompt req) p
               Hact Hdet (Hkey p Hdet) Hhelp).
    cbn [strategy detected_problem default from_option id ret].
    unfold start_troubleshooting_reply. rewrite Hget.
    destruct (Hok p e (odict_get_elem _ _ _ Hget)) as (_ & Hne & _).
    rewrite bool_decide_eq_false_2 by exact Hne.
    rewrite (get_next_solution_step_first _ p e 0 n Hok Hget Hn Hstep Hmin).
    assert (Hnum : truthy_num (Some n) = true).
    { cbn [truthy_num]. apply negb_true_iff, Z.eqb_neq. lia. }
    assert (Htxt : truthy_opt (Some (stored_step e n)) = true).
    { cbn [truthy_opt]. now apply truthy_true. }
    rewrite Hnum, Htxt. cbn [andb].
    eexists. split; [reflexivity|]. split; reflexivity.
  - intros Hact Hhelp.
    assert (Hrag : rag_turn w req).
    { split; [exact Hf | now apply determine_strategy_no_help]. }
    rewrite turn_unfold, (main_logic_rag w req Hrag).
    destruct (rag_call_and_fallback_returns w (ChatRequest.prompt req)
                (contextual_prompt
                   (determine_strategy w (ChatRequest.troubleshooting_state req)
                                       (ChatRequest.prompt req)))
                (ChatRequest.history req) (initial_locals req) [])
      as (l & tr & Hcall).
    rewrite Hcall. eexists _, _. split; [reflexivity|].
    cbn [ChatResponse.troubleshooting_state assemble].
    rewrite ts_state_ensure_content.
    now rewrite (rag_call_and_fallback_state w _ _ _ _ _ _ _ Hcall).
Qed.

Lemma start_troubleshooting_spec_witness :
  exists resp,
    turn demo_world
      (demo_request "how do I fix pump overheating"
                    TroubleshootingState.default false)
    = (Return resp, []) /\
    ChatResponse.troubleshooting_state resp
    = TroubleshootingState.Make true (Some "pump overheating") 1 /\
    ChatResponse.final_answer_source resp = "Troubleshooting Start".
Proof.
  apply (proj1 (proj2 (start_troubleshooting_spec demo_world demo_source
                         (demo_request "how do I fix pump overheating"
                                       TroubleshootingState.default false)
                         eq_refl eq_refl))
           "pump overheating" demo_pump_entry 1).
  - reflexivity.
  - vm_compute. reflexivity.
  - vm_compute. reflexivity.
  - vm_compute. reflexivity.
  - lia.
  - vm_compute. discriminate.
  - intros j Hj. lia.
Defined.

(** * Further properties *)

(** ** The turn as a whole *)

Section TurnFacts.

Variable w : World.

Lemma ensure_content_answer l :
  assistant_response_content (ensure_content l) <> "".
Proof.
  unfold ensure_content.
  destruct (Text.is_empty (assistant_response_content l)) eqn:E.
  - discriminate.
  - intros H. rewrite H in E. discriminate E.
Qed.

Lemma ensure_content_source l :
  final_answer_source (ensure_content l) = final_answer_source l \/
  final_answer_source (ensure_content l) = "Error".
Proof.
  unfold ensure_content.
  destruct (Text.is_empty (assistant_response_content l)); [now right | now left].
Qed.

Lemma ensure_content_offer l :
  offer_web_search (ensure_content l) = offer_web_search l.
Proof.
  unfold ensure_content.
  now destruct (Text.is_empty (assistant_response_content l)).
Qed.

Ltac label_in :=
  unfold source_labels, web_labels; cbn [In];
  repeat (first [left; reflexivity | right]).

Lemma web_labels_known s : In s web_labels -> In s source_labels.
Proof.
  unfold web_labels. cbn [In].
  intros [<-|[<-|[<-|[<-|[<-|[]]]]]]; label_in.
Qed.

Lemma web_search_failure_reply e :
  In (snd (web_search_failure e)) web_labels /\ fst (web_search_failure e) <> "".
Proof.
  unfold web_search_failure.
  destruct (is_import_error e); [split; [label_in | discriminate]|].
  destruct (Text.contains "api key" (Text.lower (str_of e)));
    (split; [label_in | discriminate]).
Qed.

(** The web path always returns a pair: a known label and a text. *)
Lemma perform_web_search_returns q tr :
  exists r tr',
    perform_web_search_and_synthesis w q tr = (Return r, tr') /\
    In (snd r) web_labels /\ fst r <> "".
Proof.
  unfold perform_web_search_and_synthesis, bind, call, try_except, ret.
  destruct (tavily_tool w) as [tavily_invoke|].
  2:{ eexists _, _. split; [reflexivity|]. split; [label_in | discriminate]. }
  destruct (llm w) as [llm_ainvoke|].
  2:{ eexists _, _. split; [reflexivity|]. split; [label_in | discriminate]. }
  destruct (tavily_invoke q) as [[|res more]|e].
  - eexists _, _. split; [reflexivity|]. split; [label_in | discriminate].
  - destruct (llm_ainvoke _) as [resp|e].
    + destruct (Text.is_empty (final_answer_of resp)) eqn:E.
      * eexists _, _. split; [reflexivity|]. split; [label_in | discriminate].
      * eexists _, _. split; [reflexivity|]. split; [label_in|].
        cbn [fst]. intros H. rewrite H in E. discriminate E.
    + eexists _, _. split; [reflexivity|]. apply web_search_failure_reply.
  - eexists _, _. split; [reflexivity|]. apply web_search_failure_reply.
Qed.

Lemma fallback_reply_label a ans src :
  In (snd (fallback_reply a ans src)) source_labels.
Proof.
  unfold fallback_reply.
  destruct (String.eqb src "Web Search Synthesis (Ship Focused)") eqn:E1.
  - apply String.eqb_eq in E1. subst src.
    destruct (Text.truthy ans); cbn [andb snd]; label_in.
  - cbn [andb].
    destruct (String.eqb src "Web Search No Results") eqn:E2.
    + apply String.eqb_eq in E2. subst src. label_in.
    + destruct (String.eqb src "Error" || String.eqb src "Error (Rate Limited)")%bool;
        destruct (Text.truthy a); label_in.
Qed.

Lemma rag_failure_label e : In (snd (rag_failure e)) source_labels.
Proof.
  rewrite rag_failure_source. destruct (is_rate_limit_error e); label_in.
Qed.

Lemma rag_call_and_fallback_label prompt cp h init tr l tr' :
  rag_call_and_fallback w prompt cp h init tr = (Return l, tr') ->
  In (final_answer_source l) source_labels /\
  offer_web_search l = offer_web_search init.
Proof.
  unfold rag_call_and_fallback, bind, try_except, ret.
  destruct (invoke_rag_chain w cp h tr) as [[resp|e] tr1].
  - destruct (Text.truthy (Text.strip (get_or resp "answer" ""))
              && is_rag_answer_sufficient (Text.strip (get_or resp "answer" "")))%bool.
    + intros [= <- <-]. split; [label_in | reflexivity].
    + destruct (tool_available w).
      * destruct (perform_web_search_and_synthesis w prompt tr1) as [[r|e] tr2];
          intros [= <- <-]; (split; [|reflexivity]); cbn [final_answer_source with_reply].
        -- apply fallback_reply_label.
        -- unfold fallback_call_failed.
           destruct (Text.truthy _); label_in.
      * intros [= <- <-]. split; [label_in | reflexivity].
  - intros [= <- <-]. split; [apply rag_failure_label | reflexivity].
Qed.

Lemma next_step_reply_facts ts name cur :
  let l := next_step_reply w ts name cur in
  Text.is_empty (assistant_response_content l) = false /\
  ((final_answer_source l = "Troubleshooting Step" /\
    offer_web_search l = false /\
    exists n,
      ts_state l = TroubleshootingState.Make
                     (TroubleshootingState.is_active ts)
                     (TroubleshootingState.current_problem ts) n /\
      fst (fst (get_next_solution_step (problem_dict w) name cur)) = Some n /\
      n <> 0) \/
   (final_answer_source l = "Troubleshooting End" /\
    offer_web_search l = tool_available w /\
    ts_state l = TroubleshootingState.default)).
Proof.
  unfold next_step_reply.
  destruct (get_next_solution_step (problem_dict w) name cur)
    as [[num txt] cause].
  destruct (truthy_num num && truthy_opt txt)%bool eqn:Ht.
  - split; [reflexivity|]. left. split; [reflexivity|]. split; [reflexivity|].
    destruct num as [n|]; [|discriminate Ht]. exists n.
    split; [reflexivity|]. split; [reflexivity|].
    apply andb_true_iff in Ht as [Hn _]. cbn [truthy_num] in Hn.
    apply negb_true_iff, Z.eqb_neq in Hn. exact Hn.
  - destruct (tool_available w); (split; [reflexivity|]); right; repeat split.
Qed.

Lemma start_troubleshooting_reply_facts p :
  let l := start_troubleshooting_reply w p in
  Text.is_empty (assistant_response_content l) = false /\
  In (final_answer_source l) source_labels /\
  (offer_web_search l = true ->
   tool_available w = true /\
   final_answer_source l = "Troubleshooting No Steps" /\
   ts_state l = TroubleshootingState.default).
Proof.
  unfold start_troubleshooting_reply.
  destruct (odict.get (problem_dict w) p) as [e|].
  2:{ split; [reflexivity|]. split; [label_in | discriminate]. }
  destruct (bool_decide (e = ∅)).
  { split; [reflexivity|]. split; [label_in | discriminate]. }
  destruct (get_next_solution_step (problem_dict w) p 0) as [[num txt] cause].
  destruct (truthy_num num && truthy_opt txt)%bool.
  - split; [reflexivity|]. split; [label_in | discriminate].
  - destruct (tool_available w); (split; [reflexivity|]); (split; [label_in|]).
    + intros _. repeat split.
    + discriminate.
Qed.

Lemma guided_strategy req :
  guided (strategy (plan_of w req)) = true ->
  needs_rag_call (plan_of w req) = false.
Proof.
  intros H. destruct (needs_rag_call (plan_of w req)) eqn:E; [|reflexivity].
  apply needs_rag_call_strategy in E as [E|E]; unfold plan_of in H;
    rewrite E in H; discriminate H.
Qed.

(** A guided strategy answers at once, with no call. *)
Lemma main_logic_guided req :
  ChatRequest.force_web_search req = false ->
  guided (strategy (plan_of w req)) = true ->
  main_logic w req (initial_locals req) [] = (Return (guided_reply w req), []).
Proof.
  intros Hf Hg. unfold main_logic, guided_reply. rewrite Hf.
  change (ts_state (initial_locals req))
    with (ChatRequest.troubleshooting_state req).
  fold (plan_of w req).
  destruct (strategy (plan_of w req)); try discriminate Hg; reflexivity.
Qed.

Lemma guided_reply_facts req :
  guided (strategy (plan_of w req)) = true ->
  let l := guided_reply w req in
  Text.is_empty (assistant_response_content l) = false /\
  In (final_answer_source l) source_labels /\
  (offer_web_search l = true ->
   tool_available w = true /\
   In (final_answer_source l)
      ["Troubleshooting End"; "Troubleshooting No Steps"] /\
   ts_state l = TroubleshootingState.default).
Proof.
  intros Hg. unfold guided_reply.
  destruct (strategy (plan_of w req)); try discriminate Hg.
  - split; [reflexivity|]. split; [label_in | discriminate].
  - destruct (next_step_reply_facts (ChatRequest.troubleshooting_state req)
                (problem_name (plan_of w req)) (current_step (plan_of w req)))
      as (Hne & [(Hs & Ho & _)|(Hs & Ho & Hts)]).
    + split; [exact Hne|]. rewrite Hs, Ho. split; [label_in | discriminate].
    + split; [exact Hne|]. rewrite Hs, Ho, Hts. split; [label_in|].
      intros ->. split; [reflexivity|]. split; [now left | reflexivity].
  - destruct (start_troubleshooting_reply_facts
                (default "" (detected_problem (plan_of w req))))
      as (Hne & Hl & Ho).
    split; [exact Hne|]. split; [exact Hl|]. intros H.
    destruct (Ho H) as (Ht & Hs & Hts). rewrite Hs.
    split; [exact Ht|]. split; [right; now left | exact Hts].
Qed.

(** The label, the offer and the trace after the body of the outer
    [try]. *)
Lemma main_logic_outcome req l tr :
  main_logic w req (initial_locals req) [] = (Return l, tr) ->
  In (final_answer_source l) source_labels /\
  (offer_web_search l = true ->
   tool_available w = true /\ tr = [] /\
   In (final_answer_source l)
      ["Troubleshooting End"; "Troubleshooting No Steps"] /\
   ts_state l = TroubleshootingState.default /\
   Text.is_empty (assistant_response_content l) = false).
Proof.
  destruct (ChatRequest.force_web_search req) eqn:Hf.
  - unfold main_logic. rewrite Hf. unfold bind, ret.
    destruct (tavily_tool w) as [t|] eqn:Ht.
    + destruct (perform_web_search_returns (ChatRequest.prompt req) [])
        as (r & tr1 & Hr & Hl & _).
      rewrite Hr. intros [= <- <-].
      split; [now apply web_labels_known | discriminate].
    + intros [= <- <-]. split; [label_in | discriminate].
  - destruct (guided (strategy (plan_of w req))) eqn:Hg.
    + rewrite (main_logic_guided req Hf Hg). intros [= <- <-].
      destruct (guided_reply_facts req Hg) as (Hne & Hl & Ho).
      split; [exact Hl|]. intros H. destruct (Ho H) as (Ht & Hs & Hts).
      repeat split; assumption.
    + unfold main_logic. rewrite Hf.
      change (ts_state (initial_locals req))
        with (ChatRequest.troubleshooting_state req).
      fold (plan_of w req).
      destruct (strategy (plan_of w req)); try discriminate Hg;
        (destruct (needs_rag_call (plan_of w req));
         [intros H; apply rag_call_and_fallback_label in H as [Hl Ho];
          split; [exact Hl | rewrite Ho; discriminate]
         |intros [= <- <-]; split; [label_in | discriminate]]).
Qed.

End TurnFacts.

(** X1: whatever the collaborators return, and whichever exception of the
    [Exception] hierarchy they raise, a turn returns a response: every such
    exception is caught by a handler of the endpoint.  The answer of the
    response is never empty, and its history is the history the request
    brought, then the user's prompt, then the answer.  (An exception
    outside that hierarchy, such as [asyncio.CancelledError], is caught by
    no handler and is outside the exceptions of the model.) *)
Theorem turn_returns_a_full_response (w : World) (req : ChatRequest.t) :
  exists resp tr,
    turn w req = (Return resp, tr) /\
    ChatResponse.answer resp <> "" /\
    ChatResponse.history resp =
      ChatRequest.history req ++
        [ {| role := "user"; content := ChatRequest.prompt req |};
          {| role := "assistant"; content := ChatResponse.answer resp |} ].
Proof.
  rewrite turn_unfold.
  destruct (main_logic w req (initial_locals req) []) as [[l|e] tr];
    eexists _, _; (split; [reflexivity|]);
    cbn [ChatResponse.answer ChatResponse.history assemble];
    (split; [apply ensure_content_answer | now rewrite <- app_assoc]).
Qed.

(** X2: whatever the request and the collaborators do, the source label
    of the response is one of the fifteen labels of the engine. *)
Theorem turn_label_known (w : World) (req : ChatRequest.t) :
  exists resp tr,
    turn w req = (Return resp, tr) /\
    In (ChatResponse.final_answer_source resp) source_labels.
Proof.
  rewrite turn_unfold.
  destruct (main_logic w req (initial_locals req) []) as [[l|e] tr] eqn:Hmain;
    eexists _, _; (split; [reflexivity|]);
    cbn [ChatResponse.final_answer_source assemble].
  - destruct (ensure_content_source l) as [-> | ->].
    + eapply main_logic_outcome, Hmain.
    + right. now left.
  - unfold source_labels. cbn [In]. repeat (first [left; reflexivity | right]).
Qed.

(** X3: a response offers a web search only at a dead end of the guided
    dialogue: the search tool is configured, the label is
    [Troubleshooting End] or [Troubleshooting No Steps], the state is
    reset, and no collaborator was called. *)
Theorem offer_web_search_only_at_dead_end (w : World) (req : ChatRequest.t)
        (resp : ChatResponse.t) (tr : list event) :
  turn w req = (Return resp, tr) ->
  ChatResponse.offer_web_search resp = true ->
  tool_available w = true /\
  tr = [] /\
  In (ChatResponse.final_answer_source resp)
     ["Troubleshooting End"; "Troubleshooting No Steps"] /\
  ChatResponse.troubleshooting_state resp = TroubleshootingState.default.
Proof.
  rewrite turn_unfold.
  destruct (main_logic w req (initial_locals req) []) as [[l|e] tr1] eqn:Hmain;
    intros [= <- <-];
    cbn [ChatResponse.offer_web_search ChatResponse.final_answer_source
         ChatResponse.troubleshooting_state assemble].
  - rewrite ensure_content_offer. intros Ho.
    destruct (proj2 (main_logic_outcome w req l tr1 Hmain) Ho)
      as (Ht & Htr & Hs & Hts & Hne).
    rewrite (ensure_content_id l Hne). repeat split; assumption.
  - discriminate.
Qed.

Lemma offer_web_search_only_at_dead_end_witness :
  exists resp,
    turn demo_web_world
      (demo_request "nope"
         (TroubleshootingState.Make true (Some "pump overheating") 2) false)
    = (Return resp, []) /\
    ChatResponse.offer_web_search resp = true /\
    ChatResponse.troubleshooting_state resp = TroubleshootingState.default.
Proof.
  destruct (turn demo_web_world
              (demo_request "nope"
                 (TroubleshootingState.Make true (Some "pump overheating") 2)
                 false)) as [[resp|e] tr] eqn:Hturn;
    [|vm_compute in Hturn; discriminate Hturn].
  assert (Ho : ChatResponse.offer_web_search resp = true).
  { vm_compute in Hturn. injection Hturn as <- _. reflexivity. }
  destruct (offer_web_search_only_at_dead_end demo_web_world _ resp tr Hturn Ho)
    as (_ & -> & _ & Hts).
  exists resp. split; [reflexivity|]. split; [exact Ho | exact Hts].
Defined.

(** ** Guided turns, RAG turns and the web path *)

Section PathFacts.

Variable w : World.

Lemma scan_steps_bounds e fuel i n t :
  scan_steps e fuel i = Some (n, t) ->
  i <= n < i + Z.of_nat fuel /\ t <> "".
Proof.
  revert i. induction fuel as [|f IH]; intros i; [discriminate|].
  cbn [scan_steps].
  destruct (Text.truthy (Text.strip (get_or e (step_key i) ""))) eqn:Ht.
  - intros [= <- <-]. split; [lia | now apply truthy_true].
  - intros H. apply IH in H as [Hr Hne]. split; [lia | exact Hne].
Qed.

Lemma get_next_solution_step_bounds d p cur n t c :
  get_next_solution_step d p cur = (Some n, t, c) ->
  cur < n <= MAX_SOLUTION_STEPS /\
  (exists s, t = Some s /\ s <> "") /\
  is_Some c /\
  p ∈ odict.keys d.
Proof.
  unfold get_next_solution_step.
  destruct (odict.get d p) as [e|] eqn:Hget; [|discriminate].
  destruct (bool_decide (e = ∅)); [discriminate|].
  destruct (scan_steps e (Z.to_nat (MAX_SOLUTION_STEPS + 1 - (cur + 1))) (cur + 1))
    as [[i s]|] eqn:Hscan; [|discriminate].
  intros [= <- <- <-]. apply scan_steps_bounds in Hscan as [Hr Hne].
  split; [lia|]. split; [now exists s|]. split; [now eexists|].
  eapply odict_get_in_keys, Hget.
Qed.

Lemma strategy_rag_needs_call ts prompt :
  guided (strategy (determine_strategy w ts prompt)) = false ->
  needs_rag_call (determine_strategy w ts prompt) = true.
Proof.
  unfold determine_strategy.
  destruct (TroubleshootingState.is_active ts
            && truthy_opt (TroubleshootingState.current_problem ts))%bool.
  - destruct (is_problem_solved prompt); [discriminate|].
    destruct (is_problem_not_solved prompt); [discriminate | reflexivity].
  - destruct (negb (TroubleshootingState.is_active ts)
              && negb (odict.is_empty (problem_dict w)))%bool; [|reflexivity].
    destruct (truthy_opt (detect_problem prompt (problem_dict w))
              && is_asking_for_help prompt)%bool; [discriminate | reflexivity].
Qed.

Lemma rag_turn_of_unguided req :
  ChatRequest.force_web_search req = false ->
  guided (strategy (plan_of w req)) = false ->
  rag_turn w req.
Proof. intros Hf Hg. split; [exact Hf | now apply strategy_rag_needs_call]. Qed.

(** The retrieval call leaves one or two events, none of the web path. *)
Lemma invoke_rag_chain_trace q h tr o tr' :
  invoke_rag_chain w q h tr = (o, tr') ->
  exists evs,
    tr' = tr ++ evs /\ evs <> [] /\
    Forall (fun ev => is_web_event ev = false) evs.
Proof.
  unfold invoke_rag_chain, try_except, call, raise.
  destruct (chain_has_ainvoke w).
  - destruct (chain_ainvoke w (rag_question q) h); intros [= <- <-].
    + eexists. split; [reflexivity|]. split; [discriminate | repeat constructor].
    + rewrite <- app_assoc. eexists. split; [reflexivity|].
      split; [discriminate | repeat constructor].
  - intros [= <- <-].
    eexists. split; [reflexivity|]. split; [discriminate | repeat constructor].
Qed.

(** The web path records its entry first, then the search, then the
    model, and goes no further than it got. *)
Lemma perform_web_search_trace q tr o tr' :
  perform_web_search_and_synthesis w q tr = (o, tr') ->
  tr' = tr ++ [WebSearchAndSynthesis q] \/
  tr' = tr ++ [WebSearchAndSynthesis q; TavilyInvoke q] \/
  exists tavily_invoke results,
    tavily_tool w = Some tavily_invoke /\
    tavily_invoke q = Return results /\
    results <> [] /\
    tr' = tr ++ [WebSearchAndSynthesis q; TavilyInvoke q;
                 LlmAinvoke (synthesis_prompt_of q
                               (format_web_results_for_llm
                                  results WEB_SEARCH_RESULT_MAX_CHARS))].
Proof.
  unfold perform_web_search_and_synthesis, bind, call, try_except, ret.
  destruct (tavily_tool w) as [tavily_invoke|];
    [|intros [= <- <-]; left; reflexivity].
  destruct (llm w) as [llm_ainvoke|]; [|intros [= <- <-]; left; reflexivity].
  destruct (tavily_invoke q) as [[|res more]|e] eqn:Hsearch.
  - intros [= <- <-]. right; left. rewrite <- app_assoc. reflexivity.
  - intros H. right; right. exists tavily_invoke, (res :: more).
    split; [reflexivity|]. split; [exact Hsearch|]. split; [discriminate|].
    revert H.
    generalize (synthesis_prompt_of q
                  (format_web_results_for_llm (res :: more)
                                              WEB_SEARCH_RESULT_MAX_CHARS)).
    intros sp.
    destruct (llm_ainvoke sp) as [resp|e];
      [destruct (Text.is_empty (final_answer_of resp))|];
      intros [= <- <-]; rewrite <- !app_assoc; reflexivity.
  - intros [= <- <-]. right; left. rewrite <- app_assoc. reflexivity.
Qed.

(** Where the label of success comes from. *)
Lemma perform_web_search_success q tr r tr' :
  perform_web_search_and_synthesis w q tr = (Return r, tr') ->
  snd r = "Web Search Synthesis (Ship Focused)" ->
  exists tavily_invoke llm_ainvoke results resp,
    tavily_tool w = Some tavily_invoke /\
    llm w = Some llm_ainvoke /\
    tavily_invoke q = Return results /\
    results <> [] /\
    llm_ainvoke (synthesis_prompt_of q
                   (format_web_results_for_llm results
                                               WEB_SEARCH_RESULT_MAX_CHARS))
    = Return resp /\
    fst r = final_answer_of resp /\
    fst r <> "".
Proof.
  unfold perform_web_search_and_synthesis, bind, call, try_except, ret.
  destruct (tavily_tool w) as [tavily_invoke|];
    [|intros [= <- <-]; discriminate].
  destruct (llm w) as [llm_ainvoke|]; [|intros [= <- <-]; discriminate].
  assert (Hfail : forall e,
             snd (web_search_failure e) <> "Web Search Synthesis (Ship Focused)").
  { intros e. unfold web_search_failure.
    destruct (is_import_error e); [discriminate|].
    destruct (Text.contains "api key" (Text.lower (str_of e))); discriminate. }
  destruct (tavily_invoke q) as [[|res more]|e] eqn:Hsearch.
  - intros [= <- <-]. discriminate.
  - remember (synthesis_prompt_of q
                (format_web_results_for_llm (res :: more)
                                            WEB_SEARCH_RESULT_MAX_CHARS))
      as sp eqn:Hsp.
    destruct (llm_ainvoke sp) as [resp|e] eqn:Hllm.
    + destruct (Text.is_empty (final_answer_of resp)) eqn:E;
        intros [= <- <-]; [discriminate|]. intros _.
      exists tavily_invoke, llm_ainvoke, (res :: more), resp.
      split; [reflexivity|]. split; [reflexivity|]. split; [exact Hsearch|].
      split; [discriminate|]. split; [subst sp; exact Hllm|].
      split; [reflexivity|].
      cbn [fst]. intros H. rewrite H in E. discriminate E.
    + intros [= <- <-] H. now apply Hfail in H.
  - intros [= <- <-] H. now apply Hfail in H.
Qed.

Lemma append_empty_r s : s +:+ "" = s.
Proof.
  induction s as [|c s IH]; [reflexivity|].
  change (String c s +:+ "") with (String c (s +:+ "")). now rewrite IH.
Qed.

Lemma append_assoc s1 s2 s3 : (s1 +:+ s2) +:+ s3 = s1 +:+ (s2 +:+ s3).
Proof.
  induction s1 as [|c s1 IH]; [reflexivity|].
  change ((String c s1 +:+ s2) +:+ s3) with (String c ((s1 +:+ s2) +:+ s3)).
  now rewrite IH.
Qed.

Lemma begins_with_refl s : begins_with s s.
Proof. exists "". now rewrite append_empty_r. Qed.

Lemma begins_with_nonempty a s :
  a <> "" -> begins_with a s -> Text.is_empty s = false.
Proof.
  intros Ha [more ->]. destruct a as [|c a]; [now contradiction Ha|].
  reflexivity.
Qed.

(** What becomes of a retrieval answer that is not empty: the reply
    begins with it, unless the web synthesis succeeded. *)
Lemma fallback_reply_keeps a ans src :
  a <> "" ->
  begins_with a (fst (fallback_reply a ans src)) \/
  (src = "Web Search Synthesis (Ship Focused)" /\
   snd (fallback_reply a ans src) = "Web Search Synthesis (Ship Focused)" /\
   fst (fallback_reply a ans src) = ans /\ ans <> "").
Proof.
  intros Ha. apply truthy_true in Ha. unfold fallback_reply. rewrite Ha.
  destruct (String.eqb src "Web Search Synthesis (Ship Focused)") eqn:E1.
  - apply String.eqb_eq in E1. subst src.
    destruct (Text.truthy ans) eqn:Hans; cbn [andb fst snd].
    + right. split; [reflexivity|]. split; [reflexivity|].
      split; [reflexivity | now apply truthy_true].
    + left. now eexists.
  - cbn [andb].
    destruct (String.eqb src "Web Search No Results");
      [left; now eexists|].
    destruct (String.eqb src "Error" || String.eqb src "Error (Rate Limited)")%bool;
      left; now eexists.
Qed.

End PathFacts.

(** X4: on a turn that is not forced to the web, no collaborator is called
    exactly when the strategy is a guided one (solved, next step, start);
    every other turn calls the retrieval chain. *)
Theorem guided_turns_call_nothing (w : World) (req : ChatRequest.t) :
  ChatRequest.force_web_search req = false ->
  exists resp tr,
    turn w req = (Return resp, tr) /\
    (tr = [] <-> guided (strategy (plan_of w req)) = true) /\
    (guided (strategy (plan_of w req)) = false ->
     exists question more,
       tr = RagAinvoke question :: more \/ tr = RagInvoke question :: more).
Proof.
  intros Hf. rewrite turn_unfold.
  destruct (guided (strategy (plan_of w req))) eqn:Hg.
  - rewrite (main_logic_guided w req Hf Hg).
    eexists _, _. split; [reflexivity|]. split; [now split | discriminate].
  - pose proof (rag_turn_of_unguided w req Hf Hg) as Hrag.
    rewrite (main_logic_rag w req Hrag).
    assert (Hfirst :
      forall o tr,
        rag_call_and_fallback w (ChatRequest.prompt req)
          (contextual_prompt (plan_of w req)) (ChatRequest.history req)
          (initial_locals req) [] = (o, tr) ->
        exists question more,
          tr = RagAinvoke question :: more \/ tr = RagInvoke question :: more).
    { intros o tr. unfold rag_call_and_fallback, bind, try_except, ret.
      destruct (invoke_rag_chain w (contextual_prompt (plan_of w req))
                  (ChatRequest.history req) []) as [[resp|e] tr1] eqn:Hcall.
      - assert (Hhead : exists question more,
                   tr1 = RagAinvoke question :: more \/
                   tr1 = RagInvoke question :: more).
        { revert Hcall. unfold invoke_rag_chain, try_except, call, raise.
          destruct (chain_has_ainvoke w);
            [destruct (chain_ainvoke w _ _)|]; intros [= _ <-];
            eexists _, _; first [left; reflexivity | right; reflexivity]. }
        destruct Hhead as (qn & more & Hhead).
        destruct (Text.truthy _ && is_rag_answer_sufficient _)%bool;
          [intros [= _ <-]; now exists qn, more|].
        destruct (tool_available w); [|intros [= _ <-]; now exists qn, more].
        destruct (perform_web_search_and_synthesis w (ChatRequest.prompt req) tr1)
          as [[r|e] tr2] eqn:Hweb; intros [= _ <-];
          apply perform_web_search_trace in Hweb
            as [-> | [-> | (t & rs & _ & _ & _ & ->)]];
          destruct Hhead as [-> | ->];
          eexists _, _; first [left; reflexivity | right; reflexivity].
      - intros [= _ <-]. revert Hcall.
        unfold invoke_rag_chain, try_except, call, raise.
        destruct (chain_has_ainvoke w);
          [destruct (chain_ainvoke w _ _)|]; intros [= _ <-];
          eexists _, _; first [left; reflexivity | right; reflexivity]. }
    unfold plan_of in Hfirst.
    destruct (rag_call_and_fallback w (ChatRequest.prompt req) _
                (ChatRequest.history req) (initial_locals req) [])
      as [[l|e] tr] eqn:Hcall;
      destruct (Hfirst _ _ eq_refl) as (qn & more & Htr);
      eexists _, _; (split; [reflexivity|]);
      (split; [split; [intros ->; destruct Htr; discriminate | discriminate]
              | intros _; now exists qn, more]).
Qed.

Lemma guided_turns_call_nothing_witness :
  exists resp,
    turn demo_web_world
      (demo_request "how do I fix pump overheating"
                    TroubleshootingState.default false)
    = (Return resp, []).
Proof.
  destruct (guided_turns_call_nothing demo_web_world
              (demo_request "how do I fix pump overheating"
                            TroubleshootingState.default false) eq_refl)
    as (resp & tr & Hturn & Hiff & _).
  assert (Hg : guided (strategy (plan_of demo_web_world
                 (demo_request "how do I fix pump overheating"
                               TroubleshootingState.default false))) = true)
    by (vm_compute; reflexivity).
  apply Hiff in Hg. subst tr. exists resp. exact Hturn.
Defined.

(** X5: a next-step turn either moves the cursor to a later step of the
    same problem, at most the last one, under [Troubleshooting Step], or
    ends the dialogue under [Troubleshooting End] with the state reset,
    offering a web search exactly when the search tool is configured. *)
Theorem next_step_turn (w : World) (req : ChatRequest.t) :
  ChatRequest.force_web_search req = false ->
  strategy (plan_of w req) = next_step ->
  exists resp,
    turn w req = (Return resp, []) /\
    let ts := ChatRequest.troubleshooting_state req in
    ((ChatResponse.final_answer_source resp = "Troubleshooting Step" /\
      ChatResponse.offer_web_search resp = false /\
      exists n,
        ChatResponse.troubleshooting_state resp
        = TroubleshootingState.Make true
            (TroubleshootingState.current_problem ts) n /\
        TroubleshootingState.current_step ts < n <= MAX_SOLUTION_STEPS) \/
     (ChatResponse.final_answer_source resp = "Troubleshooting End" /\
      ChatResponse.offer_web_search resp = tool_available w /\
      ChatResponse.troubleshooting_state resp = TroubleshootingState.default)).
Proof.
  intros Hf Hs. rewrite turn_unfold.
  assert (Hg : guided (strategy (plan_of w req)) = true) by now rewrite Hs.
  rewrite (main_logic_guided w req Hf Hg). unfold guided_reply. rewrite Hs.
  destruct (determine_strategy_next_step w _ _ Hs) as [Hact Hpb].
  assert (Hcur : current_step (plan_of w req)
                 = TroubleshootingState.current_step
                     (ChatRequest.troubleshooting_state req)).
  { clear Hpb Hg. revert Hs. unfold plan_of, determine_strategy. rewrite Hact.
    destruct (truthy_opt (TroubleshootingState.current_problem
                            (ChatRequest.troubleshooting_state req)));
      cbn [andb negb].
    - destruct (is_problem_solved (ChatRequest.prompt req)); [discriminate|].
      destruct (is_problem_not_solved (ChatRequest.prompt req));
        [reflexivity | discriminate].
    - discriminate. }
  destruct (next_step_reply_facts w (ChatRequest.troubleshooting_state req)
              (problem_name (plan_of w req)) (current_step (plan_of w req)))
    as (Hne & [(Hl & Ho & n & Hts & Hn & _)|(Hl & Ho & Hts)]);
    rewrite (ensure_content_id _ Hne);
    eexists; (split; [reflexivity|]);
    cbn [ChatResponse.final_answer_source ChatResponse.offer_web_search
         ChatResponse.troubleshooting_state assemble].
  - left. split; [exact Hl|]. split; [exact Ho|]. exists n.
    rewrite Hts, Hact. split; [reflexivity|].
    destruct (get_next_solution_step (problem_dict w)
                (problem_name (plan_of w req)) (current_step (plan_of w req)))
      as [[num txt] cause] eqn:E.
    cbn [fst] in Hn. subst num.
    apply get_next_solution_step_bounds in E as (Hb & _). now rewrite <- Hcur.
  - right. now rewrite Hl, Ho, Hts.
Qed.

Lemma next_step_turn_witness :
  exists resp,
    turn demo_world
      (demo_request "nope"
         (TroubleshootingState.Make true (Some "pump overheating") 1) false)
    = (Return resp, []).
Proof.
  destruct (next_step_turn demo_world
              (demo_request "nope"
                 (TroubleshootingState.Make true (Some "pump overheating") 1)
                 false) eq_refl)
    as (resp & Hturn & _); [vm_compute; reflexivity|].
  exists resp. exact Hturn.
Defined.

(** X6: when the retrieval returns an answer that is not empty and is
    judged sufficient, that answer is the answer of the turn, under
    [Internal Knowledge (RAG)]; the state comes back as it was given, no
    web search is offered and the web path is not entered. *)
Theorem sufficient_rag_answer_is_final (w : World) (req : ChatRequest.t)
        (rag_response : gmap string string) :
  rag_turn w req ->
  retrieval_outcome w req = Return rag_response ->
  rag_answer_of rag_response <> "" ->
  is_rag_answer_sufficient (rag_answer_of rag_response) = true ->
  exists resp tr,
    turn w req = (Return resp, tr) /\
    ChatResponse.answer resp = rag_answer_of rag_response /\
    ChatResponse.final_answer_source resp = "Internal Knowledge (RAG)" /\
    ChatResponse.troubleshooting_state resp
    = ChatRequest.troubleshooting_state req /\
    ChatResponse.offer_web_search resp = false /\
    Forall (fun ev => is_web_event ev = false) tr.
Proof.
  intros Hrag Hret Hne Hsuff. rewrite turn_unfold, (main_logic_rag w req Hrag).
  unfold retrieval_outcome in Hret.
  unfold rag_call_and_fallback, bind, try_except, ret.
  destruct (invoke_rag_chain w _ (ChatRequest.history req) []) as [o tr1] eqn:Hcall.
  cbn [fst] in Hret. subst o. fold (rag_answer_of rag_response).
  rewrite Hsuff. apply truthy_true in Hne. rewrite Hne. cbn [andb].
  rewrite ensure_content_id by (cbn; now apply negb_true_iff in Hne).
  eexists _, _. split; [reflexivity|]. repeat split.
  eapply invoke_rag_chain_events, Hcall.
Qed.

Lemma sufficient_rag_answer_is_final_witness :
  exists resp tr,
    turn demo_rag_world
      (demo_request "the pump does not prime" TroubleshootingState.default false)
    = (Return resp, tr) /\
    ChatResponse.answer resp = "Open the sea cock and prime the pump." /\
    ChatResponse.final_answer_source resp = "Internal Knowledge (RAG)".
Proof.
  destruct (sufficient_rag_answer_is_final demo_rag_world
              (demo_request "the pump does not prime"
                            TroubleshootingState.default false)
              {[ "answer" := " Open the sea cock and prime the pump. " ]})
    as (resp & tr & Hturn & Hans & Hsrc & _).
  - split; vm_compute; reflexivity.
  - vm_compute. reflexivity.
  - vm_compute. discriminate.
  - vm_compute. reflexivity.
  - exists resp, tr. split; [exact Hturn|]. split; [|exact Hsrc].
    rewrite Hans. vm_compute. reflexivity.
Defined.

(** X7: a retrieval answer that is not empty is never lost: the answer of
    the turn begins with it, unless the web synthesis succeeded.  In that
    case the label is [Web Search Synthesis (Ship Focused)] and the answer
    of the turn is the synthesised text: the stripped, non-empty text of
    the response the model gave to the synthesis prompt built from the
    results the search tool returned for the user's prompt. *)
Theorem rag_answer_is_kept (w : World) (req : ChatRequest.t)
        (rag_response : gmap string string) :
  rag_turn w req ->
  retrieval_outcome w req = Return rag_response ->
  rag_answer_of rag_response <> "" ->
  exists resp tr,
    turn w req = (Return resp, tr) /\
    (begins_with (rag_answer_of rag_response) (ChatResponse.answer resp) \/
     (ChatResponse.final_answer_source resp
      = "Web Search Synthesis (Ship Focused)" /\
      ChatResponse.answer resp <> "" /\
      exists tavily_invoke llm_ainvoke results llm_resp,
        tavily_tool w = Some tavily_invoke /\
        llm w = Some llm_ainvoke /\
        tavily_invoke (ChatRequest.prompt req) = Return results /\
        results <> [] /\
        llm_ainvoke (synthesis_prompt_of (ChatRequest.prompt req)
                       (format_web_results_for_llm
                          results WEB_SEARCH_RESULT_MAX_CHARS))
        = Return llm_resp /\
        ChatResponse.answer resp = final_answer_of llm_resp)).
Proof.
  intros Hrag Hret Hne. rewrite turn_unfold, (main_logic_rag w req Hrag).
  unfold retrieval_outcome in Hret.
  unfold rag_call_and_fallback, bind, try_except, ret.
  destruct (invoke_rag_chain w _ (ChatRequest.history req) []) as [o tr1] eqn:Hcall.
  cbn [fst] in Hret. subst o. fold (rag_answer_of rag_response).
  set (a := rag_answer_of rag_response) in *.
  assert (Hkeep : forall l,
             begins_with a (assistant_response_content l) ->
             begins_with a (ChatResponse.answer
                              (assemble req (ensure_content l)))).
  { intros l Hb. rewrite ensure_content_id; [exact Hb|].
    eapply begins_with_nonempty; eassumption. }
  pose proof (proj2 (truthy_true a) Hne) as Htr.
  destruct (Text.truthy a && is_rag_answer_sufficient a)%bool.
  - eexists _, _. split; [reflexivity|]. left. apply Hkeep.
    apply begins_with_refl.
  - destruct (tool_available w).
    + destruct (perform_web_search_and_synthesis w (ChatRequest.prompt req) tr1)
        as [[r|e] tr2] eqn:Hweb; eexists _, _; (split; [reflexivity|]).
      * destruct (fallback_reply_keeps a (fst r) (snd r) Hne)
          as [Hb|(Hsrc & Hs & Hans & Hnz)].
        -- left. now apply Hkeep.
        -- right.
           destruct (perform_web_search_success w _ _ _ _ Hweb Hsrc)
             as (t & m & rs & llm_resp & Ht & Hm & Hsearch & Hrs & Hllm & Ha & _).
           assert (Hanswer :
                     ChatResponse.answer
                       (assemble req
                          (ensure_content
                             (with_reply (initial_locals req)
                                (fallback_reply a (fst r) (snd r)))))
                     = fst r).
           { rewrite ensure_content_id.
             - cbn [ChatResponse.answer assemble assistant_response_content
                    with_reply]. exact Hans.
             - cbn [assistant_response_content with_reply]. rewrite Hans.
               destruct (fst r); [now contradiction Hnz | reflexivity]. }
           split; [|split].
           ++ cbn [ChatResponse.final_answer_source assemble].
              rewrite ensure_content_id; [exact Hs|].
              cbn [assistant_response_content with_reply]. rewrite Hans.
              destruct (fst r); [now contradiction Hnz | reflexivity].
           ++ rewrite Hanswer. exact Hnz.
           ++ exists t, m, rs, llm_resp.
              split; [exact Ht|]. split; [exact Hm|]. split; [exact Hsearch|].
              split; [exact Hrs|]. split; [exact Hllm|].
              rewrite Hanswer. exact Ha.
      * left. apply Hkeep. cbn [assistant_response_content with_reply].
        unfold fallback_call_failed. rewrite Htr. now eexists.
    + eexists _, _. split; [reflexivity|]. left. apply Hkeep.
      cbn [assistant_response_content with_reply fst]. rewrite Htr. now eexists.
Qed.

Lemma rag_answer_is_kept_witness :
  exists resp tr,
    turn demo_web_world
      (demo_request "the bilge pump is noisy" TroubleshootingState.default false)
    = (Return resp, tr) /\
    (begins_with "It might be the strainer." (ChatResponse.answer resp) \/
     (ChatResponse.final_answer_source resp
      = "Web Search Synthesis (Ship Focused)" /\
      ChatResponse.answer resp <> "")).
Proof.
  assert (Heq : rag_answer_of {[ "answer" := "It might be the strainer." ]}
                = "It might be the strainer.") by (vm_compute; reflexivity).
  destruct (rag_answer_is_kept demo_web_world
              (demo_request "the bilge pump is noisy"
                            TroubleshootingState.default false)
              {[ "answer" := "It might be the strainer." ]})
    as (resp & tr & Hturn & Hkept).
  - split; vm_compute; reflexivity.
  - vm_compute. reflexivity.
  - rewrite Heq. discriminate.
  - rewrite Heq in Hkept. exists resp, tr. split; [exact Hturn|].
    destruct Hkept as [Hb|(Hs & Hnz & _)];
      [left; exact Hb | right; split; [exact Hs | exact Hnz]].
Defined.

(** X8: with no search tool configured, no turn, forced or not, enters
    the web path: neither the search tool nor the synthesis model is
    called. *)
Theorem no_tool_no_web_call (w : World) (req : ChatRequest.t) :
  tavily_tool w = None ->
  exists resp tr,
    turn w req = (Return resp, tr) /\
    Forall (fun ev => is_web_event ev = false) tr.
Proof.
  intros Hnone. rewrite turn_unfold.
  destruct (ChatRequest.force_web_search req) eqn:Hf.
  - unfold main_logic. rewrite Hf, Hnone. unfold bind, ret.
    eexists _, _. split; [reflexivity | constructor].
  - destruct (guided (strategy (plan_of w req))) eqn:Hg.
    + rewrite (main_logic_guided w req Hf Hg).
      eexists _, _. split; [reflexivity | constructor].
    + rewrite (main_logic_rag w req (rag_turn_of_unguided w req Hf Hg)).
      unfold rag_call_and_fallback, bind, try_except, ret, tool_available.
      rewrite Hnone.
      destruct (invoke_rag_chain w _ (ChatRequest.history req) [])
        as [[resp|e] tr1] eqn:Hcall.
      * destruct (Text.truthy _ && is_rag_answer_sufficient _)%bool;
          eexists _, _; (split; [reflexivity|]);
          eapply invoke_rag_chain_events, Hcall.
      * eexists _, _. split; [reflexivity|].
        eapply invoke_rag_chain_events, Hcall.
Qed.

Lemma no_tool_no_web_call_witness :
  exists resp tr,
    turn demo_rag_world
      (demo_request "the pump does not prime" TroubleshootingState.default true)
    = (Return resp, tr) /\
    Forall (fun ev => is_web_event ev = false) tr.
Proof.
  apply (no_tool_no_web_call demo_rag_world
           (demo_request "the pump does not prime"
                         TroubleshootingState.default true)).
  reflexivity.
Defined.

(** X9: whatever the search tool and the model return, and whichever
    exception of the [Exception] hierarchy they raise,
    [perform_web_search_and_synthesis] returns a text that is not empty
    and one of its five labels: an exception raised by the search tool or
    by the model is caught and turned into the message of the handler
    under the label [Error].  (An exception outside that hierarchy, such
    as [asyncio.CancelledError], is caught by no handler of the function
    and is outside the exceptions of the model.) *)
Theorem web_search_failures_become_messages (w : World) (query : string)
        (tr : list event) :
  exists answer label tr',
    perform_web_search_and_synthesis w query tr = (Return (answer, label), tr') /\
    answer <> "" /\
    In label web_labels /\
    (forall tavily_invoke llm_ainvoke e,
        tavily_tool w = Some tavily_invoke ->
        llm w = Some llm_ainvoke ->
        tavily_invoke query = Raised e ->
        (answer, label) = web_search_failure e /\ label = "Error") /\
    (forall tavily_invoke llm_ainvoke results e,
        tavily_tool w = Some tavily_invoke ->
        llm w = Some llm_ainvoke ->
        tavily_invoke query = Return results ->
        results <> [] ->
        llm_ainvoke (synthesis_prompt_of query
                       (format_web_results_for_llm
                          results WEB_SEARCH_RESULT_MAX_CHARS)) = Raised e ->
        (answer, label) = web_search_failure e /\ label = "Error").
Proof.
  assert (Hlabel : forall e, snd (web_search_failure e) = "Error").
  { intros e. unfold web_search_failure. now destruct (is_import_error e). }
  assert (Hfail : forall e,
            exists answer label,
              web_search_failure e = (answer, label) /\
              answer <> "" /\ In label web_labels /\ label = "Error").
  { intros e. destruct (web_search_failure_reply e) as [Hin Hne].
    pose proof (Hlabel e) as Hl.
    destruct (web_search_failure e) as [a l]. cbn [fst snd] in *.
    exists a, l. repeat split; assumption. }
  unfold perform_web_search_and_synthesis, bind, call, try_except, ret.
  destruct (tavily_tool w) as [t|].
  2:{ eexists _, _, _. split; [reflexivity|]. split; [discriminate|].
      split; [unfold web_labels; cbn [In]; now left|].
      split; intros; discriminate. }
  destruct (llm w) as [m|].
  2:{ eexists _, _, _. split; [reflexivity|]. split; [discriminate|].
      split; [unfold web_labels; cbn [In]; right; now left|].
      split; intros; discriminate. }
  destruct (t query) as [[|res more]|e] eqn:Hsearch.
  - eexists _, _, _. split; [reflexivity|]. split; [discriminate|].
    split; [unfold web_labels; cbn [In]; right; right; now left|].
    split.
    + intros t' m' e' [= <-] _ H. rewrite Hsearch in H. discriminate H.
    + intros t' m' rs e' [= <-] _ H Hrs. rewrite Hsearch in H.
      injection H as <-. now contradiction Hrs.
  - remember (synthesis_prompt_of query
                (format_web_results_for_llm (res :: more)
                                            WEB_SEARCH_RESULT_MAX_CHARS))
      as sp eqn:Hsp.
    destruct (m sp) as [resp|e] eqn:Hllm.
    + assert (Hno : forall t' m' rs e',
                 Some t = Some t' -> Some m = Some m' ->
                 t' query = Return rs -> rs <> [] ->
                 m' (synthesis_prompt_of query
                       (format_web_results_for_llm
                          rs WEB_SEARCH_RESULT_MAX_CHARS)) = Raised e' ->
                 False).
      { intros t' m' rs e' [= <-] [= <-] H _ Hr. rewrite Hsearch in H.
        injection H as <-. rewrite <- Hsp, Hllm in Hr. discriminate Hr. }
      destruct (Text.is_empty (final_answer_of resp)) eqn:E.
      * eexists _, _, _. split; [reflexivity|]. split; [discriminate|].
        split; [unfold web_labels; cbn [In]; right; right; right; now left|].
        split.
        -- intros t' m' e' [= <-] _ H. rewrite Hsearch in H. discriminate H.
        -- intros t' m' rs e' H1 H2 H3 H4 H5.
           exfalso. exact (Hno t' m' rs e' H1 H2 H3 H4 H5).
      * eexists _, _, _. split; [reflexivity|].
        split; [intros H; rewrite H in E; discriminate E|].
        split; [unfold web_labels; cbn [In]; right; right; right; right; now left|].
        split.
        -- intros t' m' e' [= <-] _ H. rewrite Hsearch in H. discriminate H.
        -- intros t' m' rs e' H1 H2 H3 H4 H5.
           exfalso. exact (Hno t' m' rs e' H1 H2 H3 H4 H5).
    + destruct (Hfail e) as (a & l & Hw & Hne & Hin & Hl). rewrite Hw.
      eexists _, _, _. split; [reflexivity|]. split; [exact Hne|].
      split; [exact Hin|]. split.
      * intros t' m' e' [= <-] _ H. rewrite Hsearch in H. discriminate H.
      * intros t' m' rs e' [= <-] [= <-] H _ Hr. rewrite Hsearch in H.
        injection H as <-. rewrite <- Hsp, Hllm in Hr. injection Hr as <-.
        split; [symmetry; exact Hw | exact Hl].
  - destruct (Hfail e) as (a & l & Hw & Hne & Hin & Hl). rewrite Hw.
    eexists _, _, _. split; [reflexivity|]. split; [exact Hne|].
    split; [exact Hin|]. split.
    + intros t' m' e' [= <-] _ H. rewrite Hsearch in H. injection H as <-.
      split; [symmetry; exact Hw | exact Hl].
    + intros t' m' rs e' [= <-] _ H. rewrite Hsearch in H. discriminate H.
Qed.

(** X10: the web path calls the search tool at most once and the model at
    most once, the model only after a search that returned results and
    with the prompt built from those results formatted under the budget;
    the label of success stands for the stripped, non-empty text of the
    model's response to that prompt. *)
Theorem web_search_calls (w : World) (query : string)
        (o : outcome (string * string)) (tr : list event) :
  perform_web_search_and_synthesis w query [] = (o, tr) ->
  (tr = [WebSearchAndSynthesis query] \/
   tr = [WebSearchAndSynthesis query; TavilyInvoke query] \/
   exists tavily_invoke results,
     tavily_tool w = Some tavily_invoke /\
     tavily_invoke query = Return results /\
     results <> [] /\
     tr = [WebSearchAndSynthesis query; TavilyInvoke query;
           LlmAinvoke (synthesis_prompt_of query
                         (format_web_results_for_llm
                            results WEB_SEARCH_RESULT_MAX_CHARS))]) /\
  (forall answer,
      o = Return (answer, "Web Search Synthesis (Ship Focused)") ->
      answer <> "" /\
      exists tavily_invoke llm_ainvoke results resp,
        tavily_tool w = Some tavily_invoke /\
        llm w = Some llm_ainvoke /\
        tavily_invoke query = Return results /\
        llm_ainvoke (synthesis_prompt_of query
                       (format_web_results_for_llm
                          results WEB_SEARCH_RESULT_MAX_CHARS)) = Return resp /\
        answer = final_answer_of resp).
Proof.
  intros H. split.
  - apply perform_web_search_trace in H. exact H.
  - intros answer ->.
    destruct (perform_web_search_success w query [] _ tr H eq_refl)
      as (t & m & rs & resp & Ht & Hm & Hs & _ & Hl & Ha & Hne).
    split; [exact Hne|]. now exists t, m, rs, resp.
Qed.

Lemma web_search_calls_witness :
  exists tr,
    perform_web_search_and_synthesis demo_web_world "noisy bilge pump" []
    = (Return ("Clean the strainer.", "Web Search Synthesis (Ship Focused)"), tr) /\
    length tr = 3%nat.
Proof.
  destruct (perform_web_search_and_synthesis demo_web_world "noisy bilge pump" [])
    as [o tr] eqn:H.
  destruct (proj1 (web_search_calls demo_web_world "noisy bilge pump" o tr H))
    as [Htr | [Htr | (t & rs & _ & _ & _ & Htr)]];
    vm_compute in H; injection H as <- <-; try discriminate Htr.
  eexists. split; reflexivity.
Defined.

(** ** The loaded catalog, row by row *)

Section RowFacts.

Lemma odict_get_set {V} (d : odict.t V) k v k' :
  odict.get (odict.set d k v) k' =
  if String.eqb k k' then Some v else odict.get d k'.
Proof.
  induction d as [|[k0 v0] d IH]; cbn [odict.set odict.get].
  - reflexivity.
  - destruct (String.eqb k0 k) eqn:E0; cbn [odict.get].
    + apply String.eqb_eq in E0. subst k0.
      now destruct (String.eqb k k').
    + destruct (String.eqb k0 k') eqn:E1; [|exact IH].
      apply String.eqb_eq in E1. subst k0.
      destruct (String.eqb k k') eqn:E2; [|reflexivity].
      apply String.eqb_eq in E2. subst k'.
      now rewrite String.eqb_refl in E0.
Qed.

Lemma odict_keys_set {V} (d : odict.t V) k v :
  odict.keys (odict.set d k v) =
  if bool_decide (k ∈ odict.keys d) then odict.keys d else odict.keys d ++ [k].
Proof.
  induction d as [|[k0 v0] d IH]; cbn [odict.set].
  - reflexivity.
  - destruct (String.eqb k0 k) eqn:E0.
    + apply String.eqb_eq in E0. subst k0.
      rewrite bool_decide_eq_true_2; [reflexivity|].
      apply elem_of_cons. now left.
    + assert (Hne : k <> k0).
      { intros ->. now rewrite String.eqb_refl in E0. }
      change (odict.keys ((k0, v0) :: odict.set d k v))
        with (k0 :: odict.keys (odict.set d k v)).
      change (odict.keys ((k0, v0) :: d)) with (k0 :: odict.keys d).
      rewrite IH.
      destruct (decide (k ∈ odict.keys d)) as [Hin|Hnin].
      * rewrite !bool_decide_eq_true_2; [reflexivity| |exact Hin].
        apply elem_of_cons. now right.
      * rewrite !bool_decide_eq_false_2; [reflexivity| |exact Hnin].
        intros H. apply elem_of_cons in H as [H|H]; [now apply Hne | now apply Hnin].
Qed.

Lemma fill_loop_flag row (idxs : list Z) e b :
  snd (foldl (fun (acc : gmap string string * bool) (i : Z) =>
                let step_content := cell row (step_key i) in
                (<[step_key i := step_content]> (fst acc),
                 (snd acc || Text.truthy step_content)%bool))
             (e, b) idxs)
  = (b || existsb (fun i => Text.truthy (cell row (step_key i))) idxs)%bool.
Proof.
  revert e b. induction idxs as [|i idxs IH]; intros e b.
  - cbn [existsb]. now rewrite orb_false_r.
  - cbn [existsb]. rewrite orb_assoc. apply IH.
Qed.

Lemma fill_loop_lookup row (idxs : list Z) e b k :
  fst (foldl (fun (acc : gmap string string * bool) (i : Z) =>
                let step_content := cell row (step_key i) in
                (<[step_key i := step_content]> (fst acc),
                 (snd acc || Text.truthy step_content)%bool))
             (e, b) idxs) !! k
  = if bool_decide (k ∈ step_key <$> idxs) then Some (cell row k) else e !! k.
Proof.
  revert e b. induction idxs as [|i idxs IH]; intros e b.
  - rewrite bool_decide_eq_false_2; [reflexivity|]. apply not_elem_of_nil.
  - change (step_key <$> i :: idxs) with (step_key i :: (step_key <$> idxs)).
    etransitivity; [apply IH|]. cbn [fst snd].
    destruct (decide (k ∈ step_key <$> idxs)) as [Hin|Hnin].
    + rewrite !bool_decide_eq_true_2; [reflexivity| |exact Hin].
      apply elem_of_cons. now right.
    + rewrite (bool_decide_eq_false_2 _ Hnin).
      destruct (decide (k = step_key i)) as [->|Hne].
      * rewrite bool_decide_eq_true_2 by (apply elem_of_cons; now left).
        rewrite lookup_insert. now rewrite decide_True.
      * rewrite bool_decide_eq_false_2.
        -- rewrite lookup_insert_ne; [reflexivity | congruence].
        -- intros H. apply elem_of_cons in H as [H|H];
             [now apply Hne | now apply Hnin].
Qed.

(** A record holds the stripped cells of its row under the record keys,
    and nothing else. *)
Lemma record_of_row_lookup row key :
  record_of_row row !! key =
  if bool_decide (key ∈ record_keys) then Some (cell row key) else None.
Proof.
  unfold record_of_row, fill_steps, record_keys. rewrite fill_loop_lookup.
  destruct (decide (key ∈ step_key <$> seqZ 1 MAX_SOLUTION_STEPS)) as [Hin|Hnin].
  - rewrite !bool_decide_eq_true_2; [reflexivity| |exact Hin].
    apply elem_of_cons. now right.
  - rewrite (bool_decide_eq_false_2 _ Hnin).
    destruct (decide (key = "possible_cause")) as [->|Hne].
    + rewrite bool_decide_eq_true_2 by (apply elem_of_cons; now left).
      rewrite lookup_singleton. now rewrite decide_True.
    + rewrite bool_decide_eq_false_2.
      * rewrite lookup_singleton. rewrite decide_False; [reflexivity | congruence].
      * intros H. apply elem_of_cons in H as [H|H];
          [now apply Hne | now apply Hnin].
Qed.

Lemma record_of_row_step row i :
  1 <= i <= MAX_SOLUTION_STEPS ->
  stored_step (record_of_row row) i = cell row (step_key i).
Proof.
  intros Hi. unfold stored_step, get_or. rewrite record_of_row_lookup.
  rewrite bool_decide_eq_true_2; [reflexivity|].
  apply elem_of_cons. right. apply list_elem_of_fmap. exists i.
  split; [reflexivity|]. apply elem_of_seqZ. lia.
Qed.

Lemma fill_steps_flag row e :
  snd (fill_steps row e)
  = existsb (fun i => Text.truthy (cell row (step_key i)))
            (seqZ 1 MAX_SOLUTION_STEPS).
Proof. unfold fill_steps. now rewrite fill_loop_flag. Qed.

Lemma load_row_unfold d row :
  load_row d row =
  if row_kept row
  then odict.set d (cell row "problem") (record_of_row row)
  else d.
Proof.
  unfold load_row, row_kept, record_of_row.
  destruct (Text.truthy (cell row "problem")); [|reflexivity].
  cbn [andb].
  rewrite <- (fill_steps_flag row
                {["possible_cause" := cell row "possible_cause"]}).
  destruct (fill_steps row {["possible_cause" := cell row "possible_cause"]})
    as [e has].
  reflexivity.
Qed.

Lemma load_rows_get rows : forall d k,
  odict.get (foldl load_row d rows) k =
  match last_row_for k rows with
  | Some row => Some (record_of_row row)
  | None => odict.get d k
  end.
Proof.
  induction rows as [|row rows IH]; intros d k; [reflexivity|].
  change (foldl load_row d (row :: rows))
    with (foldl load_row (load_row d row) rows).
  rewrite IH. cbn [last_row_for].
  destruct (last_row_for k rows) as [later|]; [reflexivity|].
  rewrite load_row_unfold.
  destruct (row_kept row); cbn [andb]; [|reflexivity].
  rewrite odict_get_set.
  now destruct (String.eqb (cell row "problem") k).
Qed.

Lemma load_rows_nodup rows : forall d,
  NoDup (odict.keys d) -> NoDup (odict.keys (foldl load_row d rows)).
Proof.
  induction rows as [|row rows IH]; intros d Hd; [exact Hd|].
  change (foldl load_row d (row :: rows))
    with (foldl load_row (load_row d row) rows).
  apply IH. rewrite load_row_unfold.
  destruct (row_kept row); [|exact Hd].
  rewrite odict_keys_set.
  destruct (decide (cell row "problem" ∈ odict.keys d)) as [Hin|Hnin].
  - now rewrite bool_decide_eq_true_2.
  - rewrite bool_decide_eq_false_2 by exact Hnin.
    apply NoDup_app. split; [exact Hd|]. split.
    + intros x Hx Hx'. apply list_elem_of_singleton in Hx'. now subst x.
    + apply NoDup_singleton.
Qed.

Lemma last_row_for_some k rows row :
  last_row_for k rows = Some row ->
  row ∈ rows /\ row_kept row = true /\ cell row "problem" = k.
Proof.
  induction rows as [|r rows IH]; [discriminate|].
  cbn [last_row_for].
  destruct (last_row_for k rows) as [later|].
  - intros [= <-]. destruct (IH eq_refl) as (Hin & Hk).
    split; [apply elem_of_cons; now right | exact Hk].
  - destruct (row_kept r) eqn:Hkept; cbn [andb]; [|discriminate].
    destruct (String.eqb (cell r "problem") k) eqn:E; [|discriminate].
    intros [= <-]. apply String.eqb_eq in E.
    split; [apply elem_of_cons; now left | now split].
Qed.

Lemma last_row_for_is_some k rows row :
  row ∈ rows -> row_kept row = true -> cell row "problem" = k ->
  is_Some (last_row_for k rows).
Proof.
  intros Hin Hkept Hk. induction rows as [|r rows IH].
  - now apply elem_of_nil in Hin.
  - cbn [last_row_for].
    destruct (last_row_for k rows) as [later|] eqn:E; [now eexists|].
    apply elem_of_cons in Hin as [<-|Hin].
    + rewrite Hkept, Hk, String.eqb_refl. now eexists.
    + destruct (IH Hin) as [x Hx]. discriminate Hx.
Qed.

Lemma load_table_get columns rows k :
  odict.get (load_problem_data_dict (CsvTable columns rows)) k =
  if required_columns columns
  then record_of_row <$> last_row_for k rows
  else None.
Proof.
  unfold load_problem_data_dict, required_columns.
  destruct (forallb _ _); [|reflexivity].
  rewrite load_rows_get. now destruct (last_row_for k rows).
Qed.

Lemma row_kept_has_step row :
  row_kept row = true -> has_step (record_of_row row).
Proof.
  unfold row_kept. intros H. apply andb_true_iff in H as [_ H].
  apply existsb_exists in H as (i & Hi & Ht).
  apply list_elem_of_In, elem_of_seqZ in Hi.
  exists i. split; [lia|].
  rewrite record_of_row_step by lia. now apply truthy_true.
Qed.

(** Every record of a loaded catalog is the record of a kept row. *)
Lemma record_of_loaded src k e :
  odict.get (load_problem_data_dict src) k = Some e ->
  exists columns rows row,
    src = CsvTable columns rows /\
    required_columns columns = true /\
    last_row_for k rows = Some row /\
    e = record_of_row row.
Proof.
  destruct src as [| |columns rows]; try discriminate.
  rewrite load_table_get.
  destruct (required_columns columns) eqn:Hc; [|discriminate].
  destruct (last_row_for k rows) as [row|] eqn:Hrow; [|discriminate].
  intros [= <-]. now exists columns, rows, row.
Qed.

(** A problem of a loaded catalog always has a first step to offer. *)
Lemma loaded_first_step src k :
  k ∈ odict.keys (load_problem_data_dict src) ->
  exists n t c,
    get_next_solution_step (load_problem_data_dict src) k 0
    = (Some n, Some t, Some c) /\
    1 <= n <= MAX_SOLUTION_STEPS /\ t <> "".
Proof.
  intros Hk. apply odict_get_keys in Hk as [e Hget].
  pose proof (load_problem_data_dict_ok src) as Hok.
  destruct (record_of_loaded src k e Hget)
    as (columns & rows & row & _ & _ & Hrow & ->).
  apply last_row_for_some in Hrow as (_ & Hkept & _).
  destruct (row_kept_has_step row Hkept) as (i & Hi & Hstep).
  destruct (get_next_solution_step (load_problem_data_dict src) k 0)
    as [[num txt] cause] eqn:E.
  destruct num as [n|].
  - apply get_next_solution_step_bounds in E
      as (Hb & (s & -> & Hs) & [c ->] & _).
    exists n, s, c. split; [reflexivity|]. split; [lia | exact Hs].
  - exfalso. apply Hstep.
    rewrite (get_next_solution_step_scan _ k _ 0 Hok Hget) in E.
    destruct (Hok k _ (odict_get_elem _ _ _ Hget)) as (_ & He).
    destruct (scan_steps (record_of_row row)
                (Z.to_nat (MAX_SOLUTION_STEPS - 0)) (0 + 1))
      as [[j t]|] eqn:Hscan; [discriminate E|].
    apply (scan_steps_none _ _ _ He Hscan).
    unfold MAX_SOLUTION_STEPS in *. lia.
Qed.

End RowFacts.

(** X11: the record a loaded catalog holds under a name is built from the
    last row of the table that names that problem and has a non-empty
    step: its keys are [possible_cause] and the [solution_step_i] of the
    configured range, each holding the stripped cell of that row.  A table
    without the required columns, a missing file and an unreadable one give
    no record at all. *)
Theorem loaded_record (src : csv_source) (k : string)
        (e : gmap string string) :
  odict.get (load_problem_data_dict src) k = Some e <->
  exists columns rows row,
    src = CsvTable columns rows /\
    required_columns columns = true /\
    last_row_for k rows = Some row /\
    forall key,
      e !! key =
      if bool_decide (key ∈ record_keys) then Some (cell row key) else None.
Proof.
  split.
  - intros Hget.
    destruct (record_of_loaded src k e Hget)
      as (columns & rows & row & Hsrc & Hc & Hrow & ->).
    exists columns, rows, row. repeat split; try assumption.
    intros key. apply record_of_row_lookup.
  - intros (columns & rows & row & -> & Hc & Hrow & He).
    rewrite load_table_get, Hc, Hrow. cbn [fmap option_fmap option_map].
    f_equal. apply map_eq. intros key.
    now rewrite He, record_of_row_lookup.
Qed.

(** X12: the names of a loaded catalog are pairwise distinct, and they
    are exactly the stripped [problem] cells of the rows that name a
    problem and have a non-empty step among the configured ones. *)
Theorem loaded_keys (src : csv_source) :
  NoDup (odict.keys (load_problem_data_dict src)) /\
  forall k,
    k ∈ odict.keys (load_problem_data_dict src) <->
    exists columns rows row,
      src = CsvTable columns rows /\
      required_columns columns = true /\
      row ∈ rows /\
      row_kept row = true /\
      cell row "problem" = k.
Proof.
  split.
  - destruct src as [| |columns rows]; try apply NoDup_nil_2.
    unfold load_problem_data_dict.
    destruct (forallb _ _); [|apply NoDup_nil_2].
    apply load_rows_nodup, NoDup_nil_2.
  - intros k. split.
    + intros Hk. apply odict_get_keys in Hk as [e Hget].
      destruct (record_of_loaded src k e Hget)
        as (columns & rows & row & Hsrc & Hc & Hrow & _).
      apply last_row_for_some in Hrow as (Hin & Hkept & Hkey).
      now exists columns, rows, row.
    + intros (columns & rows & row & -> & Hc & Hin & Hkept & Hkey).
      destruct (last_row_for_is_some k rows row Hin Hkept Hkey) as [r Hr].
      apply (odict_get_in_keys _ k (record_of_row r)).
      now rewrite load_table_get, Hc, Hr.
Qed.

(** X13: every problem of a loaded catalog has a first step: asked from
    index 0, [get_next_solution_step] returns a step number within the
    configured range, a non-empty text and a cause. *)
Theorem loaded_problem_has_first_step (src : csv_source) (k : string) :
  k ∈ odict.keys (load_problem_data_dict src) ->
  exists n t c,
    get_next_solution_step (load_problem_data_dict src) k 0
    = (Some n, Some t, Some c) /\
    1 <= n <= MAX_SOLUTION_STEPS /\ t <> "".
Proof. apply loaded_first_step. Qed.

Lemma loaded_problem_has_first_step_witness :
  exists n t c,
    get_next_solution_step (load_problem_data_dict demo_source) "bilge alarm" 0
    = (Some n, Some t, Some c) /\
    1 <= n <= MAX_SOLUTION_STEPS /\ t <> "".
Proof.
  apply (loaded_problem_has_first_step demo_source "bilge alarm").
  eapply odict_get_in_keys. vm_compute. reflexivity.
Defined.

(** X14: with a loaded catalog, a turn that starts troubleshooting always
    finds a step: it answers without any call, under
    [Troubleshooting Start], with the state active on the detected problem
    at a step of the configured range, and offers no web search. *)
Theorem start_always_finds_a_step (w : World) (src : csv_source)
        (req : ChatRequest.t) :
  problem_dict w = load_problem_data_dict src ->
  ChatRequest.force_web_search req = false ->
  strategy (plan_of w req) = start_troubleshooting ->
  exists resp p n,
    turn w req = (Return resp, []) /\
    detect_problem (ChatRequest.prompt req) (problem_dict w) = Some p /\
    ChatResponse.troubleshooting_state resp
    = TroubleshootingState.Make true (Some p) n /\
    1 <= n <= MAX_SOLUTION_STEPS /\
    ChatResponse.final_answer_source resp = "Troubleshooting Start" /\
    ChatResponse.offer_web_search resp = false.
Proof.
  intros Hload Hf Hs. rewrite turn_unfold.
  assert (Hg : guided (strategy (plan_of w req)) = true) by now rewrite Hs.
  rewrite (main_logic_guided w req Hf Hg). unfold guided_reply. rewrite Hs.
  pose proof (determine_strategy_detected w _ _ Hs) as Hdet.
  fold (plan_of w req) in Hdet. rewrite Hdet.
  apply determine_strategy_start in Hs as (_ & _ & Hfound & _).
  destruct (detect_problem (ChatRequest.prompt req) (problem_dict w))
    as [p|] eqn:Hp; [|discriminate Hfound].
  cbn [default from_option id].
  pose proof (detect_problem_in_keys _ _ _ Hp) as Hk.
  rewrite Hload in Hk.
  destruct (loaded_first_step src p Hk) as (n & t & c & Hnext & Hn & Ht).
  pose proof (load_problem_data_dict_ok src) as Hok.
  destruct (odict_get_keys _ _ Hk) as [e Hget].
  destruct (Hok p e (odict_get_elem _ _ _ Hget)) as (_ & Hne & _).
  unfold start_troubleshooting_reply. rewrite Hload, Hget.
  rewrite bool_decide_eq_false_2 by exact Hne.
  rewrite Hnext.
  assert (Hnum : truthy_num (Some n) = true).
  { cbn [truthy_num]. apply negb_true_iff, Z.eqb_neq. lia. }
  assert (Htxt : truthy_opt (Some t) = true).
  { cbn [truthy_opt]. now apply truthy_true. }
  rewrite Hnum, Htxt. cbn [andb default from_option id].
  rewrite ensure_content_id by reflexivity.
  eexists _, p, n. split; [reflexivity|].
  repeat split; try reflexivity; lia.
Qed.

Lemma start_always_finds_a_step_witness :
  exists resp p n,
    turn demo_world
      (demo_request "how do I fix the bilge alarm"
                    TroubleshootingState.default false)
    = (Return resp, []) /\
    ChatResponse.troubleshooting_state resp
    = TroubleshootingState.Make true (Some p) n.
Proof.
  destruct (start_always_finds_a_step demo_world demo_source
              (demo_request "how do I fix the bilge alarm"
                            TroubleshootingState.default false)
              eq_refl eq_refl)
    as (resp & p & n & Hturn & _ & Hts & _); [vm_compute; reflexivity|].
  exists resp, p, n. split; [exact Hturn | exact Hts].
Defined.

(** ** Which key [detect_problem] prefers *)

Section DetectFacts.

Lemma len_pos s : s <> "" <-> 0 < Text.len s.
Proof.
  unfold Text.len. destruct s as [|a s]; cbn [String.length].
  - split; [congruence | lia].
  - split; [lia | discriminate].
Qed.

Lemma exact_match_first t ks k :
  k ∈ ks -> Text.lower k = t ->
  exists k' before after,
    exact_match t ks = Some k' /\
    ks = before ++ k' :: after /\
    Text.lower k' = t /\
    forall x, x ∈ before -> Text.lower x <> t.
Proof.
  intros Hin Hk. induction ks as [|x ks IH].
  - now apply elem_of_nil in Hin.
  - cbn [exact_match].
    destruct (String.eqb (Text.lower x) t) eqn:E.
    + apply String.eqb_eq in E. exists x, [], ks.
      repeat split; try assumption.
      intros y Hy. now apply elem_of_nil in Hy.
    + apply String.eqb_neq in E.
      apply elem_of_cons in Hin as [->|Hin]; [contradiction|].
      destruct (IH Hin) as (k' & before & after & Hm & Hks & Hk' & Hb).
      exists k', (x :: before), after.
      split; [exact Hm|]. split; [now rewrite Hks|]. split; [exact Hk'|].
      intros y Hy. apply elem_of_cons in Hy as [->|Hy]; [exact E | now apply Hb].
Qed.

Lemma exact_match_none t ks :
  (forall k, k ∈ ks -> Text.lower k <> t) -> exact_match t ks = None.
Proof.
  induction ks as [|x ks IH]; intros H; [reflexivity|].
  cbn [exact_match].
  destruct (String.eqb (Text.lower x) t) eqn:E.
  - apply String.eqb_eq in E. exfalso. apply (H x); [|exact E].
    apply elem_of_cons. now left.
  - apply IH. intros k Hk. apply H, elem_of_cons. now right.
Qed.

(** A pass that replaces the best match by every good key that strictly
    beats the score reached so far: it leaves the state alone when no
    good key beats it, and ends on the first of the best good keys
    otherwise. *)
Lemma best_pass_spec (f : option string * Z -> string -> option string * Z)
      (good : string -> bool) (score : string -> Z) (ks : list string) :
  (forall st k,
      f st k = if (good k && (score k >? snd st))%bool
               then (Some k, score k) else st) ->
  forall st,
    (foldl f st ks = st /\
     forall k, k ∈ ks -> good k = true -> score k <= snd st) \/
    (exists k,
        foldl f st ks = (Some k, score k) /\
        snd st < score k /\
        first_best good score ks k).
Proof.
  intros Hf. induction ks as [|x ks IH]; intros st.
  - left. split; [reflexivity|]. intros k Hk. now apply elem_of_nil in Hk.
  - change (foldl f st (x :: ks)) with (foldl f (f st x) ks).
    rewrite Hf.
    destruct (good x && (score x >? snd st))%bool eqn:E.
    + apply andb_true_iff in E as [Hg Hs]. apply Z.gtb_lt in Hs.
      destruct (IH (Some x, score x)) as [[Heq Hall]|(k & Heq & Hlt & Hbest)].
      * right. exists x. split; [exact Heq|]. split; [exact Hs|].
        exists [], ks. split; [reflexivity|]. split; [exact Hg|].
        split; [|exact Hall].
        intros y Hy. now apply elem_of_nil in Hy.
      * right. exists k. split; [exact Heq|]. cbn [snd] in Hlt.
        split; [lia|].
        destruct Hbest as (before & after & Hks & Hgk & Hb & Ha).
        exists (x :: before), after.
        split; [now rewrite Hks|]. split; [exact Hgk|]. split; [|exact Ha].
        intros y Hy Hgy. apply elem_of_cons in Hy as [->|Hy];
          [exact Hlt | now apply Hb].
    + assert (Hx : good x = true -> score x <= snd st).
      { intros Hg. rewrite Hg in E. cbn [andb] in E.
        rewrite Z.gtb_ltb in E. now apply Z.ltb_ge in E. }
      destruct (IH st) as [[Heq Hall]|(k & Heq & Hlt & Hbest)].
      * left. split; [exact Heq|].
        intros y Hy Hgy. apply elem_of_cons in Hy as [->|Hy];
          [now apply Hx | now apply Hall].
      * right. exists k. split; [exact Heq|]. split; [exact Hlt|].
        destruct Hbest as (before & after & Hks & Hgk & Hb & Ha).
        exists (x :: before), after.
        split; [now rewrite Hks|]. split; [exact Hgk|]. split; [|exact Ha].
        intros y Hy Hgy. apply elem_of_cons in Hy as [->|Hy];
          [specialize (Hx Hgy); lia | now apply Hb].
Qed.

Lemma substring_pass_spec t ks st :
  (substring_pass t ks st = st /\
   forall k, k ∈ ks -> contained_in t k = true -> Text.len k <= snd st) \/
  (exists k,
      substring_pass t ks st = (Some k, Text.len k) /\
      snd st < Text.len k /\
      first_best (contained_in t) Text.len ks k).
Proof.
  unfold substring_pass. apply best_pass_spec.
  intros s k. unfold contained_in.
  destruct (Text.contains (Text.lower k) t); [|reflexivity].
  now destruct (Text.len k >? snd s).
Qed.

Lemma keyword_pass_spec t ks st :
  (keyword_pass (keywords t) ks st = st /\
   forall k, k ∈ ks -> (2 <=? shared_keywords t k) = true ->
             shared_keywords t k <= snd st) \/
  (exists k,
      keyword_pass (keywords t) ks st = (Some k, shared_keywords t k) /\
      snd st < shared_keywords t k /\
      first_best (fun x => 2 <=? shared_keywords t x) (shared_keywords t) ks k).
Proof.
  unfold keyword_pass. apply best_pass_spec.
  intros s k. cbv zeta. fold (shared_keywords t k).
  now rewrite Z.geb_leb.
Qed.

Lemma detect_problem_unfold text d :
  text <> "" -> d <> [] ->
  detect_problem text d =
  match exact_match (normalised text) (odict.keys d) with
  | Some problem_key => Some problem_key
  | None =>
      let st := substring_pass (normalised text) (odict.keys d) (None, 0) in
      if negb (truthy_opt (fst st)) then
        if Z.of_nat (size (keywords (normalised text))) <? 2 then None
        else fst (keyword_pass (keywords (normalised text)) (odict.keys d) st)
      else fst st
  end.
Proof.
  intros Ht Hd. unfold detect_problem.
  replace (odict.is_empty d) with false by now destruct d.
  replace (Text.is_empty text) with false by now destruct text.
  reflexivity.
Qed.

Lemma keys_nonempty {V} (d : odict.t V) k : k ∈ odict.keys d -> d <> [].
Proof. intros Hk ->. now apply elem_of_nil in Hk. Qed.

Lemma shared_keywords_le t k :
  shared_keywords t k <= Z.of_nat (size (keywords t)).
Proof.
  unfold shared_keywords. apply inj_le, subseteq_size.
  apply intersection_subseteq_l.
Qed.

End DetectFacts.

(** X15: a text that is one of the keys up to case and surrounding white
    space is detected as the first key in the order of the dictionary that
    it equals in this way, whatever the other keys are. *)
Theorem detect_problem_exact_match (text : string) (d : catalog) (k : string) :
  text <> "" ->
  k ∈ odict.keys d ->
  Text.lower k = normalised text ->
  exists k' before after,
    detect_problem text d = Some k' /\
    odict.keys d = before ++ k' :: after /\
    Text.lower k' = normalised text /\
    forall x, x ∈ before -> Text.lower x <> normalised text.
Proof.
  intros Ht Hk Heq.
  destruct (exact_match_first (normalised text) (odict.keys d) k Hk Heq)
    as (k' & before & after & Hm & Hks & Hk' & Hb).
  exists k', before, after.
  rewrite (detect_problem_unfold text d Ht (keys_nonempty d k Hk)), Hm.
  repeat split; assumption.
Qed.

Lemma detect_problem_exact_match_witness :
  exists k' before after,
    detect_problem " Bilge Alarm " (load_problem_data_dict demo_source)
    = Some k' /\
    odict.keys (load_problem_data_dict demo_source) = before ++ k' :: after.
Proof.
  destruct (detect_problem_exact_match " Bilge Alarm "
              (load_problem_data_dict demo_source) "bilge alarm")
    as (k' & before & after & Hd & Hks & _).
  - discriminate.
  - eapply odict_get_in_keys. vm_compute. reflexivity.
  - vm_compute. reflexivity.
  - exists k', before, after. split; [exact Hd | exact Hks].
Defined.

(** X16: when no key equals the text, and some non-empty key occurs in
    it, the key detected is the longest key occurring in the text, the
    first one in the order of the dictionary among the longest; keywords
    play no part. *)
Theorem detect_problem_longest_contained (text : string) (d : catalog)
        (k0 : string) :
  text <> "" ->
  (forall k, k ∈ odict.keys d -> Text.lower k <> normalised text) ->
  k0 ∈ odict.keys d ->
  k0 <> "" ->
  contained_in (normalised text) k0 = true ->
  exists k,
    detect_problem text d = Some k /\
    first_best (contained_in (normalised text)) Text.len (odict.keys d) k.
Proof.
  intros Ht Hex Hk0 Hne Hc.
  rewrite (detect_problem_unfold text d Ht (keys_nonempty d k0 Hk0)).
  rewrite (exact_match_none _ _ Hex). cbv zeta.
  destruct (substring_pass_spec (normalised text) (odict.keys d) (None, 0))
    as [[_ Hall]|(k & Heq & Hlt & Hbest)].
  - exfalso. specialize (Hall k0 Hk0 Hc). cbn [snd] in Hall.
    apply len_pos in Hne. lia.
  - exists k. rewrite Heq. cbn [fst snd truthy_opt] in *.
    apply len_pos, truthy_true in Hlt. rewrite Hlt. cbn [negb].
    split; [reflexivity | exact Hbest].
Qed.

Lemma detect_problem_longest_contained_witness :
  exists k,
    detect_problem "how do I fix pump overheating"
                   (load_problem_data_dict demo_source) = Some k.
Proof.
  assert (Hkeys : odict.keys (load_problem_data_dict demo_source)
                  = ["pump overheating"; "bilge alarm"])
    by (vm_compute; reflexivity).
  destruct (detect_problem_longest_contained "how do I fix pump overheating"
              (load_problem_data_dict demo_source) "pump overheating")
    as (k & Hd & _).
  - discriminate.
  - rewrite Hkeys. intros k Hk.
    apply elem_of_cons in Hk as [->|Hk]; [vm_compute; discriminate|].
    apply elem_of_cons in Hk as [->|Hk]; [vm_compute; discriminate|].
    now apply elem_of_nil in Hk.
  - rewrite Hkeys. apply elem_of_cons. left. reflexivity.
  - discriminate.
  - vm_compute. reflexivity.
  - exists k. exact Hd.
Defined.

(** X17: when no key equals the text and no non-empty key occurs in it,
    the keywords decide: the key detected is the first of those sharing
    the most keywords with the text, two at least, and the text itself
    has two keywords or more; nothing is detected exactly when no key
    shares two keywords with the text. *)
Theorem detect_problem_by_keywords (text : string) (d : catalog) :
  text <> "" ->
  d <> [] ->
  (forall k, k ∈ odict.keys d -> Text.lower k <> normalised text) ->
  (forall k, k ∈ odict.keys d ->
             contained_in (normalised text) k = true -> k = "") ->
  match detect_problem text d with
  | Some k =>
      2 <= Z.of_nat (size (keywords (normalised text))) /\
      first_best (fun x => 2 <=? shared_keywords (normalised text) x)
                 (shared_keywords (normalised text)) (odict.keys d) k
  | None =>
      forall k, k ∈ odict.keys d -> shared_keywords (normalised text) k < 2
  end.
Proof.
  intros Ht Hd Hex Hsub.
  rewrite (detect_problem_unfold text d Ht Hd).
  rewrite (exact_match_none _ _ Hex). cbv zeta.
  destruct (substring_pass_spec (normalised text) (odict.keys d) (None, 0))
    as [[Heq _]|(k & _ & Hlt & (before & after & Hks & Hc & _))].
  2:{ exfalso. cbn [snd] in Hlt.
      assert (Hk : k ∈ odict.keys d).
      { rewrite Hks. apply elem_of_app. right. apply elem_of_cons. now left. }
      rewrite (Hsub k Hk Hc) in Hlt. unfold Text.len in Hlt.
      cbn [String.length] in Hlt. lia. }
  rewrite Heq. cbn [fst truthy_opt negb].
  destruct (Z.of_nat (size (keywords (normalised text))) <? 2) eqn:Hsize.
  - apply Z.ltb_lt in Hsize. intros k _.
    pose proof (shared_keywords_le (normalised text) k). lia.
  - apply Z.ltb_ge in Hsize.
    destruct (keyword_pass_spec (normalised text) (odict.keys d) (None, 0))
      as [[Heq' Hall]|(k & Heq' & _ & Hbest)]; rewrite Heq'; cbn [fst].
    + intros k Hk.
      destruct (2 <=? shared_keywords (normalised text) k) eqn:E.
      * specialize (Hall k Hk E). cbn [snd] in Hall.
        apply Z.leb_le in E. lia.
      * now apply Z.leb_gt in E.
    + split; [exact Hsize | exact Hbest].
Qed.

Lemma detect_problem_by_keywords_witness :
  match detect_problem "the pump keeps overheating badly"
                       (load_problem_data_dict demo_source) with
  | Some k =>
      2 <= Z.of_nat (size (keywords (normalised "the pump keeps overheating badly"))) /\
      first_best
        (fun x => 2 <=? shared_keywords
                          (normalised "the pump keeps overheating badly") x)
        (shared_keywords (normalised "the pump keeps overheating badly"))
        (odict.keys (load_problem_data_dict demo_source)) k
  | None =>
      forall k, k ∈ odict.keys (load_problem_data_dict demo_source) ->
                shared_keywords (normalised "the pump keeps overheating badly") k
                < 2
  end.
Proof.
  assert (Hkeys : odict.keys (load_problem_data_dict demo_source)
                  = ["pump overheating"; "bilge alarm"])
    by (vm_compute; reflexivity).
  apply (detect_problem_by_keywords "the pump keeps overheating badly"
           (load_problem_data_dict demo_source)).
  - discriminate.
  - apply (keys_nonempty _ "pump overheating"). rewrite Hkeys.
    apply elem_of_cons. left. reflexivity.
  - rewrite Hkeys. intros k Hk.
    apply elem_of_cons in Hk as [->|Hk]; [vm_compute; discriminate|].
    apply elem_of_cons in Hk as [->|Hk]; [vm_compute; discriminate|].
    now apply elem_of_nil in Hk.
  - rewrite Hkeys. intros k Hk Hc.
    apply elem_of_cons in Hk as [->|Hk]; [vm_compute in Hc; discriminate Hc|].
    apply elem_of_cons in Hk as [->|Hk]; [vm_compute in Hc; discriminate Hc|].
    now apply elem_of_nil in Hk.
Defined.

(** X18: for any dictionary, known problem or not, and any cursor,
    [get_next_solution_step] never hands out a step at or below the
    cursor or beyond the configured maximum, and never an empty text:
    an unknown problem gives three [None]s, a cursor at the maximum gives
    no step, and a step number comes with a non-empty text and a cause. *)
Theorem get_next_solution_step_range (d : catalog) (p : string) (cur : Z) :
  let r := get_next_solution_step d p cur in
  (p ∉ odict.keys d -> r = (None, None, None)) /\
  (MAX_SOLUTION_STEPS <= cur -> fst (fst r) = None /\ snd (fst r) = None) /\
  (forall n,
      fst (fst r) = Some n ->
      cur < n <= MAX_SOLUTION_STEPS /\
      exists s c, r = (Some n, Some s, Some c) /\ s <> "").
Proof.
  intros r. subst r. split; [|split].
  - intros Hp. unfold get_next_solution_step.
    destruct (odict.get d p) as [e|] eqn:Hget; [|reflexivity].
    exfalso. eapply Hp, odict_get_in_keys, Hget.
  - intros Hmax. unfold get_next_solution_step.
    destruct (odict.get d p) as [e|]; [|now split].
    destruct (bool_decide (e = ∅)); [now split|].
    replace (Z.to_nat (MAX_SOLUTION_STEPS + 1 - (cur + 1))) with 0%nat by lia.
    now split.
  - intros n Hn.
    destruct (get_next_solution_step d p cur) as [[on ot] oc] eqn:E.
    cbn [fst] in Hn. subst on.
    apply get_next_solution_step_bounds in E
      as (Hb & (s & -> & Hs) & [c ->] & _).
    split; [exact Hb|]. now exists s, c.
Qed.

(** ** What the formatter keeps *)

Section KeepFacts.

Lemma format_loop_all max_chars results :
  forall i formatted total_chars,
    0 < total_chars ->
    total_chars + added (entries_from i results) <= max_chars ->
    format_loop max_chars results i formatted total_chars
    = formatted ++ entries_from i results.
Proof.
  induction results as [|res more IH]; intros i formatted total Hpos Hfit.
  - cbn [format_loop entries_from]. now rewrite app_nil_r.
  - rewrite format_loop_cons.
    cbn [entries_from added] in Hfit.
    pose proof (added_nonneg (entries_from (i + 1) more)) as Hadd.
    pose proof (len_nonneg separator) as Hsep.
    pose proof (len_entry_pos i res) as Hentry.
    replace (total =? 0) with false by (symmetry; apply Z.eqb_neq; lia).
    replace (total + Text.len separator + Text.len (entry_of i res) <=? max_chars)
      with true by (symmetry; apply Z.leb_le; lia).
    rewrite IH by lia.
    cbn [entries_from]. now rewrite <- app_assoc.
Qed.

Lemma begins_with_trans a b c :
  begins_with a b -> begins_with b c -> begins_with a c.
Proof.
  intros [x ->] [y ->]. exists (x +:+ y). apply append_assoc.
Qed.

Lemma join_begins x l : begins_with x (join separator (x :: l)).
Proof.
  destruct l as [|y l].
  - apply begins_with_refl.
  - now exists (separator +:+ join separator (y :: l)).
Qed.

Lemma entry_begins i res : begins_with (short_of i res) (entry_of i res).
Proof.
  unfold short_of, entry_of, header_of.
  eexists. rewrite append_assoc. reflexivity.
Qed.

End KeepFacts.

(** X19: when all the results, joined in full, fit the budget, the
    formatter returns exactly that: every result in input order with its
    whole content, nothing cut and nothing dropped. *)
Theorem format_keeps_all_that_fit (res : gmap string string)
        (more : list (gmap string string)) (max_chars : Z) :
  let results := res :: more in
  Text.len (join separator (entries_from 0 results)) <= max_chars ->
  format_web_results_for_llm results max_chars
  = join separator (entries_from 0 results).
Proof.
  intros results Hfit. subst results.
  cbn [entries_from] in Hfit. rewrite len_join_cons in Hfit.
  pose proof (added_nonneg (entries_from (0 + 1) more)) as Hadd.
  pose proof (len_entry_pos 0 res) as Hentry.
  unfold format_web_results_for_llm. rewrite format_loop_cons.
  change (0 =? 0) with true. cbv iota.
  replace (Text.len (entry_of 0 res) <=? max_chars) with true
    by (symmetry; apply Z.leb_le; lia).
  rewrite format_loop_all by lia.
  reflexivity.
Qed.

Lemma format_keeps_all_that_fit_witness :
  format_web_results_for_llm
    [demo_result "T" "u" "abc"; demo_result "T2" "u2" "def"] 200
  = join separator
      (entries_from 0 [demo_result "T" "u" "abc"; demo_result "T2" "u2" "def"]).
Proof.
  apply (format_keeps_all_that_fit (demo_result "T" "u" "abc")
           [demo_result "T2" "u2" "def"] 200).
  vm_compute. discriminate.
Defined.

(** X20: whatever the budget, zero and negative ones included, the output
    for a non-empty list begins with the number, the source and the title
    of the first result: the budget is never applied to them. *)
Theorem format_names_first_result (res : gmap string string)
        (more : list (gmap string string)) (max_chars : Z) :
  begins_with (short_of 0 res)
              (format_web_results_for_llm (res :: more) max_chars).
Proof.
  unfold format_web_results_for_llm. rewrite format_loop_cons.
  change (0 =? 0) with true. cbv iota.
  destruct (Text.len (entry_of 0 res) <=? max_chars).
  - destruct (format_loop_rest max_chars more (0 + 1) ([] ++ [entry_of 0 res])
                (0 + Text.len (entry_of 0 res)))
      as (k & tail & _ & Heq & _).
    { pose proof (len_entry_pos 0 res). lia. }
    rewrite Heq. change ([] ++ [entry_of 0 res]) with [entry_of 0 res].
    change ([entry_of 0 res] ++ take k (entries_from (0 + 1) more) ++ tail)
      with (entry_of 0 res :: (take k (entries_from (0 + 1) more) ++ tail)).
    eapply begins_with_trans; [apply entry_begins | apply join_begins].
  - change ([] ++ ?l) with l. cbn [join].
    unfold short_of, header_of. eexists. rewrite append_assoc. reflexivity.
Qed.

(** ** The documents of the vector store *)

Section DocumentFacts.

Lemma step_key_1 : step_key 1 = "solution_step_1".
Proof. vm_compute. reflexivity. Qed.

Lemma not_a_step_key k (idxs : list Z) :
  (forall i, k <> step_key i) -> k ∉ step_key <$> idxs.
Proof.
  intros Hk Hin. apply list_elem_of_fmap in Hin as (i & -> & _).
  now apply (Hk i).
Qed.

Lemma join_begins_with sep x l : begins_with x (join sep (x :: l)).
Proof.
  destruct l as [|y l].
  - apply begins_with_refl.
  - now exists (sep +:+ join sep (y :: l)).
Qed.

Lemma first_step_found row :
  Text.truthy (cell row "solution_step_1") = true ->
  existsb (fun i => Text.truthy (cell row (step_key i)))
          (seqZ 1 MAX_SOLUTION_STEPS) = true.
Proof.
  intros H. apply existsb_exists. exists 1. split.
  - apply list_elem_of_In, elem_of_seqZ. unfold MAX_SOLUTION_STEPS. lia.
  - now rewrite step_key_1.
Qed.

(** The loop over the step columns: what it leaves in the metadata, in
    the content parts and in [valid_steps_found]. *)
Lemma document_loop row (idxs : list Z) :
  forall m parts v,
    let r :=
      foldl (fun (acc : gmap string meta_value * list string * bool) (i : Z) =>
               let '(metadata, content_parts, valid_steps_found) := acc in
               let step_content := cell row (step_key i) in
               (<[step_key i := MStr step_content]> metadata,
                if Text.truthy step_content
                then content_parts ++
                       ["Solution Step " +:+ pretty i +:+ ": " +:+ step_content]
                else content_parts,
                (valid_steps_found || Text.truthy step_content)%bool))
            (m, parts, v) idxs in
    (forall k,
        fst (fst r) !! k =
        if bool_decide (k ∈ step_key <$> idxs)
        then Some (MStr (cell row k)) else m !! k) /\
    (exists extra, snd (fst r) = parts ++ extra) /\
    snd r = (v || existsb (fun i => Text.truthy (cell row (step_key i))) idxs)%bool.
Proof.
  induction idxs as [|i idxs IH]; intros m parts v r; subst r.
  - split; [|split].
    + intros k. rewrite bool_decide_eq_false_2 by apply not_elem_of_nil.
      reflexivity.
    + exists []. symmetry. apply app_nil_r.
    + symmetry. apply orb_false_r.
  - pose proof (IH (<[step_key i := MStr (cell row (step_key i))]> m)
                   (if Text.truthy (cell row (step_key i))
                    then parts ++
                           ["Solution Step " +:+ pretty i +:+ ": " +:+
                            cell row (step_key i)]
                    else parts)
                   (v || Text.truthy (cell row (step_key i)))%bool) as H.
    cbv zeta in H. destruct H as (Hm & (extra & Hp) & Hv).
    split; [|split].
    + intros k. etransitivity; [exact (Hm k)|].
      change (step_key <$> i :: idxs) with (step_key i :: (step_key <$> idxs)).
      destruct (decide (k ∈ step_key <$> idxs)) as [Hin|Hnin].
      * rewrite !bool_decide_eq_true_2; [reflexivity| |exact Hin].
        apply elem_of_cons. now right.
      * rewrite (bool_decide_eq_false_2 _ Hnin).
        destruct (decide (k = step_key i)) as [->|Hne].
        -- rewrite bool_decide_eq_true_2 by (apply elem_of_cons; now left).
           apply lookup_insert_eq.
        -- rewrite bool_decide_eq_false_2.
           ++ apply lookup_insert_ne. congruence.
           ++ intros H. apply elem_of_cons in H as [H|H];
                [now apply Hne | now apply Hnin].
    + exists ((if Text.truthy (cell row (step_key i))
               then ["Solution Step " +:+ pretty i +:+ ": " +:+
                     cell row (step_key i)]
               else []) ++ extra).
      etransitivity; [exact Hp|].
      destruct (Text.truthy (cell row (step_key i)));
        [now rewrite <- app_assoc | reflexivity].
    + etransitivity; [exact Hv|]. cbn [existsb]. symmetry. apply orb_assoc.
Qed.

Lemma document_of_row_none name index row :
  row_documented row = false -> document_of_row name index row = None.
Proof.
  unfold row_documented, document_of_row. cbv zeta. intros H.
  replace (negb (Text.truthy (cell row "problem"))
           || negb (Text.truthy (cell row "solution_step_1")))%bool with true;
    [reflexivity|].
  destruct (Text.truthy (cell row "problem")),
           (Text.truthy (cell row "solution_step_1"));
    try reflexivity; discriminate H.
Qed.

Lemma document_of_row_some name index row :
  row_documented row = true ->
  exists doc,
    document_of_row name index row = Some doc /\
    metadata doc !! "source" = Some (MStr name) /\
    metadata doc !! "row" = Some (MInt (index + 2)) /\
    metadata doc !! "problem" = Some (MStr (cell row "problem")) /\
    begins_with ("Problem: " +:+ cell row "problem") (page_content doc).
Proof.
  unfold row_documented. intros H. apply andb_true_iff in H as [Hp Hs].
  assert (Hsrc : forall idxs : list Z, "source" ∉ step_key <$> idxs).
  { intros idxs. apply not_a_step_key. intros i. unfold step_key. discriminate. }
  assert (Hrow : forall idxs : list Z, "row" ∉ step_key <$> idxs).
  { intros idxs. apply not_a_step_key. intros i. unfold step_key. discriminate. }
  assert (Hpb : forall idxs : list Z, "problem" ∉ step_key <$> idxs).
  { intros idxs. apply not_a_step_key. intros i. unfold step_key. discriminate. }
  unfold document_of_row. cbv zeta. rewrite Hp, Hs. cbn [negb orb].
  destruct (Text.truthy (cell row "possible_cause")).
  - pose proof (document_loop row (seqZ 1 MAX_SOLUTION_STEPS)
                  (<["possible_cause" := MStr (cell row "possible_cause")]>
                     (<["problem" := MStr (cell row "problem")]>
                        (<["row" := MInt (index + 2)]> {["source" := MStr name]})))
                  (["Problem: " +:+ cell row "problem"] ++
                   ["Possible Cause: " +:+ cell row "possible_cause"])
                  false) as H.
    cbv zeta in H. fold (document_steps row) in H.
    unfold document_steps in H |- *.
    match type of H with
    | context [foldl ?f ?a ?l] => destruct (foldl f a l) as [[m parts] v]
    end.
    cbn [fst snd orb] in H. destruct H as (Hm & (extra & ->) & ->).
    rewrite (first_step_found row Hs). cbn [negb].
    eexists. split; [reflexivity|]. cbn [metadata page_content].
    rewrite !Hm.
    rewrite (bool_decide_eq_false_2 _ (Hsrc _)),
            (bool_decide_eq_false_2 _ (Hrow _)),
            (bool_decide_eq_false_2 _ (Hpb _)).
    repeat split. apply join_begins_with.
  - pose proof (document_loop row (seqZ 1 MAX_SOLUTION_STEPS)
                  (<["problem" := MStr (cell row "problem")]>
                     (<["row" := MInt (index + 2)]> {["source" := MStr name]}))
                  ["Problem: " +:+ cell row "problem"]
                  false) as H.
    cbv zeta in H.
    unfold document_steps.
    match type of H with
    | context [foldl ?f ?a ?l] => destruct (foldl f a l) as [[m parts] v]
    end.
    cbn [fst snd orb] in H. destruct H as (Hm & (extra & ->) & ->).
    rewrite (first_step_found row Hs). cbn [negb].
    eexists. split; [reflexivity|]. cbn [metadata page_content].
    rewrite !Hm.
    rewrite (bool_decide_eq_false_2 _ (Hsrc _)),
            (bool_decide_eq_false_2 _ (Hrow _)),
            (bool_decide_eq_false_2 _ (Hpb _)).
    repeat split. apply join_begins_with.
Qed.

Lemma document_of_row_documented name index row doc :
  document_of_row name index row = Some doc -> row_documented row = true.
Proof.
  intros H. destruct (row_documented row) eqn:E; [reflexivity|].
  rewrite (document_of_row_none name index row E) in H. discriminate H.
Qed.

Lemma documents_from_elem name rows :
  forall index doc,
    doc ∈ documents_from name index rows ->
    exists (i : nat) row,
      rows !! i = Some row /\
      document_of_row name (index + Z.of_nat i) row = Some doc.
Proof.
  induction rows as [|row rows IH]; intros index doc H;
    cbn [documents_from] in H.
  - now apply elem_of_nil in H.
  - assert (Hrest : doc ∈ documents_from name (index + 1) rows ->
                    exists (i : nat) r,
                      (row :: rows) !! i = Some r /\
                      document_of_row name (index + Z.of_nat i) r = Some doc).
    { intros Hin. destruct (IH _ _ Hin) as (i & r & Hi & Hdoc).
      exists (S i), r. split; [exact Hi|].
      now replace (index + Z.of_nat (S i)) with (index + 1 + Z.of_nat i) by lia. }
    destruct (document_of_row name index row) as [d|] eqn:E;
      [|now apply Hrest].
    apply elem_of_cons in H as [->|H]; [|now apply Hrest].
    exists 0%nat, row. split; [reflexivity|].
    now replace (index + Z.of_nat 0) with index by lia.
Qed.

Lemma documents_from_rows name rows :
  forall index,
    row_numbers (documents_from name index rows)
    = (fun n => Some (MInt n)) <$> documented_rows index rows.
Proof.
  induction rows as [|row rows IH]; intros index; [reflexivity|].
  cbn [documents_from documented_rows].
  destruct (row_documented row) eqn:E.
  - destruct (document_of_row_some name index row E)
      as (doc & -> & _ & Hrow & _).
    unfold row_numbers in *. cbn [fmap list_fmap].
    rewrite Hrow. f_equal. apply IH.
  - rewrite (document_of_row_none name index row E). apply IH.
Qed.

Lemma load_documents_table name columns rows :
  load_documents_from_csv name (CsvTable columns rows) =
  if required_columns columns then documents_from name 0 rows else [].
Proof.
  unfold load_documents_from_csv, required_columns.
  cbn [List.filter forallb].
  destruct (bool_decide ("problem" ∈ columns)),
           (bool_decide ("solution_step_1" ∈ columns)); reflexivity.
Qed.

Lemma row_documented_kept row :
  row_documented row = true -> row_kept row = true.
Proof.
  unfold row_documented, row_kept. intros H.
  apply andb_true_iff in H as [Hp Hs].
  now rewrite Hp, (first_step_found row Hs).
Qed.

Lemma truthy_lower s : Text.truthy (Text.lower s) = Text.truthy s.
Proof. now destruct s. Qed.

Lemma count_relevant_spec query docs :
  (forall doc, doc ∈ docs -> problem_is_text doc) ->
  forall c,
    exists c',
      count_relevant (Text.lower query) (keywords (Text.lower query)) docs c
      = Some c' /\
      c <= c' /\
      (c < c' <-> exists doc, doc ∈ docs /\ doc_relevant query doc).
Proof.
  induction docs as [|doc docs IH]; intros Htext c.
  - exists c. split; [reflexivity|]. split; [lia|]. split; [lia|].
    intros (doc & Hin & _). now apply elem_of_nil in Hin.
  - assert (Htext' : forall d, d ∈ docs -> problem_is_text d).
    { intros d Hd. apply Htext, elem_of_cons. now right. }
    assert (Hcount : exists c',
               count_relevant (Text.lower query) (keywords (Text.lower query))
                              docs (c + 1) = Some c' /\
               c <= c' /\
               (doc_relevant query doc ->
                c < c' <-> exists d, d ∈ (doc :: docs) /\ doc_relevant query d)).
    { destruct (IH Htext' (c + 1)) as (c' & Hc & Hle & _).
      exists c'. split; [exact Hc|]. split; [lia|]. intros Hrel.
      split; [|lia]. intros _. exists doc.
      split; [apply elem_of_cons; now left | exact Hrel]. }
    assert (Hskip : ~ doc_relevant query doc ->
               exists c',
                 count_relevant (Text.lower query) (keywords (Text.lower query))
                                docs c = Some c' /\
                 c <= c' /\
                 (c < c' <-> exists d, d ∈ (doc :: docs) /\ doc_relevant query d)).
    { intros Hno. destruct (IH Htext' c) as (c' & Hc & Hle & Hiff).
      exists c'. split; [exact Hc|]. split; [exact Hle|].
      rewrite Hiff. split.
      - intros (d & Hd & Hrel). exists d.
        split; [apply elem_of_cons; now right | exact Hrel].
      - intros (d & Hd & Hrel). apply elem_of_cons in Hd as [->|Hd];
          [contradiction | now exists d]. }
    cbn [count_relevant]. cbv zeta.
    destruct (Z.of_nat (size (keywords (Text.lower query)
                              ∩ keywords (Text.lower (page_content doc)))) >=? 2)
      eqn:Hov.
    + destruct Hcount as (c' & Hc & Hle & Hiff).
      exists c'. split; [exact Hc|]. split; [exact Hle|]. apply Hiff.
      left. rewrite Z.geb_leb in Hov. now apply Z.leb_le in Hov.
    + rewrite Z.geb_leb in Hov. apply Z.leb_gt in Hov.
      unfold doc_problem_of.
      destruct (metadata doc !! "problem") as [[s|n]|] eqn:Hmeta.
      * rewrite truthy_lower.
        destruct (Text.truthy s && Text.contains (Text.lower s) (Text.lower query))%bool
          eqn:Hcond.
        -- apply andb_true_iff in Hcond as [Hs Hc].
           destruct Hcount as (c' & Hc' & Hle & Hiff).
           exists c'. split; [exact Hc'|]. split; [exact Hle|]. apply Hiff.
           right. exists s. split; [exact Hmeta|].
           split; [now apply truthy_true | exact Hc].
        -- apply Hskip. intros [Hrel|(problem & Hp & Hne & Hc)]; [lia|].
           rewrite Hmeta in Hp. injection Hp as <-.
           apply truthy_true in Hne. now rewrite Hne, Hc in Hcond.
      * exfalso. apply (Htext doc (list_elem_of_here _ _) n). exact Hmeta.
      * cbn [Text.truthy Text.is_empty negb andb]. apply Hskip.
        intros [Hrel|(problem & Hp & _)]; [lia|].
        rewrite Hmeta in Hp. discriminate Hp.
Qed.

End DocumentFacts.

(** X21: every document built from the table carries the name of the
    file, the number of the line of its row (the header being line 1) and
    the stripped problem of that row; its text begins with that problem,
    and the problem is a key of the dictionary loaded from the same
    table. *)
Theorem document_describes_a_known_problem (name : string) (src : csv_source)
        (doc : Document) :
  doc ∈ load_documents_from_csv name src ->
  exists columns rows (i : nat) row,
    src = CsvTable columns rows /\
    rows !! i = Some row /\
    metadata doc !! "source" = Some (MStr name) /\
    metadata doc !! "row" = Some (MInt (Z.of_nat i + 2)) /\
    metadata doc !! "problem" = Some (MStr (cell row "problem")) /\
    begins_with ("Problem: " +:+ cell row "problem") (page_content doc) /\
    cell row "problem" ∈ odict.keys (load_problem_data_dict src).
Proof.
  destruct src as [| |columns rows];
    [intros H; apply elem_of_nil in H; contradiction ..|].
  rewrite load_documents_table.
  destruct (required_columns columns) eqn:Hc;
    [|intros H; now apply elem_of_nil in H].
  intros H. apply documents_from_elem in H as (i & row & Hi & Hdoc).
  pose proof (document_of_row_documented _ _ _ _ Hdoc) as Hd.
  destruct (document_of_row_some name (0 + Z.of_nat i) row Hd)
    as (doc' & Hdoc' & Hsrc & Hrow & Hpb & Hbegin).
  rewrite Hdoc in Hdoc'. injection Hdoc' as <-.
  exists columns, rows, i, row.
  rewrite Z.add_0_l in Hrow.
  repeat split; try assumption.
  assert (Hin : row ∈ rows) by (eapply list_elem_of_lookup_2, Hi).
  destruct (last_row_for_is_some (cell row "problem") rows row Hin
              (row_documented_kept row Hd) eq_refl) as [r Hr].
  apply (odict_get_in_keys _ _ (record_of_row r)).
  now rewrite load_table_get, Hc, Hr.
Qed.

Lemma document_describes_a_known_problem_witness :
  exists doc problem,
    metadata doc !! "problem" = Some (MStr problem) /\
    problem ∈ odict.keys (load_problem_data_dict demo_source).
Proof.
  destruct (load_documents_from_csv "kb.csv" demo_source) as [|doc docs] eqn:E;
    [vm_compute in E; discriminate E|].
  destruct (document_describes_a_known_problem "kb.csv" demo_source doc)
    as (columns & rows & i & row & _ & _ & _ & _ & Hpb & _ & Hk).
  - rewrite E. apply list_elem_of_here.
  - exists doc, (cell row "problem"). split; [exact Hpb | exact Hk].
Defined.

(** X22: the documents come in the order of the table, one for each row
    that names a problem and has a first step, and none for the others:
    their row numbers are the line numbers of those rows.  A table
    without the required columns gives no document. *)
Theorem documents_follow_the_rows (name : string) (columns : list string)
        (rows : list (gmap string string)) :
  row_numbers (load_documents_from_csv name (CsvTable columns rows)) =
  if required_columns columns
  then (fun n => Some (MInt n)) <$> documented_rows 0 rows
  else [].
Proof.
  rewrite load_documents_table.
  destruct (required_columns columns); [|reflexivity].
  apply documents_from_rows.
Qed.

(** X23: on documents whose problem is a text, [check_rag_relevance]
    returns; it says false for no document, true when the query has no
    keyword, and otherwise true exactly when some document shares two
    keywords with the query or has its problem named in it. *)
Theorem check_rag_relevance_spec (docs : list Document) (query : string) :
  (forall doc, doc ∈ docs -> problem_is_text doc) ->
  exists b,
    check_rag_relevance docs query = Some b /\
    (docs = [] -> b = false) /\
    (docs <> [] -> keywords (Text.lower query) = ∅ -> b = true) /\
    (keywords (Text.lower query) <> ∅ ->
     b = true <-> exists doc, doc ∈ docs /\ doc_relevant query doc).
Proof.
  intros Htext. destruct docs as [|doc docs].
  - exists false. split; [reflexivity|]. split; [reflexivity|].
    split; [congruence|]. intros _. split; [discriminate|].
    intros (d & Hd & _). now apply elem_of_nil in Hd.
  - unfold check_rag_relevance. cbv zeta.
    destruct (decide (keywords (Text.lower query) = ∅)) as [He|Hne].
    + rewrite bool_decide_eq_true_2 by exact He.
      exists true. split; [reflexivity|]. split; [discriminate|].
      split; [reflexivity|]. intros H. contradiction.
    + rewrite bool_decide_eq_false_2 by exact Hne.
      destruct (count_relevant_spec query (doc :: docs) Htext 0)
        as (c & Hc & Hle & Hiff).
      rewrite Hc. exists (c >? 0). split; [reflexivity|].
      split; [discriminate|]. split; [contradiction|]. intros _.
      rewrite <- Hiff. rewrite Z.gtb_ltb. apply Z.ltb_lt.
Qed.

Lemma check_rag_relevance_spec_witness :
  exists b, check_rag_relevance [demo_document] "my pump is overheating" = Some b.
Proof.
  destruct (check_rag_relevance_spec [demo_document] "my pump is overheating")
    as (b & Hb & _).
  - intros doc Hin n. apply list_elem_of_singleton in Hin. subst doc.
    cbn [metadata demo_document]. rewrite lookup_singleton_eq. discriminate.
  - exists b. exact Hb.
Defined.

(** ** The routes that load, delete and report on the knowledge base *)

Section AdminFacts.

Lemma chars_append a b : Text.chars (a +:+ b) = Text.chars a ++ Text.chars b.
Proof.
  induction a as [|c a IH]; [reflexivity|].
  change (String c a +:+ b) with (String c (a +:+ b)).
  cbn [Text.chars list_ascii_of_string]. fold (Text.chars (a +:+ b)).
  fold (Text.chars a). now rewrite IH.
Qed.

Lemma text_app l1 l2 : Text.text (l1 ++ l2) = Text.text l1 +:+ Text.text l2.
Proof.
  induction l1 as [|c l1 IH]; [reflexivity|].
  cbn [app Text.text string_of_list_ascii].
  fold (Text.text (l1 ++ l2)). fold (Text.text l1). rewrite IH. reflexivity.
Qed.

Lemma lower_append a b : Text.lower (a +:+ b) = Text.lower a +:+ Text.lower b.
Proof. unfold Text.lower. now rewrite chars_append, map_app, text_app. Qed.

Lemma contains_chars_app_r p l1 l2 :
  Text.contains_chars p l2 = true -> Text.contains_chars p (l1 ++ l2) = true.
Proof.
  intros H. induction l1 as [|c l1 IH]; [exact H|].
  cbn [app Text.contains_chars]. rewrite IH. apply orb_true_r.
Qed.

Lemma contains_append_r sub a b :
  Text.contains sub b = true -> Text.contains sub (a +:+ b) = true.
Proof.
  unfold Text.contains. rewrite chars_append. apply contains_chars_app_r.
Qed.

Lemma not_found_message dir :
  Text.contains "not found"
    (Text.lower ("Knowledge base directory '" +:+ dir +:+ "' not found."))
  = true.
Proof.
  rewrite !lower_append. do 2 apply contains_append_r.
  vm_compute. reflexivity.
Qed.

Lemma is_empty_false s : s <> "" -> Text.is_empty s = false.
Proof. destruct s; [congruence | reflexivity]. Qed.

(** [delete_vectorstore_directory] on a valid path, case by case. *)
Lemma delete_vectorstore_directory_cases dir disk :
  dir <> "" ->
  delete_vectorstore_directory dir disk =
  if dir_exists disk then
    match rmtree disk with
    | Removed =>
        (true, "Knowledge base directory '" +:+ dir +:+ "' deleted successfully.",
         {| dir_exists := false; rmtree := rmtree disk |})
    | RaisedPermissionError pe =>
        (false, "Permission denied when trying to delete knowledge base: " +:+ pe,
         disk)
    | RaisedOSError oe =>
        (false, "OS error deleting knowledge base (perhaps directory is in use or path invalid?): "
                +:+ oe, disk)
    | RaisedOther e =>
        (false, "Unexpected error during knowledge base deletion: " +:+ e, disk)
    end
  else
    (false, "Knowledge base directory '" +:+ dir +:+ "' not found.", disk).
Proof.
  intros Hdir. unfold delete_vectorstore_directory.
  now rewrite (is_empty_false dir Hdir).
Qed.

Lemma delete_endpoint_missing dir h disk :
  dir <> "" -> dir_exists disk = false ->
  delete_knowledge_base_endpoint dir h disk =
  (HTTPException 404 ("Knowledge base directory '" +:+ dir +:+ "' not found."),
   h, disk).
Proof.
  intros Hdir Hex. unfold delete_knowledge_base_endpoint.
  rewrite (delete_vectorstore_directory_cases dir disk Hdir), Hex.
  cbv beta iota zeta. now rewrite not_found_message.
Qed.

Lemma reset_not_ready h :
  get_ready_state (reset_handles h) =
  HTTPException 503
    "AI Assistant is not ready. Knowledge Base might not be loaded or initialized correctly.".
Proof. reflexivity. Qed.

End AdminFacts.

(** X24: on consistent handles (the model and the chain set together,
    and only with the vector store) and with the API key configured, the
    status route reports the knowledge base as loaded exactly when the
    chat route is available, and says [Ready] exactly then. *)
Theorem status_agrees_with_readiness (cfg : Config) (h : Handles) :
  handles_consistent h ->
  truthy_opt (GOOGLE_API_KEY cfg) = true ->
  (kb_loaded (get_status cfg h) = true <-> get_ready_state h = Ok200 true) /\
  (kb_loaded (get_status cfg h) = true <-> status (get_status cfg h) = "Ready").
Proof.
  intros [Hllm Hvs] Hkey. unfold get_status, get_ready_state.
  rewrite Hkey, Hllm. cbn [negb].
  destruct (rag_chain_set h); cbn [negb orb andb].
  - rewrite (Hvs eq_refl). cbn [andb negb kb_loaded status]. now split.
  - rewrite andb_false_r. cbn [negb kb_loaded status].
    split; split; discriminate.
Qed.

Lemma status_agrees_with_readiness_witness :
  kb_loaded (get_status demo_config demo_handles) = true <->
  get_ready_state demo_handles = Ok200 true.
Proof.
  apply (proj1 (status_agrees_with_readiness demo_config demo_handles
                  (conj eq_refl (fun _ => eq_refl)) eq_refl)).
Defined.

(** X25: the load route answers 200 only when the vector store, the
    model and the chain are all set up: the chat route is then available
    and the problem dictionary is the one loaded from the table.  Every
    failure is a 500; without the API key nothing is touched, and
    otherwise the problem dictionary is emptied and the chat route is
    unavailable, whatever was loaded before.  Consistent handles stay
    consistent when the model and the chain are set up together. *)
Theorem load_kb_outcome (cfg : Config) (env : LoadEnv) (name : string)
        (src : csv_source) (elapsed : string) (h h' : Handles)
        (r : http SimpleResponse) :
  load_knowledge_base_endpoint cfg env name src elapsed h = (r, h') ->
  match r with
  | Ok200 resp =>
      success resp = true /\
      truthy_opt (GOOGLE_API_KEY cfg) = true /\
      create_or_load_vectorstore env (load_documents_from_csv name src) = true /\
      get_ready_state h' = Ok200 true /\
      status (get_status cfg h') = "Ready" /\
      kb_problem_dict h' = load_problem_data_dict src
  | HTTPException status_code detail =>
      status_code = 500 /\
      ((truthy_opt (GOOGLE_API_KEY cfg) = false /\ h' = h) \/
       (truthy_opt (GOOGLE_API_KEY cfg) = true /\
        kb_problem_dict h' = [] /\
        get_ready_state h' <> Ok200 true))
  end /\
  tavily_tool_set h' = tavily_tool_set h /\
  (setup_llm env = setup_rag_chain env ->
   handles_consistent h -> handles_consistent h').
Proof.
  unfold load_knowledge_base_endpoint, load_knowledge_base_logic.
  destruct (truthy_opt (GOOGLE_API_KEY cfg)) eqn:Hkey; cbn [negb].
  2:{ intros [= <- <-]. split; [|split; [reflexivity | now intros _ H]].
      split; [reflexivity|]. now left. }
  cbv zeta.
  destruct (create_or_load_vectorstore env (load_documents_from_csv name src))
    eqn:Hvs; cbn [negb].
  2:{ intros [= <- <-]. split; [|split; [reflexivity|]].
      - split; [reflexivity|]. right. repeat split. discriminate.
      - intros _ _. split; [reflexivity | discriminate]. }
  destruct (setup_llm env) eqn:Hllm, (setup_rag_chain env) eqn:Hchain;
    cbn [negb orb]; intros [= <- <-];
    (split; [|split; [reflexivity|]]).
  - unfold get_status. rewrite Hkey. now repeat split.
  - intros _ _. now split.
  - split; [reflexivity|]. right. repeat split. discriminate.
  - intros H. discriminate H.
  - split; [reflexivity|]. right. repeat split. discriminate.
  - intros H. discriminate H.
  - split; [reflexivity|]. right. repeat split. discriminate.
  - intros _ _. split; [reflexivity | discriminate].
Qed.

Lemma load_kb_outcome_witness :
  get_ready_state
    (snd (load_knowledge_base_endpoint demo_config demo_load_env "kb.csv"
            demo_source "0.10" initial_handles))
  = Ok200 true.
Proof.
  pose proof (load_kb_outcome demo_config demo_load_env "kb.csv" demo_source
                "0.10" initial_handles
                (snd (load_knowledge_base_endpoint demo_config demo_load_env
                        "kb.csv" demo_source "0.10" initial_handles))
                (fst (load_knowledge_base_endpoint demo_config demo_load_env
                        "kb.csv" demo_source "0.10" initial_handles))) as H.
  assert (Hok : exists resp,
             fst (load_knowledge_base_endpoint demo_config demo_load_env
                    "kb.csv" demo_source "0.10" initial_handles) = Ok200 resp).
  { eexists. vm_compute. reflexivity. }
  destruct Hok as [resp Hresp]. rewrite Hresp in H.
  destruct H as ((_ & _ & _ & Hready & _) & _).
  - rewrite <- Hresp. apply surjective_pairing.
  - exact Hready.
Defined.

(** X26: the delete route on a configured path.  It answers 200 only
    when the directory existed and was removed; the handles of the vector
    store, the model and the chain are then unset, the problem dictionary
    is emptied and the chat route is unavailable.  Any failure leaves the
    handles and the disk as they were and is answered 404 or 500; a
    directory that does not exist is a 404. *)
Theorem delete_kb_outcome (dir : string) (h : Handles) (disk : Disk) :
  dir <> "" ->
  exists r h' disk',
    delete_knowledge_base_endpoint dir h disk = (r, h', disk') /\
    match r with
    | Ok200 resp =>
        success resp = true /\
        dir_exists disk = true /\ rmtree disk = Removed /\
        dir_exists disk' = false /\
        h' = reset_handles h /\
        kb_problem_dict h' = [] /\
        get_ready_state h' <> Ok200 true
    | HTTPException status_code detail =>
        h' = h /\ disk' = disk /\
        (status_code = 404 \/ status_code = 500) /\
        (dir_exists disk = false -> status_code = 404) /\
        (dir_exists disk = true -> rmtree disk <> Removed)
    end /\
    (handles_consistent h -> handles_consistent h').
Proof.
  intros Hdir.
  destruct (dir_exists disk) eqn:Hex.
  2:{ eexists _, _, _. split; [now apply delete_endpoint_missing|].
      split; [|now intros H].
      repeat split; [now left | discriminate]. }
  unfold delete_knowledge_base_endpoint.
  rewrite (delete_vectorstore_directory_cases dir disk Hdir), Hex.
  destruct (rmtree disk) as [|pe|oe|e] eqn:Hrm; cbv beta iota zeta.
  - eexists _, _, _. split; [reflexivity|]. split.
    + repeat split. discriminate.
    + intros _. split; [reflexivity | discriminate].
  - match goal with |- context [Text.contains ?a ?b] =>
      destruct (Text.contains a b) end;
      (eexists _, _, _; split; [reflexivity|]; split; [|now intros H];
       repeat split; try discriminate;
       first [left; reflexivity | right; reflexivity]).
  - match goal with |- context [Text.contains ?a ?b] =>
      destruct (Text.contains a b) end;
      (eexists _, _, _; split; [reflexivity|]; split; [|now intros H];
       repeat split; try discriminate;
       first [left; reflexivity | right; reflexivity]).
  - match goal with |- context [Text.contains ?a ?b] =>
      destruct (Text.contains a b) end;
      (eexists _, _, _; split; [reflexivity|]; split; [|now intros H];
       repeat split; try discriminate;
       first [left; reflexivity | right; reflexivity]).
Qed.

Lemma delete_kb_outcome_witness :
  exists r h' disk',
    delete_knowledge_base_endpoint "vectorstore" demo_handles demo_disk
    = (r, h', disk').
Proof.
  destruct (delete_kb_outcome "vectorstore" demo_handles demo_disk)
    as (r & h' & disk' & H & _); [discriminate|].
  exists r, h', disk'. exact H.
Defined.

(** X27: after a deletion that was answered 200, the same request is
    answered 404 and changes nothing, and the chat route answers 503
    until the knowledge base is loaded again. *)
Theorem delete_twice (dir : string) (h h' : Handles) (disk disk' : Disk)
        (resp : SimpleResponse) :
  delete_knowledge_base_endpoint dir h disk = (Ok200 resp, h', disk') ->
  (exists detail,
      delete_knowledge_base_endpoint dir h' disk'
      = (HTTPException 404 detail, h', disk')) /\
  (exists detail, get_ready_state h' = HTTPException 503 detail).
Proof.
  intros H.
  assert (Hdir : dir <> "").
  { intros ->. revert H. unfold delete_knowledge_base_endpoint.
    cbn [delete_vectorstore_directory Text.is_empty].
    cbv beta iota zeta.
    match goal with |- context [Text.contains ?a ?b] =>
      destruct (Text.contains a b) end; discriminate. }
  revert H. unfold delete_knowledge_base_endpoint at 1.
  rewrite (delete_vectorstore_directory_cases dir disk Hdir).
  destruct (dir_exists disk).
  - destruct (rmtree disk) as [|pe|oe|e]; cbv beta iota zeta;
      try (match goal with |- context [Text.contains ?a ?b] =>
             destruct (Text.contains a b) end; discriminate).
    intros [= _ <- <-]. split.
    + eexists. now apply delete_endpoint_missing.
    + eexists. apply reset_not_ready.
  - cbv beta iota zeta. rewrite not_found_message. discriminate.
Qed.

Lemma delete_twice_witness :
  exists detail,
    delete_knowledge_base_endpoint "vectorstore" (reset_handles demo_handles)
      {| dir_exists := false; rmtree := Removed |}
    = (HTTPException 404 detail, reset_handles demo_handles,
       {| dir_exists := false; rmtree := Removed |}).
Proof.
  apply (proj1 (delete_twice "vectorstore" demo_handles
                  (reset_handles demo_handles) demo_disk
                  {| dir_exists := false; rmtree := Removed |}
                  {| success := true;
                     message := "Knowledge base directory 'vectorstore' deleted successfully." |}
                  eq_refl)).
Defined.

(** X28: a removal that fails with a message mentioning [not found], in
    any case, is answered 404 although the directory exists: the status
    is read off the text of the message. *)
Theorem delete_failure_read_as_missing (dir : string) (h : Handles)
        (disk : Disk) (msg : string) :
  dir <> "" ->
  dir_exists disk = true ->
  failure_message (rmtree disk) = Some msg ->
  Text.contains "not found" (Text.lower msg) = true ->
  exists detail,
    delete_knowledge_base_endpoint dir h disk
    = (HTTPException 404 detail, h, disk).
Proof.
  intros Hdir Hex Hmsg Hc. unfold delete_knowledge_base_endpoint.
  rewrite (delete_vectorstore_directory_cases dir disk Hdir), Hex.
  destruct (rmtree disk) as [|pe|oe|e]; cbn [failure_message] in Hmsg;
    [discriminate Hmsg| | |]; injection Hmsg as ->; cbv beta iota zeta;
    rewrite lower_append, (contains_append_r _ _ _ Hc);
    eexists; reflexivity.
Qed.

Lemma delete_failure_read_as_missing_witness :
  exists detail,
    delete_knowledge_base_endpoint "vectorstore" demo_handles
      {| dir_exists := true; rmtree := RaisedOSError "Handle Not Found" |}
    = (HTTPException 404 detail, demo_handles,
       {| dir_exists := true; rmtree := RaisedOSError "Handle Not Found" |}).
Proof.
  apply (delete_failure_read_as_missing "vectorstore" demo_handles
           {| dir_exists := true; rmtree := RaisedOSError "Handle Not Found" |}
           "Handle Not Found").
  - discriminate.
  - reflexivity.
  - reflexivity.
  - vm_compute. reflexivity.
Defined.

(** ** The classifiers and the form of the text *)

(** X29: the two verdicts on the user's reply depend on the text only up
    to case and surrounding white space: two texts that agree once
    lower-cased and stripped are classified alike by [is_problem_solved]
    and by [is_problem_not_solved]. *)
Theorem verdicts_ignore_case_and_margins (text1 text2 : string) :
  normalised text1 = normalised text2 ->
  is_problem_solved text1 = is_problem_solved text2 /\
  is_problem_not_solved text1 = is_problem_not_solved text2.
Proof.
  unfold normalised. intros H. split.
  - rewrite <- (is_problem_solved_normalised text1),
            <- (is_problem_solved_normalised text2).
    now rewrite H.
  - unfold is_problem_not_solved. now rewrite H.
Qed.

Lemma verdicts_ignore_case_and_margins_witness :
  is_problem_solved "  It Is FIXED now " = is_problem_solved "it is fixed now" /\
  is_problem_not_solved "  It Is FIXED now "
  = is_problem_not_solved "it is fixed now".
Proof.
  apply (verdicts_ignore_case_and_margins "  It Is FIXED now " "it is fixed now").
  vm_compute. reflexivity.
Defined.
